(** * hops/tls.py: keystore-to-PEM conversion and password retrieval

    A shallow embedding of [hops/tls.py] together with the parts of the
    Python standard library it calls ([base64], [textwrap], [string],
    [os.path], [open]), followed by the properties of its PEM output, of
    the password sanitisation and of the order and failure behaviour of
    the file operations. *)

From Stdlib Require Import NArith Ascii String List Lia Bool.
From Stdlib Require Import Strings.Byte.
From Stdlib Require Import ZArith DecimalString DecimalPos DecimalZ.
From stdpp Require Import gmap strings list.
Import ListNotations.

(** ** Python [str] and [bytes]

    A [str] is the list of its characters and [bytes] a list of bytes.
    String literals of the source are written as Rocq string literals and
    coerced. *)

Abbreviation str := (list ascii).
Abbreviation bytes := (list byte).

Coercion list_ascii_of_string : string >-> list.

Open Scope string_scope.
Open Scope list_scope.
Open Scope nat_scope.

Definition TAB : ascii := "009"%char.
Definition LF : ascii := "010"%char.
Definition VT : ascii := "011"%char.
Definition FF : ascii := "012"%char.
Definition CR : ascii := "013"%char.
Definition SPACE : ascii := " "%char.
Definition DQUOTE : ascii := "034"%char.
Definition HYPHEN : ascii := "-"%char.

(** [c in s] for a one-character [c]. *)
Definition char_in (c : ascii) (s : str) : bool := existsb (Ascii.eqb c) s.

(** [sep.join(parts)] *)
Fixpoint join (sep : str) (parts : list str) : str :=
  match parts with
  | [] => []
  | [p] => p
  | p :: rest => p ++ sep ++ join sep rest
  end.

(** ** [base64.b64encode] and [base64.b64decode]

    [b64encode] is [binascii.b2a_base64] without the trailing newline:
    three input bytes give four characters of the standard alphabet, and
    a tail of one or two bytes is padded with [=]. *)

Definition table_b2a_base64 : str :=
  "ABCDEFGHIJKLMNOPQRSTUVWXYZabcdefghijklmnopqrstuvwxyz0123456789+/".

Definition BASE64_PAD : ascii := "="%char.

Definition b2a (n : N) : ascii := nth (N.to_nat n) table_b2a_base64 BASE64_PAD.

Fixpoint b64encode (s : bytes) : str :=
  match s with
  | [] => []
  | [a] =>
      let x := Byte.to_N a in
      [b2a (N.shiftr x 2); b2a (N.shiftl (N.land x 3) 4); BASE64_PAD; BASE64_PAD]
  | [a; b] =>
      let x := Byte.to_N a in
      let y := Byte.to_N b in
      [b2a (N.shiftr x 2);
       b2a (N.lor (N.shiftl (N.land x 3) 4) (N.shiftr y 4));
       b2a (N.shiftl (N.land y 15) 2);
       BASE64_PAD]
  | a :: b :: c :: rest =>
      let x := Byte.to_N a in
      let y := Byte.to_N b in
      let z := Byte.to_N c in
      [b2a (N.shiftr x 2);
       b2a (N.lor (N.shiftl (N.land x 3) 4) (N.shiftr y 4));
       b2a (N.lor (N.shiftl (N.land y 15) 2) (N.shiftr z 6));
       b2a (N.land z 63)] ++ b64encode rest
  end.

(** The inverse table: the value of an alphabet character, [None] for
    any other character. *)
Fixpoint find_index (c : ascii) (table : str) (i : N) : option N :=
  match table with
  | [] => None
  | t :: table' => if Ascii.eqb c t then Some i else find_index c table' (N.succ i)
  end.

Definition table_a2b_base64 (c : ascii) : option N := find_index c table_b2a_base64 0.

(** A byte stored through an [unsigned char]. *)
Definition byte_of_N (n : N) : byte :=
  match Byte.of_N (N.land n 255) with
  | Some b => b
  | None => "000"%byte
  end.

(** [binascii.a2b_base64] in its default, non-strict mode, which is what
    [b64decode] runs: characters outside the alphabet are skipped, a
    complete pad sequence ends the input, and input that stops in the
    middle of a quad is an error ([None]). *)
Fixpoint a2b_base64 (ascii_data : str) (quad_pos : nat) (leftchar : N)
    (pads : nat) (bin_data : bytes) : option bytes :=
  match ascii_data with
  | [] => if quad_pos =? 0 then Some bin_data else None
  | this_ch :: rest =>
      if Ascii.eqb this_ch BASE64_PAD then
        if 2 <=? quad_pos then
          if 4 <=? quad_pos + S pads then Some bin_data
          else a2b_base64 rest quad_pos leftchar (S pads) bin_data
        else a2b_base64 rest quad_pos leftchar pads bin_data
      else
        match table_a2b_base64 this_ch with
        | None => a2b_base64 rest quad_pos leftchar pads bin_data
        | Some v =>
            match quad_pos with
            | 0 => a2b_base64 rest 1 v 0 bin_data
            | 1 =>
                a2b_base64 rest 2 (N.land v 15) 0
                  (bin_data ++ [byte_of_N (N.lor (N.shiftl leftchar 2) (N.shiftr v 4))])
            | 2 =>
                a2b_base64 rest 3 (N.land v 3) 0
                  (bin_data ++ [byte_of_N (N.lor (N.shiftl leftchar 4) (N.shiftr v 2))])
            | _ =>
                a2b_base64 rest 0 0 0
                  (bin_data ++ [byte_of_N (N.lor (N.shiftl leftchar 6) v)])
            end
        end
  end.

Definition b64decode (s : str) : option bytes := a2b_base64 s 0 0 0 [].

(** ** [textwrap.wrap]

    [TextWrapper] with its default options: [break_long_words],
    [break_on_hyphens] and [drop_whitespace] on, both indents empty, no
    [max_lines]. *)

Definition _whitespace : str := [TAB; LF; VT; FF; CR; SPACE].

(** [chunk.strip() == ''] *)
Definition is_blank (chunk : str) : bool :=
  forallb (fun c => char_in c _whitespace) chunk.

Definition is_nil {A} (l : list A) : bool :=
  match l with [] => true | _ => false end.

(** [TextWrapper._split]. The pattern [wordsep_re] cuts a text at runs of
    whitespace and behind hyphens; a text that holds neither is a single
    chunk, and empty chunks are dropped. Only such texts are wrapped
    here (see [b64encode_plain]). *)
Definition _split (text : str) : list str :=
  match text with
  | [] => []
  | _ => [text]
  end.

(** [chunk.rfind('-', 0, stop)]: the last position below [stop] that
    holds a hyphen. *)
Fixpoint rfind_hyphen (chunk : str) (stop : nat) (i : nat) (found : option nat) : option nat :=
  match stop, chunk with
  | S stop', c :: chunk' =>
      rfind_hyphen chunk' stop' (S i) (if Ascii.eqb c HYPHEN then Some i else found)
  | _, _ => found
  end.

(** [TextWrapper._handle_long_word]; the stack [reversed_chunks] has its
    top at the head of the list. *)
Definition _handle_long_word (reversed_chunks cur_line : list str) (cur_len width : nat)
    : list str * list str :=
  let space_left := if width <? 1 then 1 else width - cur_len in
  match reversed_chunks with
  | [] => (reversed_chunks, cur_line)
  | chunk :: below =>
      let end_ :=
        if space_left <? length chunk then
          match rfind_hyphen chunk space_left 0 None with
          | Some hyphen =>
              if (0 <? hyphen) && existsb (fun c => negb (Ascii.eqb c HYPHEN)) (firstn hyphen chunk)
              then hyphen + 1 else space_left
          | None => space_left
          end
        else space_left in
      (skipn end_ chunk :: below, cur_line ++ [firstn end_ chunk])
  end.

(** The inner loop of [_wrap_chunks]: chunks are moved to the current
    line while they fit. *)
Fixpoint fill_line (width : nat) (chunks cur_line : list str) (cur_len : nat)
    : list str * list str * nat :=
  match chunks with
  | [] => (chunks, cur_line, cur_len)
  | c :: below =>
      if cur_len + length c <=? width
      then fill_line width below (cur_line ++ [c]) (cur_len + length c)
      else (chunks, cur_line, cur_len)
  end.

(** [TextWrapper._wrap_chunks]: one round of the outer [while chunks]
    loop per unit of fuel; [None] when the fuel runs out before the stack
    is empty. *)
Fixpoint _wrap_chunks (fuel width : nat) (chunks lines : list str) : option (list str) :=
  match chunks with
  | [] => Some lines
  | top :: below =>
      match fuel with
      | 0 => None
      | S fuel' =>
          let chunks := if is_blank top && negb (is_nil lines) then below else chunks in
          let '(chunks, cur_line, cur_len) := fill_line width chunks [] 0 in
          let '(chunks, cur_line) :=
            match chunks with
            | c :: _ =>
                if width <? length c
                then _handle_long_word chunks cur_line cur_len width
                else (chunks, cur_line)
            | [] => (chunks, cur_line)
            end in
          let cur_line :=
            match last cur_line with
            | Some l => if is_blank l then removelast cur_line else cur_line
            | None => cur_line
            end in
          let lines := if is_nil cur_line then lines else lines ++ [concat cur_line] in
          _wrap_chunks fuel' width chunks lines
      end
  end.

(** [textwrap.wrap(text, width)] for a positive [width]. A round of the
    loop on a single chunk takes at least one character off the stack,
    so one unit of fuel per character is enough ([wrap_plain]). *)
Definition wrap (text : str) (width : nat) : list str :=
  match _wrap_chunks (length text) width (_split text) [] with
  | Some lines => lines
  | None => []
  end.

(** ** [bytes_to_pem_str] *)

Definition bytes_to_pem_str (der_bytes : bytes) (pem_type : str) : str :=
  let pem_str : str := "" in
  let pem_str := pem_str ++ ("-----BEGIN " ++ pem_type ++ "-----") ++ [LF] in
  let pem_str := pem_str ++ join [CR; LF] (wrap (b64encode der_bytes) 64) ++ [LF] in
  let pem_str := pem_str ++ ("-----END " ++ pem_type ++ "-----") ++ [LF] in
  pem_str.

(** ** [string.printable] *)

Definition digits : str := "0123456789".
Definition ascii_lowercase : str := "abcdefghijklmnopqrstuvwxyz".
Definition ascii_uppercase : str := "ABCDEFGHIJKLMNOPQRSTUVWXYZ".
Definition punctuation : str :=
  "!" ++ [DQUOTE] ++ "#$%&'()*+,-./:;<=>?@[\]^_`{|}~".
Definition whitespace : str := [SPACE; TAB; LF; CR; VT; FF].
Definition printable : str :=
  digits ++ ascii_lowercase ++ ascii_uppercase ++ punctuation ++ whitespace.

(** ** The keystore as [jks.KeyStore.load] hands it over

    Only the attributes that [convert_jks_to_pem] reads are kept.
    [private_keys] and [certs] are the [items()] of the two dictionaries,
    in iteration order; a certificate of a chain is the pair of its type
    and its encoded bytes. *)

Record PrivateKeyEntry := {
  algorithm_oid : list N;
  pkey : bytes;
  pkey_pkcs8 : bytes;
  cert_chain : list (str * bytes)
}.

Record TrustedCertEntry := {
  cert_type : str;
  cert : bytes
}.

Record KeyStore := {
  private_keys : list (str * PrivateKeyEntry);
  certs : list (str * TrustedCertEntry)
}.

(** [jks.util.RSA_ENCRYPTION_OID] *)
Definition RSA_ENCRYPTION_OID : list N := [1; 2; 840; 113549; 1; 1; 1]%N.

(** ** Text files

    A file holds bytes. [open(path)] without a mode reads it as text:
    the bytes are decoded with the encoding of the locale, here UTF-8,
    and the line ends are translated. The text can hold characters
    that are not ASCII, so a character of a decoded text is its code
    point. *)

Definition is_continuation (b : N) : bool := ((128 <=? b) && (b <=? 191))%N.

(** The second byte of a sequence of three or four bytes: the ranges
    shut out the overlong forms, the surrogates and the code points
    above [U+10FFFF]. *)
Definition is_second_of_three (b0 b1 : N) : bool :=
  (if b0 =? 224 then (160 <=? b1) && (b1 <=? 191)
   else if b0 =? 237 then (128 <=? b1) && (b1 <=? 159)
   else is_continuation b1)%N.

Definition is_second_of_four (b0 b1 : N) : bool :=
  (if b0 =? 240 then (144 <=? b1) && (b1 <=? 191)
   else if b0 =? 244 then (128 <=? b1) && (b1 <=? 143)
   else is_continuation b1)%N.

(** The six bits that a continuation byte adds to what came before. *)
Definition add_continuation (acc b : N) : N :=
  N.lor (N.shiftl acc 6) (N.land b 63).

(** [data.decode("utf-8")] with [errors="strict"]; [None] stands for
    [UnicodeDecodeError]. *)
Fixpoint utf_8_decode (data : str) : option (list N) :=
  match data with
  | [] => Some []
  | c0 :: rest =>
      let b0 := N_of_ascii c0 in
      if (b0 <? 128)%N then
        match utf_8_decode rest with
        | Some text => Some (b0 :: text)
        | None => None
        end
      else if ((194 <=? b0) && (b0 <=? 223))%N then
        match rest with
        | c1 :: rest =>
            let b1 := N_of_ascii c1 in
            if is_continuation b1 then
              match utf_8_decode rest with
              | Some text => Some (add_continuation (N.land b0 31) b1 :: text)
              | None => None
              end
            else None
        | _ => None
        end
      else if ((224 <=? b0) && (b0 <=? 239))%N then
        match rest with
        | c1 :: c2 :: rest =>
            let b1 := N_of_ascii c1 in
            let b2 := N_of_ascii c2 in
            if is_second_of_three b0 b1 && is_continuation b2 then
              match utf_8_decode rest with
              | Some text =>
                  Some (add_continuation (add_continuation (N.land b0 15) b1) b2 :: text)
              | None => None
              end
            else None
        | _ => None
        end
      else if ((240 <=? b0) && (b0 <=? 244))%N then
        match rest with
        | c1 :: c2 :: c3 :: rest =>
            let b1 := N_of_ascii c1 in
            let b2 := N_of_ascii c2 in
            let b3 := N_of_ascii c3 in
            if is_second_of_four b0 b1 && is_continuation b2 && is_continuation b3 then
              match utf_8_decode rest with
              | Some text =>
                  Some (add_continuation
                          (add_continuation (add_continuation (N.land b0 7) b1) b2) b3
                        :: text)
              | None => None
              end
            else None
        | _ => None
        end
      else None
  end.

(** The universal newlines of a file opened for reading with
    [newline=None]: a carriage return with the newline after it, and a
    carriage return alone, come out as one newline. *)
Fixpoint universal_newlines (text : list N) : list N :=
  match text with
  | [] => []
  | c :: rest =>
      if (c =? 13)%N then
        10%N :: match rest with
                | c' :: rest' =>
                    if (c' =? 10)%N then universal_newlines rest' else universal_newlines rest
                | [] => []
                end
      else c :: universal_newlines rest
  end.

(** [x in s] for a character [x] of a decoded text and a [str] of the
    model. *)
Definition in_str (x : N) (s : str) : bool :=
  existsb (fun c => (x =? N_of_ascii c)%N) s.

(** ** Files, exceptions and the effects of a call

    The working directory, the files and the record of the calls made to
    the operating system and to the keystore library. An exception
    leaves the effects made before it in place. *)

Inductive node :=
  | File (content : str)
  | Dir.

Inductive mode := ModeR | ModeW.

Inductive event :=
  | EvExists (path : str)
  | EvOpen (path : str) (m : mode)
  | EvRead (path : str)
  | EvWrite (path : str) (text : str)
  | EvLoad (path : str) (pw : str).

Inductive exn :=
  | AssertionError (msg : str)
  | IOError (path : str)
  | KeystoreException (msg : str)
  | UnicodeDecodeError.

Record world := {
  cwd : str;
  fs : gmap str node;
  log : list event
}.

Definition M (A : Type) : Type := world -> (exn + A) * world.

Definition ret {A} (a : A) : M A := fun w => (inr a, w).

Definition raise {A} (e : exn) : M A := fun w => (inl e, w).

Definition bind {A B} (m : M A) (f : A -> M B) : M B :=
  fun w =>
    match m w with
    | (inl e, w') => (inl e, w')
    | (inr a, w') => f a w'
    end.

Notation "x <- m ;; k" := (bind m (fun x => k))
  (at level 100, m at next level, right associativity).
Notation "m ;;; k" := (bind m (fun _ => k))
  (at level 100, right associativity).

Definition emit (e : event) (w : world) : world :=
  {| cwd := cwd w; fs := fs w; log := log w ++ [e] |}.

Definition store (path : str) (n : node) (w : world) : world :=
  {| cwd := cwd w; fs := <[path := n]> (fs w); log := log w |}.

(** [os.getcwd()] *)
Definition getcwd : M str := fun w => (inr (cwd w), w).

(** [os.path.exists(path)] *)
Definition path_exists (path : str) : M bool :=
  fun w => (inr (bool_decide (is_Some (fs w !! path))), emit (EvExists path) w).

(** [with open(path, "rb") as f: f.read()]: the bytes of the file as
    they are, each as the character with its code. *)
Definition read_file (path : str) : M str :=
  fun w =>
    let w := emit (EvOpen path ModeR) w in
    match fs w !! path with
    | Some (File content) => (inr content, emit (EvRead path) w)
    | _ => (inl (IOError path), w)
    end.

(** [with open(path) as f: f.read()]: the file is opened as text, and
    what is read is decoded and its line ends are translated. Bytes
    that are not UTF-8 make [f.read()] raise. *)
Definition read_text (path : str) : M (list N) :=
  fun w =>
    let w := emit (EvOpen path ModeR) w in
    match fs w !! path with
    | Some (File content) =>
        let w := emit (EvRead path) w in
        match utf_8_decode content with
        | Some text => (inr (universal_newlines text), w)
        | None => (inl UnicodeDecodeError, w)
        end
    | _ => (inl (IOError path), w)
    end.

(** [open(path, "w")]: the file is created or cut to length zero. *)
Definition open_w (path : str) : M unit :=
  fun w =>
    let w := emit (EvOpen path ModeW) w in
    match fs w !! path with
    | Some Dir => (inl (IOError path), w)
    | _ => (inr tt, store path (File []) w)
    end.

(** [f.write(text)] on a file opened by [open_w]. *)
Definition write (path : str) (text : str) : M unit :=
  fun w =>
    let w := emit (EvWrite path text) w in
    match fs w !! path with
    | Some (File content) => (inr tt, store path (File (content ++ text)) w)
    | _ => (inl (IOError path), w)
    end.

(** ** [hops.constants.SSL_CONFIG]

    The file names that [hops/tls.py] takes from [hops.constants];
    they are parameters of the model. *)

Record SSL_CONFIG := {
  K_CERTIFICATE_CONFIG : str;
  T_CERTIFICATE_CONFIG : str;
  PEM_K_CERTIFICATE_CONFIG : str;
  PEM_T_CERTIFICATE_CONFIG : str;
  CRYPTO_MATERIAL_PASSWORD : str
}.

(** ** The functions of [hops/tls.py] *)

Section Tls.

Variable constants : SSL_CONFIG.

(** [jks.KeyStore.loads(data, pw, try_decrypt_keys=True)]: parsing,
    the integrity check and the decryption of the keys are the
    library's. Reading an attribute of an entry it could not decrypt
    raises in the library as well; [convert_jks_to_pem] has no effect
    of its own before it returns, so that exception is counted among
    the failures of the load. *)
Variable loads : str -> str -> exn + KeyStore.

(** [jks.KeyStore.load(path, pw, try_decrypt_keys=True)] *)
Definition KeyStore_load (path pw : str) : M KeyStore :=
  fun w =>
    let w := emit (EvLoad path pw) w in
    match fs w !! path with
    | Some (File data) =>
        match loads data pw with
        | inl e => (inl e, w)
        | inr ks => (inr ks, w)
        end
    | _ => (inl (IOError path), w)
    end.

Definition get_key_store : str := K_CERTIFICATE_CONFIG constants.

Definition get_trust_store : str := T_CERTIFICATE_CONFIG constants.

(** The characters that pass the filter are in [string.printable] and
    so ASCII: the password is a [str] of the model. *)
Definition _get_cert_pw : M str :=
  d <- getcwd ;;
  let pwd_path := d ++ "/" ++ CRYPTO_MATERIAL_PASSWORD constants in
  present <- path_exists pwd_path ;;
  if negb present then
    raise (AssertionError ("material_passwd is not present in directory: " ++ pwd_path))
  else
    key_store_pwd <- read_text pwd_path ;;
    let key_store_pwd :=
      join "" (map (fun x => [ascii_of_N x])
        (List.filter (fun x => in_str x printable && negb (x =? N_of_ascii "@")%N)
           key_store_pwd)) in
    ret key_store_pwd.

Definition get_key_store_pwd : M str := _get_cert_pw.

Definition get_trust_store_pwd : M str := _get_cert_pw.

(** The body of the loop over [ks.private_keys.items()]. *)
Definition private_key_to_pem (pem_str : str) (item : str * PrivateKeyEntry) : str :=
  let pk := snd item in
  let pem_str :=
    if bool_decide (algorithm_oid pk = RSA_ENCRYPTION_OID)
    then pem_str ++ bytes_to_pem_str (pkey pk) "RSA PRIVATE KEY"
    else pem_str ++ bytes_to_pem_str (pkey_pkcs8 pk) "PRIVATE KEY" in
  fold_left (fun pem_str c => pem_str ++ bytes_to_pem_str (snd c) "CERTIFICATE")
    (cert_chain pk) pem_str.

(** The body of the loop over [ks.certs.items()]. *)
Definition trusted_cert_to_pem (pem_str : str) (item : str * TrustedCertEntry) : str :=
  pem_str ++ bytes_to_pem_str (cert (snd item)) "CERTIFICATE".

(** The two loops of [convert_jks_to_pem] over a loaded keystore. *)
Definition keystore_to_pem (ks : KeyStore) : str :=
  let pem_str : str := "" in
  let pem_str := fold_left private_key_to_pem (private_keys ks) pem_str in
  let pem_str := fold_left trusted_cert_to_pem (certs ks) pem_str in
  pem_str.

Definition convert_jks_to_pem (jks_path pw : str) : M str :=
  ks <- KeyStore_load jks_path pw ;;
  ret (keystore_to_pem ks).

Definition write_pem (jks_path pw output_path : str) : M unit :=
  pem_str <- convert_jks_to_pem jks_path pw ;;
  open_w output_path ;;;
  write output_path pem_str.

Definition write_pems : M unit :=
  d <- getcwd ;;
  let k_jks_path := d ++ "/" ++ K_CERTIFICATE_CONFIG constants in
  d <- getcwd ;;
  let t_jks_path := d ++ "/" ++ T_CERTIFICATE_CONFIG constants in
  d <- getcwd ;;
  let k_pem_path := d ++ "/" ++ PEM_K_CERTIFICATE_CONFIG constants in
  d <- getcwd ;;
  let t_pem_path := d ++ "/" ++ PEM_T_CERTIFICATE_CONFIG constants in
  pw <- get_key_store_pwd ;;
  write_pem k_jks_path pw k_pem_path ;;;
  pw <- get_trust_store_pwd ;;
  write_pem t_jks_path pw t_pem_path.

End Tls.

(** ** Notions used to state the properties *)

(** The two marker lines of a block. *)
Definition begin_marker (pem_type : str) : str := "-----BEGIN " ++ pem_type ++ "-----".
Definition end_marker (pem_type : str) : str := "-----END " ++ pem_type ++ "-----".

(** [s] without a leading [p], when it starts with [p]. *)
Fixpoint strip_prefix (p s : str) : option str :=
  match p, s with
  | [], _ => Some s
  | a :: p', b :: s' => if Ascii.eqb a b then strip_prefix p' s' else None
  | _ :: _, [] => None
  end.

(** [s] without a trailing [p], when it ends with [p]. *)
Definition strip_suffix (p s : str) : option str :=
  match strip_prefix (rev p) (rev s) with
  | Some r => Some (rev r)
  | None => None
  end.

(** What a block holds between its begin marker line and its end marker
    line. *)
Definition pem_body (pem_type block : str) : option str :=
  match strip_prefix (begin_marker pem_type ++ [LF]) block with
  | Some rest => strip_suffix (end_marker pem_type ++ [LF]) rest
  | None => None
  end.

(** A text without its carriage returns and newlines. *)
Definition strip_line_terminators (s : str) : str :=
  List.filter (fun c => negb (Ascii.eqb c CR || Ascii.eqb c LF)) s.

(** The Base64 text of a block: its body lines, concatenated. *)
Definition pem_base64 (pem_type block : str) : option str :=
  match pem_body pem_type block with
  | Some body => Some (strip_line_terminators body)
  | None => None
  end.

(** The bytes a block encodes. *)
Definition pem_decode (pem_type block : str) : option bytes :=
  match pem_base64 pem_type block with
  | Some text => b64decode text
  | None => None
  end.

(** The key block of a private-key entry: its label and its bytes. *)
Definition key_block (pk : PrivateKeyEntry) : str * bytes :=
  if bool_decide (algorithm_oid pk = RSA_ENCRYPTION_OID)
  then ("RSA PRIVATE KEY" : str, pkey pk)
  else ("PRIVATE KEY" : str, pkey_pkcs8 pk).

(** The blocks of a private-key entry: the key, then its chain from the
    leaf on. *)
Definition entry_blocks (pk : PrivateKeyEntry) : list (str * bytes) :=
  key_block pk :: map (fun c => ("CERTIFICATE" : str, snd c)) (cert_chain pk).

(** The blocks of a keystore in the order of its entries: those of the
    private-key entries, then one per trusted certificate. *)
Definition keystore_blocks (ks : KeyStore) : list (str * bytes) :=
  flat_map (fun item => entry_blocks (snd item)) (private_keys ks)
  ++ map (fun item => ("CERTIFICATE" : str, cert (snd item))) (certs ks).

(** The text of a list of blocks. *)
Definition blocks_to_pem (blocks : list (str * bytes)) : str :=
  concat (map (fun b => bytes_to_pem_str (snd b) (fst b)) blocks).

(** The characters from space to tilde. *)
Definition is_graphic_or_space (c : ascii) : bool :=
  let n := nat_of_ascii c in (32 <=? n) && (n <=? 126).

(** The events a call adds to the record. *)
Definition events_of {A} (m : M A) (w : world) : list event :=
  skipn (length (log w)) (log (snd (m w))).

(** How often a file is read. *)
Definition count_reads (path : str) (l : list event) : nat :=
  length (List.filter (fun e => match e with
                           | EvRead p => bool_decide (p = path)
                           | _ => false
                           end) l).

(** ** Notions used in the proofs *)

(** Every byte, for checks by enumeration. *)
Definition all_bytes : list byte :=
  flat_map (fun n => match Byte.of_N (N.of_nat n) with Some b => [b] | None => [] end)
    (seq 0 256).

Definition sextets : list N := map N.of_nat (seq 0 64).

(** The four six-bit values of a group of three bytes [x], [y], [z]. *)
Definition sx0 (x : N) : N := N.shiftr x 2.
Definition sx1 (x y : N) : N := N.lor (N.shiftl (N.land x 3) 4) (N.shiftr y 4).
Definition sx2 (y z : N) : N := N.lor (N.shiftl (N.land y 15) 2) (N.shiftr z 6).
Definition sx3 (z : N) : N := N.land z 63.

(** A character that is neither whitespace nor a hyphen. *)
Definition plain_char (c : ascii) : bool :=
  negb (char_in c _whitespace) && negb (Ascii.eqb c HYPHEN).

(** The shape of a hard-wrapped text: every line but the last has
    exactly [width] characters, the last one between one and [width]. *)
Fixpoint wrapped_shape (width : nat) (lines : list str) : Prop :=
  match lines with
  | [] => True
  | l :: rest =>
      match rest with
      | [] => 1 <= length l <= width
      | _ :: _ => length l = width /\ wrapped_shape width rest
      end
  end.

(** The paths that [write_pems] and [_get_cert_pw] build. *)
Definition in_cwd (w : world) (name : str) : str := cwd w ++ "/" ++ name.

(** What [_get_cert_pw] keeps of the text of the password file. *)
Definition kept_by_get_cert_pw (x : N) : bool :=
  in_str x printable && negb (x =? N_of_ascii "@")%N.

(** The password that [_get_cert_pw] makes of the bytes of the password
    file, when they can be decoded. *)
Definition password_of (content : str) : option str :=
  match utf_8_decode content with
  | Some text =>
      Some (map ascii_of_N (List.filter kept_by_get_cert_pw (universal_newlines text)))
  | None => None
  end.

(** The world after [events] and with [path] holding [text]. *)
Definition written (path text : str) (events : list event) (w : world) : world :=
  {| cwd := cwd w; fs := <[path := File text]> (fs w); log := log w ++ events |}.

(** The world after [events], files untouched. *)
Definition logged (events : list event) (w : world) : world :=
  {| cwd := cwd w; fs := fs w; log := log w ++ events |}.

Section Steps.

Variable constants : SSL_CONFIG.
Variable loads : str -> str -> exn + KeyStore.

(** A password retrieval followed by a [write_pem] on files of the
    working directory. *)
Definition store_step (jks_name pem_name : str) : M unit :=
  fun w =>
    (pw <- _get_cert_pw constants ;;
     write_pem loads (in_cwd w jks_name) pw (in_cwd w pem_name)) w.

(** The first and the second call of [write_pem] in [write_pems], each
    with the retrieval of its password. *)
Definition identity_step : M unit :=
  fun w =>
    (pw <- get_key_store_pwd constants ;;
     write_pem loads (in_cwd w (K_CERTIFICATE_CONFIG constants)) pw
       (in_cwd w (PEM_K_CERTIFICATE_CONFIG constants))) w.

Definition trust_step : M unit :=
  fun w =>
    (pw <- get_trust_store_pwd constants ;;
     write_pem loads (in_cwd w (T_CERTIFICATE_CONFIG constants)) pw
       (in_cwd w (PEM_T_CERTIFICATE_CONFIG constants))) w.

End Steps.

(** The calls of the keystore library among the events, and their
    number. *)
Definition loads_of (l : list event) : list event :=
  List.filter (fun e => match e with EvLoad _ _ => true | _ => false end) l.

Definition count_loads (l : list event) : nat := length (loads_of l).

(** The events of one step of [write_pems] that runs to its end. *)
Definition step_events (pwd_path jks_path pem_path pw pem_str : str) : list event :=
  [EvExists pwd_path; EvOpen pwd_path ModeR; EvRead pwd_path;
   EvLoad jks_path pw; EvOpen pem_path ModeW; EvWrite pem_path pem_str].

(** The layout characters that [string.printable] holds besides the
    characters from space to tilde: tab, newline, vertical tab, form feed
    and carriage return. *)
Definition is_layout_control (c : ascii) : bool :=
  let n := nat_of_ascii c in (9 <=? n) && (n <=? 13).

(** The same for the characters of a decoded text: the characters from
    space to tilde, and tab, newline, vertical tab and form feed. *)
Definition is_graphic_or_space_code (c : N) : bool := ((32 <=? c) && (c <=? 126))%N.

Definition is_tab_to_form_feed (c : N) : bool := ((9 <=? c) && (c <=? 12))%N.

(** A byte of an ASCII text. *)
Definition is_ascii (c : ascii) : bool := (N_of_ascii c <? 128)%N.

(** The sanitisation in the words of the specification: what is not an
    ASCII printable character (space to tilde) goes, and so does [@]. *)
Definition sanitize_ascii_printable (content : str) : str :=
  List.filter (fun c => is_graphic_or_space c && negb (Ascii.eqb c "@")) content.

(** ** A deployment to run the functions on

    File names after the conventions of the platform, a keystore with
    the private-key entry [k1] (chain: leaf, root) and the trusted
    certificate [t1], and a loader that accepts one password. *)

Definition example_constants : SSL_CONFIG := {|
  K_CERTIFICATE_CONFIG := "k_certificate";
  T_CERTIFICATE_CONFIG := "t_certificate";
  PEM_K_CERTIFICATE_CONFIG := "k_certificate.pem";
  PEM_T_CERTIFICATE_CONFIG := "t_certificate.pem";
  CRYPTO_MATERIAL_PASSWORD := "material_passwd"
|}.

Definition example_key : bytes := ["048"; "130"; "002"; "093"; "002"; "001"; "000"]%byte.
Definition example_leaf : bytes := ["048"; "130"; "003"; "001"; "255"]%byte.
Definition example_root : bytes := ["048"; "130"; "002"; "254"]%byte.
Definition example_ca : bytes := ["048"; "130"; "001"; "017"; "160"; "003"]%byte.

Definition example_k1 : PrivateKeyEntry := {|
  algorithm_oid := RSA_ENCRYPTION_OID;
  pkey := example_key;
  pkey_pkcs8 := ["048"; "130"; "002"; "119"]%byte ++ example_key;
  cert_chain := [("X.509" : str, example_leaf); ("X.509" : str, example_root)]
|}.

Definition example_keystore : KeyStore := {|
  private_keys := [("k1" : str, example_k1)];
  certs := [("t1" : str, {| cert_type := "X.509"; cert := example_ca |})]
|}.

Definition example_loads (data pw : str) : exn + KeyStore :=
  if bool_decide (data = "keystore" /\ pw = "pssword") then inr example_keystore
  else inl (KeystoreException "keystore password was incorrect").

(** The working directory [/srv/app] with two keystores and a password
    file of the given content. *)
Definition example_world (password_file : str) : world := {|
  cwd := "/srv/app";
  fs := <[("/srv/app/material_passwd" : str) := File password_file]>
       (<[("/srv/app/k_certificate" : str) := File "keystore"]>
       (<[("/srv/app/t_certificate" : str) := File "keystore"]> ∅));
  log := []
|}.

(** The same directory with an identity keystore that does not load. *)
Definition damaged_world : world := {|
  cwd := "/srv/app";
  fs := <[("/srv/app/material_passwd" : str) := File "pssword"]>
       (<[("/srv/app/k_certificate" : str) := File "damaged"]>
       (<[("/srv/app/t_certificate" : str) := File "keystore"]>
       (<[("/srv/app/k_certificate.pem" : str) := File "earlier text"]> ∅)));
  log := []
|}.

(** The password file of the sanitisation example. *)
Definition example_password_file : str := "p@ss" ++ ["001"%char] ++ "word".


(** ** [get_key_store_cert] *)

Section TlsCert.

Variable constants : SSL_CONFIG.

(** [with open(path, "rb") as f: f.read()]: the content of the file as
    bytes. *)
Definition read_file_bytes (path : str) : M bytes :=
  content <- read_file path ;;
  ret (map byte_of_ascii content).

(** The value is a [bytes] object: the codes of the characters of the
    Base64 text. *)
Definition get_key_store_cert : M bytes :=
  d <- getcwd ;;
  let cert_path := d ++ "/" ++ K_CERTIFICATE_CONFIG constants in
  present <- path_exists cert_path ;;
  if negb present then
    raise (AssertionError ("k_certificate is not present in directory: " ++ cert_path))
  else
    key_store_cert <- read_file_bytes cert_path ;;
    let key_store_cert := map byte_of_ascii (b64encode key_store_cert) in
    ret key_store_cert.

End TlsCert.

(** The same directory with a trust keystore that does not load. *)
Definition damaged_trust_world : world := {|
  cwd := "/srv/app";
  fs := <[("/srv/app/material_passwd" : str) := File "pssword"]>
       (<[("/srv/app/k_certificate" : str) := File "keystore"]>
       (<[("/srv/app/t_certificate" : str) := File "damaged"]> ∅));
  log := []
|}.

(** A keystore without entries and a loader that gives it. *)
Definition empty_keystore : KeyStore := {| private_keys := []; certs := [] |}.

Definition empty_loads (data pw : str) : exn + KeyStore := inr empty_keystore.

(** * [hops/util.py]

    The functions of [hops/util.py] that work on strings, on the file
    system and on dictionaries, on a POSIX system. *)

Definition pathsep : ascii := ":"%char.
Definition sep : ascii := "/"%char.

(** [s.split(c)] for a separator of one character. *)
Fixpoint split (c : ascii) (s : str) : list str :=
  match s with
  | [] => [[]]
  | x :: s' =>
      if Ascii.eqb x c then [] :: split c s'
      else
        match split c s' with
        | piece :: pieces => (x :: piece) :: pieces
        | [] => [[x]]
        end
  end.

(** [posixpath.join(a, b)] *)
Definition path_join (a b : str) : str :=
  let path := a in
  if match b with x :: _ => Ascii.eqb x sep | [] => false end then b
  else if is_nil path || match last path with Some x => Ascii.eqb x sep | None => false end
  then path ++ b
  else path ++ [sep] ++ b.

(** What [os.path.exists] answers. *)
Definition exists_at (files : gmap str node) (path : str) : bool :=
  bool_decide (is_Some (files !! path)).

(** The loop of [_find_in_path] over the pieces of the path. *)
Fixpoint find_in_dirs (files : gmap str node) (dirs : list str) (file : str) : option str :=
  match dirs with
  | [] => None
  | p :: dirs' =>
      let candidate := path_join p file in
      if exists_at files (path_join p file) then Some candidate
      else find_in_dirs files dirs' file
  end.

(** [_find_in_path(path, file)]; [None] stands for the [False] that is
    returned when the loop finds nothing. *)
Definition _find_in_path (files : gmap str node) (path file : str) : option str :=
  find_in_dirs files (split pathsep path) file.

(** The exceptions of [hops/util.py] and of the library calls in it. *)
Inductive util_exn :=
  | TypeError
  | KeyError (key : str)
  | IndexError
  | UtilException (msg : str).

(** [posixpath.dirname(p)] *)
Fixpoint drop_until_sep (s : str) : str :=
  match s with
  | [] => []
  | x :: s' => if Ascii.eqb x sep then s else drop_until_sep s'
  end.

Fixpoint drop_seps (s : str) : str :=
  match s with
  | [] => []
  | x :: s' => if Ascii.eqb x sep then drop_seps s' else s
  end.

Definition dirname (p : str) : str :=
  let head := rev (drop_until_sep (rev p)) in
  if negb (is_nil head) && negb (forallb (fun x => Ascii.eqb x sep) head)
  then rev (drop_seps (rev head))
  else head.

(** [find_tensorboard()], given the environment variables and the files.
    [os.getenv] gives [None] for a variable that is not set, which
    [os.path.dirname] refuses; [os.environ[...]] raises [KeyError]. *)
Definition find_tensorboard (environ : gmap str str) (files : gmap str node)
    : util_exn + str :=
  let pypath := environ !! ("PYSPARK_PYTHON" : str) in
  match pypath with
  | None => inl TypeError
  | Some pypath =>
      let pydir := dirname pypath in
      match environ !! ("PATH" : str) with
      | None => inl (KeyError "PATH")
      | Some path =>
          match environ !! ("PYTHONPATH" : str) with
          | None => inl (KeyError "PYTHONPATH")
          | Some pythonpath =>
              let search_path := join [pathsep] [pydir; path; pythonpath] in
              let tb_path := _find_in_path files search_path "tensorboard" in
              match tb_path with
              | Some (x :: tb) => inr (x :: tb)
              | _ =>
                  inl (UtilException ("Unable to find 'tensorboard' in: " ++ search_path))
              end
          end
      end
  end.

(** ** [grid_params]

    A dictionary is the list of its items in the order of iteration;
    its keys are the names of the hyperparameters and its values the
    lists of their values. *)

Section GridParams.

Context {V : Type}.

(** [d[key]] *)
Fixpoint dict_get {W : Type} (d : list (str * W)) (key : str) : option W :=
  match d with
  | [] => None
  | (k, v) :: d' => if bool_decide (k = key) then Some v else dict_get d' key
  end.

(** [d[key] = v]: the value of a key that is there is replaced, a new
    key goes to the end. *)
Fixpoint dict_set {W : Type} (d : list (str * W)) (key : str) (v : W) : list (str * W) :=
  match d with
  | [] => [(key, v)]
  | (k, v') :: d' =>
      if bool_decide (k = key) then (k, v) :: d' else (k, v') :: dict_set d' key v
  end.

(** [itertools.product] of the pools. *)
Fixpoint product (pools : list (list V)) : list (list V) :=
  match pools with
  | [] => [[]]
  | pool :: pools' => flat_map (fun x => map (cons x) (product pools')) pool
  end.

(** The first items of all rows, when no row is empty. *)
Fixpoint heads (rows : list (list V)) : option (list V) :=
  match rows with
  | [] => Some []
  | [] :: _ => None
  | (x :: _) :: rows' =>
      match heads rows' with
      | Some xs => Some (x :: xs)
      | None => None
      end
  end.

(** [zip] of the rows: it stops with the shortest row, and gives
    nothing when there is no row. *)
Fixpoint zip_rows (n : nat) (rows : list (list V)) : list (list V) :=
  match n with
  | 0 => []
  | S n' =>
      match heads rows with
      | Some xs => xs :: zip_rows n' (map (@tl V) rows)
      | None => []
      end
  end.

Definition zip_star (rows : list (list V)) : list (list V) :=
  match rows with
  | [] => []
  | row :: _ => zip_rows (length row) rows
  end.

(** The first loop of [grid_params]; a key that is not in the
    dictionary would raise [KeyError]. *)
Fixpoint grid_values (d : list (str * list V)) (keys : list str) (val_arr : list (list V))
    : util_exn + list (list V) :=
  match keys with
  | [] => inr val_arr
  | key :: keys' =>
      match dict_get d key with
      | Some v => grid_values d keys' (val_arr ++ [v])
      | None => inl (KeyError key)
      end
  end.

(** The second loop of [grid_params]. *)
Fixpoint grid_columns (permutations : list (list V)) (keys : list str)
    (slice_index : nat) (args_dict : list (str * list V))
    : util_exn + list (str * list V) :=
  match keys with
  | [] => inr args_dict
  | key :: keys' =>
      match nth_error (zip_star permutations) slice_index with
      | None => inl IndexError
      | Some column =>
          let args_arr := fold_left (fun args_arr val => args_arr ++ [val]) column [] in
          grid_columns permutations keys' (slice_index + 1) (dict_set args_dict key args_arr)
      end
  end.

Definition grid_params (dict : list (str * list V)) : util_exn + list (str * list V) :=
  let keys := map fst dict in
  match grid_values dict keys [] with
  | inl e => inl e
  | inr val_arr =>
      let permutations := product val_arr in
      grid_columns permutations keys 0 []
  end.

End GridParams.

(** The [j]-th components of the rows, in the order of the rows. *)
Definition column {V : Type} (j : nat) (rows : list (list V)) : list V :=
  flat_map (fun row => match nth_error row j with Some x => [x] | None => [] end) rows.

(** The number of combinations of one value from each pool. *)
Definition product_size {V : Type} (pools : list (list V)) : nat :=
  fold_right (fun pool n => length pool * n) 1 pools.

(** A grid of two learning rates and three dropout rates, in
    thousandths. *)
Definition example_grid : list (str * list nat) :=
  [("learning_rate" : str, [1; 10]); ("dropout" : str, [100; 300; 500])].

(** * [hops/experiment.py]

    The module keeps the state of the experiment in its globals and
    leaves the work to its collaborators: Spark, HDFS, the search index,
    TensorBoard, [json], [subprocess], the clock. The collaborators are
    not modelled. A call to one of them, or a look at an attribute of
    one of their modules, is put to an oracle that answers with a value
    or with an exception and changes a state of its own. The oracle
    stands for collaborators that do not assign the globals of this
    module and do not call it.

    [begin], [end] and the two handlers are modelled. The functions
    that launch jobs ([launch], [grid_search], ...) first call
    [util.num_param_servers()] without the argument it takes in
    [hops/util.py] and are left out. *)

(** [str(n)] for an integer. *)
Definition str_of_Z (n : Z) : str :=
  list_ascii_of_string (NilZero.string_of_int (Z.to_int n)).

Section ExperimentState.

(** The objects other than [None] that the module only hands on; a
    value that may be [None] is an [option]. *)
Context {obj : Type}.

(** The globals of the module. *)
Record globals := {
  elastic_id : Z;
  app_id : option str;
  experiment_json : option obj;
  running : bool;
  driver_tensorboard_hdfs_path : option obj;
  run_id : Z
}.

(** The module at import. *)
Definition initial_globals : globals := {|
  elastic_id := 1;
  app_id := None;
  experiment_json := None;
  running := false;
  driver_tensorboard_hdfs_path := None;
  run_id := 0
|}.

(** Assignments to the globals. *)
Definition set_elastic_id (v : Z) (g : globals) : globals :=
  {| elastic_id := v; app_id := app_id g; experiment_json := experiment_json g;
     running := running g;
     driver_tensorboard_hdfs_path := driver_tensorboard_hdfs_path g;
     run_id := run_id g |}.

Definition set_app_id (v : option str) (g : globals) : globals :=
  {| elastic_id := elastic_id g; app_id := v; experiment_json := experiment_json g;
     running := running g;
     driver_tensorboard_hdfs_path := driver_tensorboard_hdfs_path g;
     run_id := run_id g |}.

Definition set_experiment_json (v : option obj) (g : globals) : globals :=
  {| elastic_id := elastic_id g; app_id := app_id g; experiment_json := v;
     running := running g;
     driver_tensorboard_hdfs_path := driver_tensorboard_hdfs_path g;
     run_id := run_id g |}.

Definition set_running (v : bool) (g : globals) : globals :=
  {| elastic_id := elastic_id g; app_id := app_id g; experiment_json := experiment_json g;
     running := v;
     driver_tensorboard_hdfs_path := driver_tensorboard_hdfs_path g;
     run_id := run_id g |}.

Definition set_driver_tensorboard_hdfs_path (v : option obj) (g : globals) : globals :=
  {| elastic_id := elastic_id g; app_id := app_id g; experiment_json := experiment_json g;
     running := running g;
     driver_tensorboard_hdfs_path := v;
     run_id := run_id g |}.

Definition set_run_id (v : Z) (g : globals) : globals :=
  {| elastic_id := elastic_id g; app_id := app_id g; experiment_json := experiment_json g;
     running := running g;
     driver_tensorboard_hdfs_path := driver_tensorboard_hdfs_path g;
     run_id := v |}.

(** The calls to the collaborators and the looks at their attributes,
    each with the type of its value. The attributes of the [tensorboard]
    module are an integer, a boolean, and [None] or a string. *)
Inductive extcall : Type -> Type :=
  | hopshdfs_get_experiments_dir : extcall str
  | util_find_spark : extcall (option obj)
  | attr_sparkContext (spark : option obj) : extcall (option obj)
  | str_applicationId (sc : option obj) : extcall str
  | util_version_resources (versioned_resources : option obj) (logdir : str)
      : extcall (option obj)
  | util_populate_experiment (sc name : option obj) (kind fn logdir : str)
      (args : option obj) (versioned_path description : option obj) : extcall (option obj)
  | hopshdfs_project_name : extcall (option obj)
  | util_put_elastic (project : option obj) (app_id : option str) (elastic_id : Z)
      (experiment_json : option obj) : extcall unit
  | hopshdfs_create_directories (app_id : option str) (run_id : Z) (param : option obj)
      (sub_type : str) : extcall (option obj * option obj)
  | os_environ (key : str) : extcall str
  | hopshdfs_project_user : extcall (option obj)
  | pydoop_hdfs_dump (data : str) (path : str) (user : option obj) : extcall unit
  | hopshdfs_init_logger : extcall unit
  | tensorboard_register (hdfs_exec_logdir hdfs_appid_logdir : option obj) (executor_num : Z)
      (local_logdir : option obj) : extcall (option obj * option obj)
  | bool_of (value : obj) : extcall bool
  | str_of (value : obj) : extcall str
  | util_finalize_experiment (experiment_json param : option obj) (metric : option str)
      : extcall (option obj)
  | hopshdfs_get : extcall (option obj)
  | tensorboard_tb_pid : extcall Z
  | subprocess_Popen (args : list str) : extcall unit
  | tensorboard_local_logdir_bool : extcall bool
  | tensorboard_local_logdir_path : extcall (option obj)
  | tensorboard_events_logdir : extcall (option obj)
  | util_store_local_tensorboard (local_tb events_logdir : option obj) : extcall unit
  | tensorboard_endpoint : extcall (option str)
  | handle_exists (handle : option obj) (path : option str) : extcall bool
  | handle_delete (handle : option obj) (path : option str) : extcall unit
  | hopshdfs_kill_logger : extcall unit
  | json_loads (s : obj) : extcall (option obj)
  | setitem_str (d : option obj) (key value : str) : extcall unit
  | datetime_now_isoformat : extcall (option obj)
  | setitem (d : option obj) (key : str) (value : option obj) : extcall unit
  | json_dumps (d : option obj) : extcall (option obj).

End ExperimentState.

Arguments globals : clear implicits.
Arguments extcall : clear implicits.

(** The exceptions that reach the caller: the [RuntimeError] of the
    module, or what a collaborator raised. *)
Inductive py_exn (ext_exn : Type) :=
  | RuntimeError (msg : str)
  | Raised (e : ext_exn).

Arguments RuntimeError {ext_exn} msg.
Arguments Raised {ext_exn} e.

(** A statement runs on the globals and the state of the
    collaborators. *)
Definition stmt (obj ext ext_exn : Type) (A : Type) : Type :=
  globals obj * ext -> (py_exn ext_exn + A) * (globals obj * ext).

Section Experiment.

Context {obj ext ext_exn : Type}.

(** The oracle. *)
Variable perform : forall A : Type, extcall obj A -> ext -> (ext_exn + A) * ext.

Local Abbreviation X := (stmt obj ext ext_exn).

Definition xret {A} (a : A) : X A := fun s => (inr a, s).

Definition xraise {A} (e : py_exn ext_exn) : X A := fun s => (inl e, s).

Definition xbind {A B} (m : X A) (f : A -> X B) : X B :=
  fun s =>
    match m s with
    | (inl e, s') => (inl e, s')
    | (inr a, s') => f a s'
    end.

Local Notation "x <~ m ;; k" := (xbind m (fun x => k))
  (at level 100, m at next level, right associativity).
Local Notation "m ;;~ k" := (xbind m (fun _ => k))
  (at level 100, right associativity).

(** Reading the globals and assigning to one. *)
Definition xget : X (globals obj) := fun s => (inr (fst s), s).

Definition xset (f : globals obj -> globals obj) : X unit :=
  fun s => (inr tt, (f (fst s), snd s)).

(** A call to a collaborator. *)
Definition call {A} (c : extcall obj A) : X A :=
  fun s =>
    match perform A c (snd s) with
    | (inl e, x) => (inl (Raised e), (fst s, x))
    | (inr a, x) => (inr a, (fst s, x))
    end.

(** [try: body] with [except: handler; raise]: the exception is raised
    again after the handler, and an exception of the handler takes its
    place. *)
Definition try_except {A} (body : X A) (handler : X unit) : X A :=
  fun s =>
    match body s with
    | (inr a, s1) => (inr a, s1)
    | (inl e, s1) =>
        match handler s1 with
        | (inr _, s2) => (inl e, s2)
        | (inl e', s2) => (inl e', s2)
        end
    end.

(** [try: body] with [finally: finalizer]: the finalizer runs in every
    case, and an exception of the finalizer takes the place of the
    outcome of the body. *)
Definition try_finally {A} (body : X A) (finalizer : X unit) : X A :=
  fun s =>
    match body s with
    | (r, s1) =>
        match finalizer s1 with
        | (inr _, s2) => (r, s2)
        | (inl e', s2) => (inl e', s2)
        end
    end.

(** [if v:] and [str(v)] for a value that may be [None]. *)
Definition truth (v : option obj) : X bool :=
  match v with
  | None => xret false
  | Some o => call (bool_of o)
  end.

Definition py_str (v : option obj) : X str :=
  match v with
  | None => xret ("None" : str)
  | Some o => call (str_of o)
  end.

(** [get_logdir(app_id)], for the string that [app_id] is when it is
    called. *)
Definition get_logdir (app_id : str) : X str :=
  d <~ call hopshdfs_get_experiments_dir ;;
  g <~ xget ;;
  xret (d ++ "/" ++ app_id ++ "/begin/run." ++ str_of_Z (run_id g)).

(** [util.put_elastic(hopshdfs.project_name(), app_id, elastic_id,
    experiment_json)] *)
Definition put_elastic : X unit :=
  project <~ call hopshdfs_project_name ;;
  g <~ xget ;;
  call (util_put_elastic project (app_id g) (elastic_id g) (experiment_json g)).

(** The body of [exception_handler] and of [exit_handler], which differ
    in the status they set. *)
Definition set_status (status : str) : X unit :=
  g <~ xget ;;
  match running g, experiment_json g with
  | true, Some json =>
      loaded <~ call (json_loads json) ;;
      xset (set_experiment_json loaded) ;;~
      call (setitem_str loaded "status" status) ;;~
      now <~ call datetime_now_isoformat ;;
      call (setitem loaded "finished" now) ;;~
      dumped <~ call (json_dumps loaded) ;;
      xset (set_experiment_json dumped) ;;~
      put_elastic
  | _, _ => xret tt
  end.

Definition exception_handler : X unit := set_status "FAILED".

Definition exit_handler : X unit := set_status "KILLED".

(** The [try] block of [begin]. *)
Definition begin_body (name local_logdir versioned_resources description : option obj)
    : X unit :=
  xset (set_running true) ;;~
  spark <~ call util_find_spark ;;
  sc <~ call (attr_sparkContext spark) ;;
  app <~ call (str_applicationId sc) ;;
  xset (set_app_id (Some app)) ;;~
  g <~ xget ;;
  xset (set_run_id (run_id g + 1)) ;;~
  logdir <~ get_logdir app ;;
  versioned_path <~ call (util_version_resources versioned_resources logdir) ;;
  xset (set_experiment_json None) ;;~
  logdir <~ get_logdir app ;;
  json <~ call (util_populate_experiment sc name "experiment" "begin" logdir None
                  versioned_path description) ;;
  xset (set_experiment_json json) ;;~
  logdir <~ get_logdir app ;;
  call (util_version_resources versioned_resources logdir) ;;~
  put_elastic ;;~
  g <~ xget ;;
  dirs <~ call (hopshdfs_create_directories (app_id g) (run_id g) None "begin") ;;
  logfile <~ call (os_environ "EXEC_LOGFILE") ;;
  user <~ call hopshdfs_project_user ;;
  call (pydoop_hdfs_dump "" logfile user) ;;~
  call hopshdfs_init_logger ;;~
  registered <~ call (tensorboard_register (fst dirs) (snd dirs) 0 local_logdir) ;;
  xset (set_driver_tensorboard_hdfs_path (fst registered)).

Definition begin (name local_logdir versioned_resources description : option obj)
    : X unit :=
  g <~ xget ;;
  if running g then
    xraise (RuntimeError
      "An experiment is currently running. Please call experiment.stop() to stop it.")
  else
    try_except (begin_body name local_logdir versioned_resources description)
               exception_handler.

(** The [try] block of [end]. *)
Definition end_body (metric : option obj) : X unit :=
  given <~ truth metric ;;
  if given then
    g <~ xget ;;
    text <~ py_str metric ;;
    json <~ call (util_finalize_experiment (experiment_json g) None (Some text)) ;;
    xset (set_experiment_json json) ;;~
    put_elastic
  else
    g <~ xget ;;
    json <~ call (util_finalize_experiment (experiment_json g) None None) ;;
    xset (set_experiment_json json) ;;~
    put_elastic.

Definition is_None {A} (v : option A) : bool :=
  match v with
  | None => true
  | Some _ => false
  end.

Definition is_empty_str (v : option str) : bool :=
  match v with
  | Some [] => true
  | _ => false
  end.

(** The [finally] block of [end]. *)
Definition end_finally : X unit :=
  g <~ xget ;;
  xset (set_elastic_id (elastic_id g + 1)) ;;~
  xset (set_running false) ;;~
  handle <~ call hopshdfs_get ;;
  pid <~ call tensorboard_tb_pid ;;
  (if negb (pid =? 0)%Z then
     pid <~ call tensorboard_tb_pid ;;
     call (subprocess_Popen [("kill" : str); str_of_Z pid])
   else xret tt) ;;~
  local_logdir_bool <~ call tensorboard_local_logdir_bool ;;
  (if local_logdir_bool then
     local_tb <~ call tensorboard_local_logdir_path ;;
     events_logdir <~ call tensorboard_events_logdir ;;
     call (util_store_local_tensorboard local_tb events_logdir)
   else xret tt) ;;~
  endpoint <~ call tensorboard_endpoint ;;
  there <~ (if negb (is_None endpoint) then
              endpoint <~ call tensorboard_endpoint ;;
              if negb (is_empty_str endpoint) then
                endpoint <~ call tensorboard_endpoint ;;
                call (handle_exists handle endpoint)
              else xret false
            else xret false) ;;
  (if there then
     endpoint <~ call tensorboard_endpoint ;;
     call (handle_delete handle endpoint)
   else xret tt) ;;~
  call hopshdfs_kill_logger.

(** [end(metric)]; [end] is a keyword of Rocq. *)
Definition end_ (metric : option obj) : X unit :=
  g <~ xget ;;
  if negb (running g) then
    xraise (RuntimeError
      "An experiment is not running. Did you forget to call experiment.end()?")
  else
    try_finally (try_except (end_body metric) exception_handler) end_finally.

End Experiment.

Arguments xret {obj ext ext_exn A} a.
Arguments xraise {obj ext ext_exn A} e.
Arguments xbind {obj ext ext_exn A B} m f.
Arguments xget {obj ext ext_exn}.
Arguments xset {obj ext ext_exn} f.
Arguments try_except {obj ext ext_exn A} body handler.
Arguments try_finally {obj ext ext_exn A} body finalizer.

(** ** Notions for the properties of [hops/experiment.py] *)

Section ExperimentNotions.

Context {obj ext ext_exn : Type}.

(** [wp m Q s]: run from [s], the statement [m] ends, with a value or
    an exception, in an outcome and a state that satisfy [Q]. *)
Definition wp {A} (m : stmt obj ext ext_exn A)
    (Q : py_exn ext_exn + A -> globals obj * ext -> Prop) (s : globals obj * ext) : Prop :=
  Q (fst (m s)) (snd (m s)).

(** The globals other than [experiment_json]. *)
Definition session (g : globals obj) : Z * option str * bool * option obj * Z :=
  (elastic_id g, app_id g, running g, driver_tensorboard_hdfs_path g, run_id g).

End ExperimentNotions.

(** ** An example session

    The objects are texts, the state of the collaborators is the number
    of calls they have answered, and every call is answered with a value
    that does not depend on the state. *)

Definition example_answer (A : Type) (c : extcall str A) : A :=
  match c in extcall _ A return A with
  | hopshdfs_get_experiments_dir => ("/Projects/demo/Experiments" : str)
  | util_find_spark => Some ("spark" : str)
  | attr_sparkContext _ => Some ("sc" : str)
  | str_applicationId _ => ("application_1_0001" : str)
  | util_version_resources _ _ => None
  | util_populate_experiment _ _ _ _ _ _ _ _ => Some ("{'status': 'RUNNING'}" : str)
  | hopshdfs_project_name => Some ("demo" : str)
  | util_put_elastic _ _ _ _ => tt
  | hopshdfs_create_directories _ _ _ _ => (Some ("exec" : str), Some ("appid" : str))
  | os_environ _ => ("/Projects/demo/Logs/exec.log" : str)
  | hopshdfs_project_user => Some ("demo__user" : str)
  | pydoop_hdfs_dump _ _ _ => tt
  | hopshdfs_init_logger => tt
  | tensorboard_register _ _ _ _ => (Some ("tensorboard" : str), None)
  | bool_of _ => true
  | str_of v => v
  | util_finalize_experiment _ _ _ => Some ("{'status': 'FINISHED'}" : str)
  | hopshdfs_get => Some ("hdfs" : str)
  | tensorboard_tb_pid => 4711%Z
  | subprocess_Popen _ => tt
  | tensorboard_local_logdir_bool => false
  | tensorboard_local_logdir_path => None
  | tensorboard_events_logdir => None
  | util_store_local_tensorboard _ _ => tt
  | tensorboard_endpoint => Some ("/Projects/demo/Logs/tensorboard.endpoint" : str)
  | handle_exists _ _ => true
  | handle_delete _ _ => tt
  | hopshdfs_kill_logger => tt
  | json_loads _ => Some ("dict" : str)
  | setitem_str _ _ _ => tt
  | datetime_now_isoformat => Some ("2018-06-01T12:00:00" : str)
  | setitem _ _ _ => tt
  | json_dumps _ => Some ("{'status': 'FAILED'}" : str)
  end.

Definition example_perform (A : Type) (c : extcall str A) (calls : nat)
    : (str + A) * nat :=
  (inr (example_answer A c), S calls).

(** Collaborators of which the search index cannot be reached: the
    index is asked by [util.put_elastic]. *)
Definition offline_perform (A : Type) (c : extcall str A) (calls : nat)
    : (str + A) * nat :=
  match c with
  | util_put_elastic _ _ _ _ => (inl ("ConnectionError" : str), S calls)
  | _ => (inr (example_answer A c), S calls)
  end.

(** A running experiment. *)
Definition example_running : globals str := {|
  elastic_id := 1;
  app_id := Some ("application_1_0001" : str);
  experiment_json := Some ("{'status': 'RUNNING'}" : str);
  running := true;
  driver_tensorboard_hdfs_path := Some ("tensorboard" : str);
  run_id := 1
|}.
(** * Properties *)

(** ** Base64 *)

Lemma all_bytes_complete (b : byte) : In b all_bytes.
Proof.
  assert (H : existsb (Byte.eqb b) all_bytes = true)
    by (destruct b; vm_compute; reflexivity).
  apply existsb_exists in H. destruct H as [b' [Hin Heq]].
  apply Byte.byte_dec_bl in Heq. now subst.
Qed.

Lemma byte_forall (P : byte -> bool) :
  forallb P all_bytes = true -> forall b, P b = true.
Proof.
  intros H b. rewrite forallb_forall in H. apply H, all_bytes_complete.
Qed.

Lemma byte_forall2 (P : byte -> byte -> bool) :
  forallb (fun a => forallb (P a) all_bytes) all_bytes = true ->
  forall a b, P a b = true.
Proof.
  intros H a b.
  pose proof (byte_forall _ H a) as Ha. cbv beta in Ha.
  exact (byte_forall _ Ha b).
Qed.

Lemma sextets_complete (n : N) : (n < 64)%N -> In n sextets.
Proof.
  intros H. unfold sextets. apply in_map_iff.
  exists (N.to_nat n). split; [apply N2Nat.id |].
  apply in_seq. lia.
Qed.

Lemma sextet_forall (P : N -> bool) :
  forallb P sextets = true -> forall n, (n < 64)%N -> P n = true.
Proof.
  intros H n Hn. rewrite forallb_forall in H. apply H, sextets_complete, Hn.
Qed.

(** The two tables are inverse to each other on the sixty-four values,
    and no alphabet character is the pad. *)
Lemma table_a2b_b2a (n : N) :
  (n < 64)%N -> table_a2b_base64 (b2a n) = Some n /\ Ascii.eqb (b2a n) BASE64_PAD = false.
Proof.
  intros Hn.
  pose proof (sextet_forall
    (fun n => bool_decide (table_a2b_base64 (b2a n) = Some n)
              && negb (Ascii.eqb (b2a n) BASE64_PAD))) as H.
  specialize (H ltac:(vm_compute; reflexivity) n Hn).
  apply andb_prop in H. destruct H as [H1 H2].
  apply bool_decide_eq_true in H1. apply negb_true_iff in H2. auto.
Qed.

(** The bit arithmetic of one group: the four values are below
    sixty-four, and the shifts of the decoder give the three bytes
    back. *)

Lemma sextet_bounds (a b : byte) :
  let x := Byte.to_N a in
  let y := Byte.to_N b in
  (sx0 x < 64 /\ sx1 x y < 64 /\ sx2 x y < 64 /\ sx3 x < 64
   /\ N.shiftl (N.land x 3) 4 < 64 /\ N.shiftl (N.land x 15) 2 < 64)%N.
Proof.
  pose proof (byte_forall2 (fun a b =>
    let x := Byte.to_N a in
    let y := Byte.to_N b in
    (sx0 x <? 64)%N && (sx1 x y <? 64)%N && (sx2 x y <? 64)%N && (sx3 x <? 64)%N
    && (N.shiftl (N.land x 3) 4 <? 64)%N && (N.shiftl (N.land x 15) 2 <? 64)%N)) as H.
  specialize (H ltac:(vm_compute; reflexivity) a b). cbv zeta in *.
  repeat (apply andb_prop in H; destruct H as [H ?]).
  repeat match goal with h : (_ <? _)%N = true |- _ => apply N.ltb_lt in h end.
  auto 10.
Qed.

Lemma decode_first (a b : byte) :
  let x := Byte.to_N a in
  let y := Byte.to_N b in
  byte_of_N (N.lor (N.shiftl (sx0 x) 2) (N.shiftr (sx1 x y) 4)) = a
  /\ byte_of_N (N.lor (N.shiftl (sx0 x) 2) (N.shiftr (N.shiftl (N.land x 3) 4) 4)) = a.
Proof.
  pose proof (byte_forall2 (fun a b =>
    let x := Byte.to_N a in
    let y := Byte.to_N b in
    Byte.eqb (byte_of_N (N.lor (N.shiftl (sx0 x) 2) (N.shiftr (sx1 x y) 4))) a
    && Byte.eqb (byte_of_N (N.lor (N.shiftl (sx0 x) 2)
                   (N.shiftr (N.shiftl (N.land x 3) 4) 4))) a)) as H.
  specialize (H ltac:(vm_compute; reflexivity) a b). cbv zeta in *.
  apply andb_prop in H. destruct H as [H1 H2].
  split; now apply Byte.byte_dec_bl.
Qed.

Lemma decode_second (a b c : byte) :
  let x := Byte.to_N a in
  let y := Byte.to_N b in
  let z := Byte.to_N c in
  byte_of_N (N.lor (N.shiftl (N.land (sx1 x y) 15) 4) (N.shiftr (sx2 y z) 2)) = b
  /\ byte_of_N (N.lor (N.shiftl (N.land (sx1 x y) 15) 4)
       (N.shiftr (N.shiftl (N.land y 15) 2) 2)) = b.
Proof.
  cbv zeta.
  assert (Hx : N.land (sx1 (Byte.to_N a) (Byte.to_N b)) 15 = N.shiftr (Byte.to_N b) 4).
  { pose proof (byte_forall2 (fun a b =>
      (N.land (sx1 (Byte.to_N a) (Byte.to_N b)) 15 =? N.shiftr (Byte.to_N b) 4)%N)) as H.
    specialize (H ltac:(vm_compute; reflexivity) a b). now apply N.eqb_eq in H. }
  rewrite Hx.
  pose proof (byte_forall2 (fun b c =>
    let y := Byte.to_N b in
    let z := Byte.to_N c in
    Byte.eqb (byte_of_N (N.lor (N.shiftl (N.shiftr y 4) 4) (N.shiftr (sx2 y z) 2))) b
    && Byte.eqb (byte_of_N (N.lor (N.shiftl (N.shiftr y 4) 4)
                   (N.shiftr (N.shiftl (N.land y 15) 2) 2))) b)) as H.
  specialize (H ltac:(vm_compute; reflexivity) b c). cbv zeta in *.
  apply andb_prop in H. destruct H as [H1 H2].
  split; now apply Byte.byte_dec_bl.
Qed.

Lemma decode_third (b c : byte) :
  let y := Byte.to_N b in
  let z := Byte.to_N c in
  byte_of_N (N.lor (N.shiftl (N.land (sx2 y z) 3) 6) (sx3 z)) = c.
Proof.
  pose proof (byte_forall2 (fun b c =>
    let y := Byte.to_N b in
    let z := Byte.to_N c in
    Byte.eqb (byte_of_N (N.lor (N.shiftl (N.land (sx2 y z) 3) 6) (sx3 z))) c)) as H.
  specialize (H ltac:(vm_compute; reflexivity) b c). cbv zeta in *.
  now apply Byte.byte_dec_bl.
Qed.

(** One step of the decoder on an alphabet character. *)
Lemma a2b_base64_value (n : N) (rest : str) (q : nat) (lc : N) (p : nat) (out : bytes) :
  (n < 64)%N ->
  a2b_base64 (b2a n :: rest) q lc p out =
  match q with
  | 0 => a2b_base64 rest 1 n 0 out
  | 1 => a2b_base64 rest 2 (N.land n 15) 0
           (out ++ [byte_of_N (N.lor (N.shiftl lc 2) (N.shiftr n 4))])
  | 2 => a2b_base64 rest 3 (N.land n 3) 0
           (out ++ [byte_of_N (N.lor (N.shiftl lc 4) (N.shiftr n 2))])
  | _ => a2b_base64 rest 0 0 0 (out ++ [byte_of_N (N.lor (N.shiftl lc 6) n)])
  end.
Proof.
  intros Hn. destruct (table_a2b_b2a n Hn) as [Hv Hp].
  cbn [a2b_base64]. rewrite Hp, Hv. reflexivity.
Qed.

Lemma b64encode_group (a b c : byte) (rest : bytes) :
  b64encode (a :: b :: c :: rest) =
  b2a (sx0 (Byte.to_N a)) :: b2a (sx1 (Byte.to_N a) (Byte.to_N b))
  :: b2a (sx2 (Byte.to_N b) (Byte.to_N c)) :: b2a (sx3 (Byte.to_N c))
  :: b64encode rest.
Proof. reflexivity. Qed.

Lemma bytes_ind3 (P : bytes -> Prop) :
  P [] -> (forall a, P [a]) -> (forall a b, P [a; b]) ->
  (forall a b c rest, P rest -> P (a :: b :: c :: rest)) ->
  forall s, P s.
Proof.
  intros H0 H1 H2 H3 s.
  assert (H : forall n (s : bytes), length s <= n -> P s).
  { clear s. induction n as [|n IH]; intros s Hs.
    - destruct s; [exact H0 | simpl in Hs; lia].
    - destruct s as [|a [|b [|c rest]]]; auto.
      apply H3, IH. simpl in Hs. lia. }
  apply (H (length s)). lia.
Qed.

(** Decoding what [b64encode] gives, from the start of a quad. *)
Lemma a2b_base64_b64encode (s : bytes) :
  forall lc p out, a2b_base64 (b64encode s) 0 lc p out = Some (out ++ s).
Proof.
  induction s as [|a|a b|a b c rest IH] using bytes_ind3; intros lc p out.
  - simpl. now rewrite app_nil_r.
  - destruct (sextet_bounds a a) as (B0 & _ & _ & _ & B1 & _).
    destruct (decode_first a a) as [_ D].
    change (b64encode [a]) with
      [b2a (sx0 (Byte.to_N a)); b2a (N.shiftl (N.land (Byte.to_N a) 3) 4);
       BASE64_PAD; BASE64_PAD].
    rewrite (a2b_base64_value _ _ 0) by exact B0.
    rewrite (a2b_base64_value _ _ 1) by exact B1.
    rewrite D. reflexivity.
  - destruct (sextet_bounds a b) as (B0 & B1 & _).
    destruct (sextet_bounds b b) as (_ & _ & _ & _ & _ & B2).
    destruct (decode_first a b) as [D1 _].
    destruct (decode_second a b b) as [_ D2].
    change (b64encode [a; b]) with
      [b2a (sx0 (Byte.to_N a)); b2a (sx1 (Byte.to_N a) (Byte.to_N b));
       b2a (N.shiftl (N.land (Byte.to_N b) 15) 2); BASE64_PAD].
    rewrite (a2b_base64_value _ _ 0) by exact B0.
    rewrite (a2b_base64_value _ _ 1) by exact B1.
    rewrite (a2b_base64_value _ _ 2) by exact B2.
    rewrite D1, D2. cbn [a2b_base64]. simpl.
    now rewrite <- app_assoc.
  - destruct (sextet_bounds a b) as (B0 & B1 & _).
    destruct (sextet_bounds b c) as (_ & _ & B2 & _).
    destruct (sextet_bounds c c) as (_ & _ & _ & B3 & _).
    destruct (decode_first a b) as [D1 _].
    destruct (decode_second a b c) as [D2 _].
    pose proof (decode_third b c) as D3. cbv zeta in D3.
    rewrite b64encode_group.
    rewrite (a2b_base64_value _ _ 0) by exact B0.
    rewrite (a2b_base64_value _ _ 1) by exact B1.
    rewrite (a2b_base64_value _ _ 2) by exact B2.
    rewrite (a2b_base64_value _ _ 3) by exact B3.
    rewrite D1, D2, D3, IH.
    now rewrite <- !app_assoc.
Qed.

Lemma b64decode_b64encode (s : bytes) : b64decode (b64encode s) = Some s.
Proof. unfold b64decode. now rewrite a2b_base64_b64encode. Qed.

(** ** [textwrap.wrap] on Base64 text *)

Lemma b2a_plain (n : N) : plain_char (b2a n) = true.
Proof.
  unfold b2a.
  destruct (nth_in_or_default (N.to_nat n) table_b2a_base64 BASE64_PAD) as [Hin | ->];
    [| reflexivity].
  revert Hin. generalize (nth (N.to_nat n) table_b2a_base64 BASE64_PAD). intros c Hin.
  assert (H : forallb plain_char table_b2a_base64 = true) by (vm_compute; reflexivity).
  rewrite forallb_forall in H. now apply H.
Qed.

(** Base64 text holds no whitespace and no hyphen: [_split] leaves it
    in one piece. *)
Lemma b64encode_plain (s : bytes) : forallb plain_char (b64encode s) = true.
Proof.
  induction s as [|a|a b|a b c rest IH] using bytes_ind3.
  - reflexivity.
  - cbn [b64encode forallb]. now rewrite !b2a_plain.
  - cbn [b64encode forallb]. now rewrite !b2a_plain.
  - rewrite b64encode_group. cbn [forallb]. now rewrite !b2a_plain, IH.
Qed.

Lemma plain_not_blank (s : str) :
  s <> [] -> forallb plain_char s = true -> is_blank s = false.
Proof.
  destruct s as [|c s]; [congruence |]. intros _ H.
  cbn [forallb] in H. apply andb_prop in H. destruct H as [Hc _].
  unfold plain_char in Hc. apply andb_prop in Hc. destruct Hc as [Hc _].
  apply negb_true_iff in Hc. unfold is_blank. cbn [forallb]. now rewrite Hc.
Qed.

Lemma plain_rfind_hyphen (s : str) :
  forallb plain_char s = true ->
  forall stop i, rfind_hyphen s stop i None = None.
Proof.
  induction s as [|c s IH]; intros H stop i.
  - destruct stop; reflexivity.
  - cbn [forallb] in H. apply andb_prop in H. destruct H as [Hc Hs].
    unfold plain_char in Hc. apply andb_prop in Hc. destruct Hc as [_ Hc].
    apply negb_true_iff in Hc.
    destruct stop; [reflexivity |]. cbn [rfind_hyphen]. rewrite Hc. now apply IH.
Qed.

Lemma plain_skipn (n : nat) (s : str) :
  forallb plain_char s = true -> forallb plain_char (skipn n s) = true.
Proof.
  intros H. rewrite forallb_forall in *. intros c Hc. apply H.
  rewrite <- (firstn_skipn n s). apply in_or_app. now right.
Qed.

Lemma plain_firstn (n : nat) (s : str) :
  forallb plain_char s = true -> forallb plain_char (firstn n s) = true.
Proof.
  intros H. rewrite forallb_forall in *. intros c Hc. apply H.
  rewrite <- (firstn_skipn n s). apply in_or_app. now left.
Qed.

(** A round of [_wrap_chunks] on a single chunk that fits the line. *)
Lemma _wrap_chunks_short (fuel width : nat) (s : str) (lines : list str) :
  s <> [] -> forallb plain_char s = true -> length s <= width ->
  _wrap_chunks (S fuel) width [s] lines = Some (lines ++ [s]).
Proof.
  intros Hne Hp Hlen.
  cbn [_wrap_chunks]. rewrite (plain_not_blank s Hne Hp). cbn [andb fill_line].
  replace (0 + length s <=? width) with true by (symmetry; apply Nat.leb_le; lia).
  cbn [app last]. rewrite (plain_not_blank s Hne Hp). cbn [is_nil concat].
  rewrite app_nil_r. destruct fuel; reflexivity.
Qed.

(** A round on a single chunk that is longer than the line: the line
    takes [width] characters and the rest stays on the stack. *)
Lemma _wrap_chunks_long (fuel width : nat) (s : str) (lines : list str) :
  forallb plain_char s = true -> 1 <= width -> width < length s ->
  _wrap_chunks (S fuel) width [s] lines =
  _wrap_chunks fuel width [skipn width s] (lines ++ [firstn width s]).
Proof.
  intros Hp Hw Hlen.
  assert (Hne : s <> []) by (intros ->; simpl in Hlen; lia).
  assert (Hf : firstn width s <> []).
  { intros E. apply (f_equal (@length ascii)) in E.
    rewrite length_firstn in E. simpl in E. lia. }
  cbn [_wrap_chunks]. rewrite (plain_not_blank s Hne Hp). cbn [andb fill_line].
  replace (0 + length s <=? width) with false by (symmetry; apply Nat.leb_gt; lia).
  replace (width <? length s) with true by (symmetry; apply Nat.ltb_lt; lia).
  unfold _handle_long_word.
  replace (width <? 1) with false by (symmetry; apply Nat.ltb_ge; lia).
  rewrite Nat.sub_0_r.
  replace (width <? length s) with true by (symmetry; apply Nat.ltb_lt; lia).
  rewrite (plain_rfind_hyphen s Hp). cbn [app last].
  rewrite (plain_not_blank _ Hf (plain_firstn width s Hp)).
  cbn [is_nil concat]. rewrite app_nil_r. reflexivity.
Qed.

Lemma wrapped_shape_cons (width : nat) (l : str) (ls : list str) :
  ls <> [] -> length l = width -> wrapped_shape width ls -> wrapped_shape width (l :: ls).
Proof. destruct ls; [congruence |]. intros _ H1 H2. split; assumption. Qed.

(** The whole loop on a single chunk of plain text: enough fuel, and
    lines of the hard-wrapped shape that add up to the text. *)
Lemma _wrap_chunks_plain (width : nat) :
  1 <= width ->
  forall n (s : str) fuel lines,
    length s <= n -> s <> [] -> forallb plain_char s = true -> length s <= fuel ->
    exists ls, _wrap_chunks fuel width [s] lines = Some (lines ++ ls)
               /\ ls <> [] /\ concat ls = s /\ wrapped_shape width ls.
Proof.
  intros Hw. induction n as [|n IH]; intros s fuel lines Hn Hne Hp Hfuel.
  - destruct s; [congruence | simpl in Hn; lia].
  - destruct fuel as [|fuel].
    { destruct s; [congruence | simpl in Hfuel; lia]. }
    destruct (le_lt_dec (length s) width) as [Hshort | Hlong].
    + exists [s]. rewrite _wrap_chunks_short by assumption.
      split; [reflexivity |]. split; [congruence |]. split.
      * simpl. now rewrite app_nil_r.
      * simpl. split; [| assumption]. destruct s; [congruence | simpl; lia].
    + rewrite _wrap_chunks_long by assumption.
      assert (Hlen : length (skipn width s) = length s - width) by apply length_skipn.
      destruct (IH (skipn width s) fuel (lines ++ [firstn width s])) as (ls & E & Hls & Hc & Hs).
      * lia.
      * intros E. rewrite E in Hlen. simpl in Hlen. lia.
      * now apply plain_skipn.
      * lia.
      * exists (firstn width s :: ls). rewrite E, <- app_assoc.
        split; [reflexivity |]. split; [congruence |]. split.
        -- cbn [concat]. rewrite Hc. apply firstn_skipn.
        -- apply wrapped_shape_cons; [assumption | | assumption].
           rewrite length_firstn. lia.
Qed.

(** [wrap] on plain text: the fuel is enough, the lines add up to the
    text and have the hard-wrapped shape. *)
Lemma wrap_plain (text : str) (width : nat) :
  1 <= width -> forallb plain_char text = true ->
  _wrap_chunks (length text) width (_split text) [] = Some (wrap text width)
  /\ concat (wrap text width) = text
  /\ wrapped_shape width (wrap text width).
Proof.
  intros Hw Hp. unfold wrap. destruct text as [|c text].
  - simpl. auto.
  - cbn [_split].
    destruct (_wrap_chunks_plain width Hw (length (c :: text)) (c :: text)
                (length (c :: text)) []) as (ls & E & _ & Hc & Hs);
      [lia | congruence | assumption | lia |].
    rewrite E. simpl app. auto.
Qed.

(** ** The text of a block *)

Lemma bytes_to_pem_str_layout (der_bytes : bytes) (pem_type : str) :
  bytes_to_pem_str der_bytes pem_type =
  (begin_marker pem_type ++ [LF])
  ++ (join [CR; LF] (wrap (b64encode der_bytes) 64) ++ [LF])
  ++ (end_marker pem_type ++ [LF]).
Proof.
  unfold bytes_to_pem_str, begin_marker, end_marker.
  cbn [list_ascii_of_string]. rewrite app_nil_l, <- !app_assoc. reflexivity.
Qed.

Lemma strip_prefix_app (p s : str) : strip_prefix p (p ++ s) = Some s.
Proof.
  induction p as [|a p IH]; [reflexivity |].
  cbn [strip_prefix app]. now rewrite Ascii.eqb_refl.
Qed.

Lemma strip_suffix_app (p s : str) : strip_suffix p (s ++ p) = Some s.
Proof.
  unfold strip_suffix. rewrite rev_app_distr, strip_prefix_app.
  now rewrite rev_involutive.
Qed.

Lemma pem_body_bytes_to_pem_str (der_bytes : bytes) (pem_type : str) :
  pem_body pem_type (bytes_to_pem_str der_bytes pem_type) =
  Some (join [CR; LF] (wrap (b64encode der_bytes) 64) ++ [LF]).
Proof.
  unfold pem_body. rewrite bytes_to_pem_str_layout, strip_prefix_app.
  apply strip_suffix_app.
Qed.

Lemma strip_line_terminators_app (s t : str) :
  strip_line_terminators (s ++ t) = strip_line_terminators s ++ strip_line_terminators t.
Proof. apply List.filter_app. Qed.

Lemma strip_line_terminators_join (lines : list str) :
  strip_line_terminators (join [CR; LF] lines) = strip_line_terminators (concat lines).
Proof.
  induction lines as [|l [|l' lines] IH].
  - reflexivity.
  - simpl. now rewrite app_nil_r.
  - change (join [CR; LF] (l :: l' :: lines))
      with (l ++ [CR; LF] ++ join [CR; LF] (l' :: lines)).
    change (concat (l :: l' :: lines)) with (l ++ concat (l' :: lines)).
    rewrite !strip_line_terminators_app, IH. reflexivity.
Qed.

Lemma strip_line_terminators_plain (s : str) :
  forallb plain_char s = true -> strip_line_terminators s = s.
Proof.
  induction s as [|c s IH]; [reflexivity |]. intros H.
  cbn [forallb] in H. apply andb_prop in H. destruct H as [Hc Hs].
  unfold strip_line_terminators in *. cbn [List.filter].
  assert (E : negb (Ascii.eqb c CR || Ascii.eqb c LF) = true).
  { unfold plain_char in Hc. apply andb_prop in Hc. destruct Hc as [Hc _].
    apply negb_true_iff in Hc. apply negb_true_iff.
    unfold char_in, _whitespace in Hc. cbn [existsb] in Hc.
    repeat (apply orb_false_elim in Hc; destruct Hc as [? Hc]).
    apply orb_false_intro; assumption. }
  rewrite E. f_equal. now apply IH.
Qed.

(** The Base64 text of a block is the encoding of its bytes. *)
Lemma pem_base64_bytes_to_pem_str (der_bytes : bytes) (pem_type : str) :
  pem_base64 pem_type (bytes_to_pem_str der_bytes pem_type) = Some (b64encode der_bytes).
Proof.
  unfold pem_base64. rewrite pem_body_bytes_to_pem_str. f_equal.
  destruct (wrap_plain (b64encode der_bytes) 64) as (_ & Hc & _);
    [lia | apply b64encode_plain |].
  rewrite strip_line_terminators_app, strip_line_terminators_join, Hc.
  rewrite strip_line_terminators_plain by apply b64encode_plain.
  apply app_nil_r.
Qed.

Lemma pem_decode_bytes_to_pem_str (der_bytes : bytes) (pem_type : str) :
  pem_decode pem_type (bytes_to_pem_str der_bytes pem_type) = Some der_bytes.
Proof.
  unfold pem_decode. rewrite pem_base64_bytes_to_pem_str.
  apply b64decode_b64encode.
Qed.

(** ** The text of a keystore *)

Lemma fold_left_app_acc {A} (f : A -> str) (l : list A) (acc : str) :
  fold_left (fun pem_str x => pem_str ++ f x) l acc = acc ++ concat (map f l).
Proof.
  revert acc. induction l as [|x l IH]; intros acc.
  - simpl. now rewrite app_nil_r.
  - cbn [fold_left map concat]. rewrite IH. now rewrite <- app_assoc.
Qed.

Lemma private_key_to_pem_blocks (pem_str : str) (item : str * PrivateKeyEntry) :
  private_key_to_pem pem_str item = pem_str ++ blocks_to_pem (entry_blocks (snd item)).
Proof.
  unfold private_key_to_pem, entry_blocks, blocks_to_pem, key_block.
  rewrite fold_left_app_acc. cbn [map concat]. rewrite map_map. cbn [fst snd].
  destruct (bool_decide (algorithm_oid (snd item) = RSA_ENCRYPTION_OID));
    cbn [fst snd]; now rewrite <- app_assoc.
Qed.

Lemma blocks_to_pem_app (b1 b2 : list (str * bytes)) :
  blocks_to_pem (b1 ++ b2) = blocks_to_pem b1 ++ blocks_to_pem b2.
Proof. unfold blocks_to_pem. now rewrite map_app, concat_app. Qed.

Lemma fold_left_private_key_to_pem (items : list (str * PrivateKeyEntry)) (acc : str) :
  fold_left private_key_to_pem items acc =
  acc ++ blocks_to_pem (flat_map (fun item => entry_blocks (snd item)) items).
Proof.
  revert acc. induction items as [|item items IH]; intros acc.
  - simpl. now rewrite app_nil_r.
  - cbn [fold_left flat_map]. rewrite IH, private_key_to_pem_blocks.
    now rewrite blocks_to_pem_app, <- app_assoc.
Qed.

(** The two loops build the text of the blocks of the keystore. *)
Lemma keystore_to_pem_blocks (ks : KeyStore) :
  keystore_to_pem ks = blocks_to_pem (keystore_blocks ks).
Proof.
  unfold keystore_to_pem, keystore_blocks, trusted_cert_to_pem.
  rewrite fold_left_app_acc, fold_left_private_key_to_pem.
  cbn [list_ascii_of_string app]. rewrite blocks_to_pem_app.
  unfold blocks_to_pem at 3. now rewrite map_map.
Qed.

(** ** The effects of the calls *)

Lemma join_chars (s : str) : join [] (map (fun x => [x]) s) = s.
Proof.
  induction s as [|c [|c' s] IH]; [reflexivity | reflexivity |].
  change (join [] (map (fun x => [x]) (c :: c' :: s)))
    with ([c] ++ [] ++ join [] (map (fun x => [x]) (c' :: s))).
  rewrite IH. reflexivity.
Qed.

Lemma join_chars_of_N (text : list N) :
  join [] (map (fun x => [ascii_of_N x]) text) = map ascii_of_N text.
Proof.
  rewrite <- (join_chars (map ascii_of_N text)). now rewrite map_map.
Qed.

(** [_get_cert_pw], case by case of what is at the path of the password
    file. *)
Lemma _get_cert_pw_run (constants : SSL_CONFIG) (w : world) :
  let pwd_path := in_cwd w (CRYPTO_MATERIAL_PASSWORD constants) in
  _get_cert_pw constants w =
  match fs w !! pwd_path with
  | None =>
      (inl (AssertionError ("material_passwd is not present in directory: " ++ pwd_path)),
       logged [EvExists pwd_path] w)
  | Some Dir =>
      (inl (IOError pwd_path), logged [EvExists pwd_path; EvOpen pwd_path ModeR] w)
  | Some (File content) =>
      (match password_of content with
       | Some pw => inr pw
       | None => inl UnicodeDecodeError
       end,
       logged [EvExists pwd_path; EvOpen pwd_path ModeR; EvRead pwd_path] w)
  end.
Proof.
  cbv zeta. unfold _get_cert_pw, bind, getcwd, path_exists, read_text, raise, ret, in_cwd.
  cbn [fs emit cwd log].
  destruct (fs w !! (cwd w ++ "/" ++ CRYPTO_MATERIAL_PASSWORD constants)) as [[content|]|] eqn:E.
  - rewrite bool_decide_eq_true_2 by eauto. cbn [negb fs emit].
    rewrite E. unfold password_of.
    destruct (utf_8_decode content) as [text|].
    + rewrite join_chars_of_N. unfold logged, emit, kept_by_get_cert_pw. cbn [cwd fs log].
      now rewrite <- !app_assoc.
    + unfold logged, emit. cbn [cwd fs log]. now rewrite <- !app_assoc.
  - rewrite bool_decide_eq_true_2 by eauto. cbn [negb fs emit].
    rewrite E. unfold logged, emit. cbn [cwd fs log]. now rewrite <- !app_assoc.
  - rewrite bool_decide_eq_false_2 by (intros [? ?]; discriminate). reflexivity.
Qed.

(** When [_get_cert_pw] returns a password, the file is there and the
    password is made of its content. *)
Lemma _get_cert_pw_ok_inv (constants : SSL_CONFIG) (w : world) (pw : str) :
  fst (_get_cert_pw constants w) = inr pw ->
  exists content,
    fs w !! in_cwd w (CRYPTO_MATERIAL_PASSWORD constants) = Some (File content)
    /\ password_of content = Some pw.
Proof.
  rewrite _get_cert_pw_run. cbv zeta.
  destruct (fs w !! in_cwd w (CRYPTO_MATERIAL_PASSWORD constants)) as [[content|]|] eqn:E;
    cbn [fst]; try discriminate.
  destruct (password_of content) as [pw'|] eqn:Ep; [| discriminate].
  intros [= ->]. eauto.
Qed.

Lemma _get_cert_pw_ok (constants : SSL_CONFIG) (w : world) (content pw : str) :
  fs w !! in_cwd w (CRYPTO_MATERIAL_PASSWORD constants) = Some (File content) ->
  password_of content = Some pw ->
  fst (_get_cert_pw constants w) = inr pw.
Proof.
  intros Hfile Hpw. rewrite _get_cert_pw_run. cbv zeta. now rewrite Hfile, Hpw.
Qed.

(** [convert_jks_to_pem], case by case. *)
Lemma convert_jks_to_pem_run (loads : str -> str -> exn + KeyStore)
    (jks_path pw : str) (w : world) :
  convert_jks_to_pem loads jks_path pw w =
  match fs w !! jks_path with
  | Some (File data) =>
      match loads data pw with
      | inl e => (inl e, logged [EvLoad jks_path pw] w)
      | inr ks => (inr (keystore_to_pem ks), logged [EvLoad jks_path pw] w)
      end
  | _ => (inl (IOError jks_path), logged [EvLoad jks_path pw] w)
  end.
Proof.
  unfold convert_jks_to_pem, bind, KeyStore_load, ret. cbn [fs emit].
  destruct (fs w !! jks_path) as [[data|]|]; try reflexivity.
  destruct (loads data pw); reflexivity.
Qed.

(** Opening and writing the output file. *)
Lemma open_write_run (output_path pem_str : str) (w : world) :
  (open_w output_path ;;; write output_path pem_str) w =
  match fs w !! output_path with
  | Some Dir => (inl (IOError output_path), logged [EvOpen output_path ModeW] w)
  | _ => (inr tt, written output_path pem_str
                    [EvOpen output_path ModeW; EvWrite output_path pem_str] w)
  end.
Proof.
  unfold bind, open_w, write. cbn [fs emit].
  assert (Hok : (inr tt,
      store output_path (File ([] ++ pem_str))
        (emit (EvWrite output_path pem_str)
           (store output_path (File []) (emit (EvOpen output_path ModeW) w))))
    = (inr tt : exn + unit, written output_path pem_str
                    [EvOpen output_path ModeW; EvWrite output_path pem_str] w)).
  { unfold written, store, emit. cbn [cwd fs log app].
    rewrite insert_insert_eq, <- app_assoc. reflexivity. }
  destruct (fs w !! output_path) as [[content|]|] eqn:E.
  - cbn [fs store emit]. rewrite lookup_insert_eq. exact Hok.
  - reflexivity.
  - cbn [fs store emit]. rewrite lookup_insert_eq. exact Hok.
Qed.

Lemma logged_logged (e1 e2 : list event) (w : world) :
  logged e2 (logged e1 w) = logged (e1 ++ e2) w.
Proof. unfold logged. cbn [cwd fs log]. now rewrite app_assoc. Qed.

Lemma written_logged (path text : str) (e1 e2 : list event) (w : world) :
  written path text e2 (logged e1 w) = written path text (e1 ++ e2) w.
Proof. unfold written, logged. cbn [cwd fs log]. now rewrite app_assoc. Qed.

(** [write_pem], case by case. *)
Lemma write_pem_run (loads : str -> str -> exn + KeyStore)
    (jks_path pw output_path : str) (w : world) :
  write_pem loads jks_path pw output_path w =
  match fs w !! jks_path with
  | Some (File data) =>
      match loads data pw with
      | inl e => (inl e, logged [EvLoad jks_path pw] w)
      | inr ks =>
          match fs w !! output_path with
          | Some Dir =>
              (inl (IOError output_path),
               logged [EvLoad jks_path pw; EvOpen output_path ModeW] w)
          | _ =>
              (inr tt,
               written output_path (keystore_to_pem ks)
                 [EvLoad jks_path pw; EvOpen output_path ModeW;
                  EvWrite output_path (keystore_to_pem ks)] w)
          end
      end
  | _ => (inl (IOError jks_path), logged [EvLoad jks_path pw] w)
  end.
Proof.
  unfold write_pem. unfold bind at 1. rewrite convert_jks_to_pem_run.
  destruct (fs w !! jks_path) as [[data|]|]; try reflexivity.
  destruct (loads data pw) as [e|ks]; [reflexivity |].
  rewrite open_write_run. cbn [fs logged].
  destruct (fs w !! output_path) as [[content|]|];
    now rewrite ?logged_logged, ?written_logged.
Qed.

Section StepFacts.

Variable constants : SSL_CONFIG.
Variable loads : str -> str -> exn + KeyStore.

Local Abbreviation step := (store_step constants loads).

Lemma step_ok_inv (jks_name pem_name : str) (w w1 : world) :
  step jks_name pem_name w = (inr tt, w1) ->
  exists content pw data ks,
    fs w !! in_cwd w (CRYPTO_MATERIAL_PASSWORD constants) = Some (File content)
    /\ password_of content = Some pw
    /\ fs w !! in_cwd w jks_name = Some (File data)
    /\ loads data pw = inr ks
    /\ fs w !! in_cwd w pem_name <> Some Dir
    /\ w1 = written (in_cwd w pem_name) (keystore_to_pem ks)
              (step_events (in_cwd w (CRYPTO_MATERIAL_PASSWORD constants))
                 (in_cwd w jks_name) (in_cwd w pem_name)
                 pw (keystore_to_pem ks)) w.
Proof using Type.
  unfold store_step, bind. rewrite _get_cert_pw_run. cbv zeta.
  destruct (fs w !! in_cwd w (CRYPTO_MATERIAL_PASSWORD constants))
    as [[content|]|] eqn:Epw; try discriminate.
  destruct (password_of content) as [pw|] eqn:Ep; try discriminate.
  rewrite write_pem_run. cbn [fs logged].
  destruct (fs w !! in_cwd w jks_name) as [[data|]|] eqn:Ejks; try discriminate.
  destruct (loads data _) as [e|ks] eqn:El; try discriminate.
  destruct (fs w !! in_cwd w pem_name) as [[old|]|] eqn:Epem; try discriminate;
    rewrite written_logged; intros H; injection H as <-;
    exists content, pw, data, ks; repeat split; auto; congruence.
Qed.

Lemma step_ok (jks_name pem_name : str) (w : world) (content pw data : str)
    (ks : KeyStore) :
  fs w !! in_cwd w (CRYPTO_MATERIAL_PASSWORD constants) = Some (File content) ->
  password_of content = Some pw ->
  fs w !! in_cwd w jks_name = Some (File data) ->
  loads data pw = inr ks ->
  fs w !! in_cwd w pem_name <> Some Dir ->
  step jks_name pem_name w =
  (inr tt, written (in_cwd w pem_name) (keystore_to_pem ks)
              (step_events (in_cwd w (CRYPTO_MATERIAL_PASSWORD constants))
                 (in_cwd w jks_name) (in_cwd w pem_name)
                 pw (keystore_to_pem ks)) w).
Proof using Type.
  intros Epw Ep Ejks El Epem.
  unfold store_step, bind. rewrite _get_cert_pw_run. cbv zeta. rewrite Epw, Ep.
  rewrite write_pem_run. cbn [fs logged]. rewrite Ejks, El.
  destruct (fs w !! in_cwd w pem_name) as [[old|]|]; try congruence;
    now rewrite written_logged.
Qed.

Lemma count_reads_le_1 (p : str) (events : list event) :
  length (List.filter (fun e => match e with EvRead _ => true | _ => false end) events) <= 1 ->
  count_reads p events <= 1.
Proof using Type.
  intros H. unfold count_reads.
  assert (G : forall l : list event,
    length (List.filter (fun e => match e with
                                  | EvRead q => bool_decide (q = p)
                                  | _ => false
                                  end) l)
    <= length (List.filter (fun e => match e with EvRead _ => true | _ => false end) l)).
  { induction l as [|ev l IH]; [reflexivity |].
    cbn [List.filter]. destruct ev; try exact IH.
    destruct (bool_decide (path = p)); cbn [length]; lia. }
  specialize (G events). lia.
Qed.

(** What a step does when the password file is there: it reads it
    once, and when the content gives a password it asks the keystore
    library once, with that password. *)
Lemma step_reads_loads (jks_name pem_name : str) (w : world) (content : str) :
  fs w !! in_cwd w (CRYPTO_MATERIAL_PASSWORD constants) = Some (File content) ->
  exists events,
    log (snd (step jks_name pem_name w)) = log w ++ events
    /\ count_reads (in_cwd w (CRYPTO_MATERIAL_PASSWORD constants)) events = 1
    /\ forall pw, password_of content = Some pw ->
                  loads_of events = [EvLoad (in_cwd w jks_name) pw].
Proof using Type.
  intros Epw. unfold store_step, bind. rewrite _get_cert_pw_run. cbv zeta. rewrite Epw.
  assert (Hr : forall tail : list event,
    count_reads (in_cwd w (CRYPTO_MATERIAL_PASSWORD constants)) tail = 0 ->
    count_reads (in_cwd w (CRYPTO_MATERIAL_PASSWORD constants))
      ([EvExists (in_cwd w (CRYPTO_MATERIAL_PASSWORD constants));
        EvOpen (in_cwd w (CRYPTO_MATERIAL_PASSWORD constants)) ModeR;
        EvRead (in_cwd w (CRYPTO_MATERIAL_PASSWORD constants))] ++ tail) = 1).
  { intros tail Ht. unfold count_reads in *. cbn [app List.filter].
    rewrite bool_decide_eq_true_2 by reflexivity. cbn [length]. now rewrite Ht. }
  destruct (password_of content) as [pw|].
  - rewrite write_pem_run. cbn [fs logged].
    assert (Hpw : forall (P : str -> Prop), P pw -> forall pw', Some pw = Some pw' -> P pw')
      by (intros P HP pw' [= <-]; exact HP).
    destruct (fs w !! in_cwd w jks_name) as [[data|]|].
    + destruct (loads data _) as [e|ks].
      * rewrite logged_logged. eexists. split; [reflexivity |].
        split; [apply Hr; reflexivity | now intros pw' [= <-]].
      * destruct (fs w !! in_cwd w pem_name) as [[old|]|];
          rewrite ?logged_logged, ?written_logged;
          (eexists; split; [reflexivity |];
           split; [apply Hr; reflexivity | now intros pw' [= <-]]).
    + rewrite logged_logged. eexists. split; [reflexivity |].
      split; [apply Hr; reflexivity | now intros pw' [= <-]].
    + rewrite logged_logged. eexists. split; [reflexivity |].
      split; [apply Hr; reflexivity | now intros pw' [= <-]].
  - eexists. split; [reflexivity |].
    split; [apply (Hr []); reflexivity | discriminate].
Qed.

Lemma step_fail_inv (jks_name pem_name : str) (w w1 : world) (e : exn) :
  step jks_name pem_name w = (inl e, w1) ->
  exists events,
    w1 = logged events w /\ count_loads events <= 1
    /\ (forall p, count_reads p events <= 1)
    /\ Forall (fun ev => forall p t, ev <> EvWrite p t) events.
Proof using Type.
  unfold store_step, bind. rewrite _get_cert_pw_run. cbv zeta.
  assert (Hnw : forall evs : list event,
    forallb (fun ev => match ev with EvWrite _ _ => false | _ => true end) evs = true ->
    Forall (fun ev => forall p t, ev <> EvWrite p t) evs).
  { intros evs H. rewrite forallb_forall in H. apply List.Forall_forall.
    intros ev Hin p t ->. specialize (H _ Hin). discriminate. }
  destruct (fs w !! in_cwd w (CRYPTO_MATERIAL_PASSWORD constants))
    as [[content|]|] eqn:Epw.
  - destruct (password_of content) as [pw|].
    + rewrite write_pem_run. cbn [fs logged].
      destruct (fs w !! in_cwd w jks_name) as [[data|]|] eqn:Ejks.
      * destruct (loads data _) as [e'|ks] eqn:El.
        -- rewrite logged_logged. intros H; injection H as <- <-.
           eexists; split; [reflexivity |]; split; [unfold count_loads, loads_of; cbn [List.filter length]; lia |]; split; [intros p; apply count_reads_le_1; cbn [List.filter length]; lia | apply Hnw; reflexivity].
        -- destruct (fs w !! in_cwd w pem_name) as [[old|]|] eqn:Epem; try discriminate.
           rewrite logged_logged. intros H; injection H as <- <-.
           eexists; split; [reflexivity |]; split; [unfold count_loads, loads_of; cbn [List.filter length]; lia |]; split; [intros p; apply count_reads_le_1; cbn [List.filter length]; lia | apply Hnw; reflexivity].
      * rewrite logged_logged. intros H; injection H as <- <-.
        eexists; split; [reflexivity |]; split; [unfold count_loads, loads_of; cbn [List.filter length]; lia |]; split; [intros p; apply count_reads_le_1; cbn [List.filter length]; lia | apply Hnw; reflexivity].
      * rewrite logged_logged. intros H; injection H as <- <-.
        eexists; split; [reflexivity |]; split; [unfold count_loads, loads_of; cbn [List.filter length]; lia |]; split; [intros p; apply count_reads_le_1; cbn [List.filter length]; lia | apply Hnw; reflexivity].
    + intros H; injection H as <- <-.
      eexists; split; [reflexivity |]; split; [unfold count_loads, loads_of; cbn [List.filter length]; lia |]; split; [intros p; apply count_reads_le_1; cbn [List.filter length]; lia | apply Hnw; reflexivity].
  - intros H; injection H as <- <-.
    eexists; split; [reflexivity |]; split; [unfold count_loads, loads_of; cbn [List.filter length]; lia |]; split; [intros p; apply count_reads_le_1; cbn [List.filter length]; lia | apply Hnw; reflexivity].
  - intros H; injection H as <- <-.
    eexists; split; [reflexivity |]; split; [unfold count_loads, loads_of; cbn [List.filter length]; lia |]; split; [intros p; apply count_reads_le_1; cbn [List.filter length]; lia | apply Hnw; reflexivity].
Qed.

Lemma _get_cert_pw_cwd (w : world) : cwd (snd (_get_cert_pw constants w)) = cwd w.
Proof using Type.
  rewrite _get_cert_pw_run. cbv zeta.
  destruct (fs w !! _) as [[content|]|]; reflexivity.
Qed.

Lemma write_pem_cwd (jks_path pw output_path : str) (w : world) :
  cwd (snd (write_pem loads jks_path pw output_path w)) = cwd w.
Proof using Type.
  rewrite write_pem_run.
  destruct (fs w !! jks_path) as [[data|]|]; try reflexivity.
  destruct (loads data pw); try reflexivity.
  destruct (fs w !! output_path) as [[old|]|]; reflexivity.
Qed.

(** [write_pems] is its identity step followed by its trust step. *)
Lemma write_pems_steps (w : world) :
  write_pems constants loads w =
  match identity_step constants loads w with
  | (inl e, w1) => (inl e, w1)
  | (inr _, w1) => trust_step constants loads w1
  end.
Proof using Type.
  unfold write_pems. unfold getcwd.
  cbv beta delta [bind] iota.
  unfold identity_step, bind, in_cwd.
  pose proof (_get_cert_pw_cwd w) as C0.
  unfold get_key_store_pwd.
  destruct (_get_cert_pw constants w) as [[e|pw] w0]; [reflexivity |].
  pose proof (write_pem_cwd (cwd w ++ "/" ++ K_CERTIFICATE_CONFIG constants) pw
                (cwd w ++ "/" ++ PEM_K_CERTIFICATE_CONFIG constants) w0) as C1.
  destruct (write_pem loads (cwd w ++ "/" ++ K_CERTIFICATE_CONFIG constants) pw
              (cwd w ++ "/" ++ PEM_K_CERTIFICATE_CONFIG constants) w0)
    as [[e|[]] w1]; [reflexivity |].
  cbn [snd] in C0, C1. unfold trust_step, in_cwd. rewrite C1, C0. reflexivity.
Qed.

End StepFacts.

(** * The claims *)

(** C1: for every byte sequence and every label, the block that
    [bytes_to_pem_str] produces decodes back to the bytes: without its
    two marker lines and its line terminators the block is Base64 text
    that [b64decode] turns into the input. Hence what
    [convert_jks_to_pem] returns for a keystore that loads is the text
    of the blocks of its entries, each of which decodes to the key or
    certificate bytes of its entry. *)
Theorem bytes_to_pem_str_round_trip :
  (forall (der_bytes : bytes) (pem_type : str),
      pem_decode pem_type (bytes_to_pem_str der_bytes pem_type) = Some der_bytes)
  /\ (forall (loads : str -> str -> exn + KeyStore) (jks_path pw data : str)
        (w : world) (ks : KeyStore),
        fs w !! jks_path = Some (File data) ->
        loads data pw = inr ks ->
        fst (convert_jks_to_pem loads jks_path pw w) = inr (blocks_to_pem (keystore_blocks ks))
        /\ Forall (fun b => pem_decode (fst b) (bytes_to_pem_str (snd b) (fst b)) = Some (snd b))
             (keystore_blocks ks)).
Proof.
  split; [exact pem_decode_bytes_to_pem_str |].
  intros loads jks_path pw data w ks Hfile Hload. split.
  - rewrite convert_jks_to_pem_run, Hfile, Hload. cbn [fst].
    now rewrite keystore_to_pem_blocks.
  - apply List.Forall_forall. intros b _. apply pem_decode_bytes_to_pem_str.
Qed.

Lemma bytes_to_pem_str_round_trip_example :
  pem_decode "CERTIFICATE" (bytes_to_pem_str example_leaf "CERTIFICATE") = Some example_leaf
  /\ fst (convert_jks_to_pem example_loads "/srv/app/k_certificate" "pssword"
            (example_world example_password_file))
     = inr (blocks_to_pem
              [("RSA PRIVATE KEY" : str, example_key); ("CERTIFICATE" : str, example_leaf);
               ("CERTIFICATE" : str, example_root); ("CERTIFICATE" : str, example_ca)]).
Proof.
  destruct bytes_to_pem_str_round_trip as [Hblock Hstore]. split.
  - apply Hblock.
  - apply (Hstore example_loads "/srv/app/k_certificate" "pssword" "keystore"
             (example_world example_password_file) example_keystore);
      vm_compute; reflexivity.
Defined.

(** C2: [bytes_to_pem_str] produces the begin marker line ended by a
    newline, the Base64 text of the bytes cut into lines of exactly 64
    characters (the last one may be shorter) that are joined by carriage
    return and newline and followed by one newline, and the end marker
    line ended by a newline; the blocks of [convert_jks_to_pem] carry no
    label but [RSA PRIVATE KEY], [PRIVATE KEY] and [CERTIFICATE]. The
    loop of [textwrap.wrap] comes to its end within the fuel given. *)
Theorem bytes_to_pem_str_format :
  (forall (der_bytes : bytes) (pem_type : str),
      let text := b64encode der_bytes in
      let lines := wrap text 64 in
      bytes_to_pem_str der_bytes pem_type =
        ("-----BEGIN " ++ pem_type ++ "-----") ++ [LF]
        ++ join [CR; LF] lines ++ [LF]
        ++ ("-----END " ++ pem_type ++ "-----") ++ [LF]
      /\ _wrap_chunks (length text) 64 (_split text) [] = Some lines
      /\ concat lines = text
      /\ wrapped_shape 64 lines)
  /\ (forall ks : KeyStore,
        keystore_to_pem ks = blocks_to_pem (keystore_blocks ks)
        /\ Forall (fun b => fst b = ("RSA PRIVATE KEY" : str)
                            \/ fst b = ("PRIVATE KEY" : str)
                            \/ fst b = ("CERTIFICATE" : str))
             (keystore_blocks ks)).
Proof.
  split.
  - intros der_bytes pem_type text lines.
    destruct (wrap_plain (b64encode der_bytes) 64) as (Hf & Hc & Hs);
      [lia | apply b64encode_plain |].
    split; [| split; [| split]; assumption].
    rewrite bytes_to_pem_str_layout. unfold begin_marker, end_marker.
    now rewrite <- !app_assoc.
  - intros ks. split; [apply keystore_to_pem_blocks |].
    unfold keystore_blocks. apply List.Forall_app. split.
    + apply List.Forall_flat_map, List.Forall_forall. intros item _.
      unfold entry_blocks. constructor.
      * unfold key_block. destruct (bool_decide _); cbn [fst]; auto.
      * apply List.Forall_map, List.Forall_forall. intros c _. cbn [fst]. auto.
    + apply List.Forall_map, List.Forall_forall. intros c _. cbn [fst]. auto.
Qed.

(** C10: for the empty byte sequence the body of the block is a single
    empty line: there is no body line at all, and the newline that
    follows the body stands alone between the two marker lines. *)
Theorem bytes_to_pem_str_empty (pem_type : str) :
  wrap (b64encode []) 64 = []
  /\ bytes_to_pem_str [] pem_type =
       ("-----BEGIN " ++ pem_type ++ "-----") ++ [LF] ++ [LF]
       ++ ("-----END " ++ pem_type ++ "-----") ++ [LF].
Proof.
  split; [reflexivity |].
  rewrite bytes_to_pem_str_layout. unfold begin_marker, end_marker.
  cbn [b64encode wrap length _split _wrap_chunks join].
  now rewrite <- !app_assoc.
Qed.

(** [string.printable] holds the characters from space to tilde and
    the five layout characters, and no other. *)
Lemma char_in_printable (c : ascii) :
  char_in c printable = is_graphic_or_space c || is_layout_control c.
Proof.
  destruct c as [[] [] [] [] [] [] [] []]; vm_compute; reflexivity.
Qed.

(** *** Decoded text *)

Lemma in_str_ascii (a : ascii) (s : str) : in_str (N_of_ascii a) s = char_in a s.
Proof.
  unfold in_str, char_in. induction s as [|c s IH]; [reflexivity |].
  cbn [existsb]. rewrite IH. f_equal.
  destruct (Ascii.eqb_spec a c) as [->|Hne].
  - apply N.eqb_refl.
  - apply N.eqb_neq. intros H. apply Hne.
    now rewrite <- (ascii_N_embedding a), <- (ascii_N_embedding c), H.
Qed.

Lemma in_str_beyond (c : N) (s : str) : (256 <= c)%N -> in_str c s = false.
Proof.
  intros Hc. unfold in_str. induction s as [|a s IH]; [reflexivity |].
  cbn [existsb]. rewrite IH, orb_false_r. apply N.eqb_neq.
  pose proof (N_ascii_bounded a). lia.
Qed.

(** [@] and the characters of [string.printable] among all code
    points. *)
Lemma kept_by_get_cert_pw_code (c : N) :
  kept_by_get_cert_pw c =
  (is_graphic_or_space_code c || (9 <=? c) && (c <=? 13))%N && negb (c =? N_of_ascii "@")%N.
Proof.
  unfold kept_by_get_cert_pw. f_equal. unfold is_graphic_or_space_code.
  destruct (N.lt_ge_cases c 256) as [Hlt|Hge].
  - rewrite <- (N_ascii_embedding c Hlt), in_str_ascii, char_in_printable.
    destruct (ascii_of_N c) as [[] [] [] [] [] [] [] []]; vm_compute; reflexivity.
  - rewrite in_str_beyond by exact Hge.
    symmetry. apply orb_false_iff. split; apply andb_false_iff; right; apply N.leb_gt; lia.
Qed.

Lemma kept_by_get_cert_pw_ascii (c : N) :
  kept_by_get_cert_pw c = true ->
  (c < 128)%N /\ c <> N_of_ascii "@"
  /\ char_in (ascii_of_N c) printable = true /\ ascii_of_N c <> "@"%char
  /\ N_of_ascii (ascii_of_N c) = c.
Proof.
  intros H. pose proof H as H'. rewrite kept_by_get_cert_pw_code in H'.
  apply andb_prop in H'. destruct H' as [Hr Hat].
  assert (Hlt : (c < 128)%N).
  { unfold is_graphic_or_space_code in Hr. apply orb_prop in Hr.
    destruct Hr as [Hr|Hr]; apply andb_prop in Hr; destruct Hr as [_ Hr];
      apply N.leb_le in Hr; lia. }
  assert (Hemb : N_of_ascii (ascii_of_N c) = c) by (apply N_ascii_embedding; lia).
  apply negb_true_iff, N.eqb_neq in Hat.
  split; [exact Hlt |]. split; [exact Hat |]. split; [| split; [| exact Hemb]].
  - unfold kept_by_get_cert_pw in H. apply andb_prop in H. destruct H as [H _].
    now rewrite <- Hemb, in_str_ascii in H.
  - intros E. apply Hat. now rewrite <- Hemb, E.
Qed.

(** An induction that follows the steps of [universal_newlines] and of
    [utf_8_decode]: by the length of the list. *)
Lemma list_length_ind {A} (P : list A -> Prop) :
  (forall l, (forall l', length l' < length l -> P l') -> P l) -> forall l, P l.
Proof.
  intros H l. remember (length l) as n eqn:E. revert l E.
  induction n as [n IH] using lt_wf_ind. intros l ->. apply H.
  intros l' Hl. exact (IH _ Hl l' eq_refl).
Qed.

(** No carriage return is left in a text that was read. *)
Lemma universal_newlines_no_cr (text : list N) :
  Forall (fun c => c <> 13%N) (universal_newlines text).
Proof.
  induction text as [text IH] using list_length_ind.
  destruct text as [|c rest]; [constructor |].
  cbn [universal_newlines]. destruct (N.eqb_spec c 13) as [->|Hc].
  - constructor; [discriminate |].
    destruct rest as [|c' rest']; [constructor |].
    destruct (c' =? 10)%N; apply IH; cbn [length]; lia.
  - constructor; [exact Hc |]. apply IH. cbn [length]. lia.
Qed.

Lemma universal_newlines_id (text : list N) :
  Forall (fun c => c <> 13%N) text -> universal_newlines text = text.
Proof.
  induction 1 as [|c rest Hc _ IH]; [reflexivity |].
  cbn [universal_newlines]. apply N.eqb_neq in Hc. now rewrite Hc, IH.
Qed.

Lemma length_universal_newlines (text : list N) :
  length (universal_newlines text) <= length text.
Proof.
  induction text as [text IH] using list_length_ind.
  destruct text as [|c rest]; [reflexivity |].
  cbn [universal_newlines]. destruct (c =? 13)%N.
  - destruct rest as [|c' rest']; [cbn [length]; lia |].
    destruct (c' =? 10)%N.
    + specialize (IH rest'). cbn [length] in *. lia.
    + specialize (IH (c' :: rest')). cbn [length] in *. lia.
  - specialize (IH rest). cbn [length] in *. lia.
Qed.

(** A decoded text has at most one character for every byte. *)
Lemma length_utf_8_decode (data : str) :
  forall text, utf_8_decode data = Some text -> length text <= length data.
Proof.
  induction data as [data IH] using list_length_ind.
  destruct data as [|c0 rest]; [intros text [= <-]; reflexivity |].
  cbn [utf_8_decode]. cbv zeta. intros text.
  destruct (N_of_ascii c0 <? 128)%N.
  { destruct (utf_8_decode rest) as [t|] eqn:E; [| discriminate].
    intros [= <-]. specialize (IH rest ltac:(cbn [length]; lia) t E).
    cbn [length]. lia. }
  destruct ((194 <=? N_of_ascii c0) && (N_of_ascii c0 <=? 223))%N.
  { destruct rest as [|c1 rest]; [discriminate |].
    destruct (is_continuation (N_of_ascii c1)); [| discriminate].
    destruct (utf_8_decode rest) as [t|] eqn:E; [| discriminate].
    intros [= <-]. specialize (IH rest ltac:(cbn [length]; lia) t E).
    cbn [length]. lia. }
  destruct ((224 <=? N_of_ascii c0) && (N_of_ascii c0 <=? 239))%N.
  { destruct rest as [|c1 [|c2 rest]]; try discriminate.
    destruct (is_second_of_three _ _ && is_continuation _); [| discriminate].
    destruct (utf_8_decode rest) as [t|] eqn:E; [| discriminate].
    intros [= <-]. specialize (IH rest ltac:(cbn [length]; lia) t E).
    cbn [length]. lia. }
  destruct ((240 <=? N_of_ascii c0) && (N_of_ascii c0 <=? 244))%N; [| discriminate].
  destruct rest as [|c1 [|c2 [|c3 rest]]]; try discriminate.
  destruct (is_second_of_four _ _ && is_continuation _ && is_continuation _);
    [| discriminate].
  destruct (utf_8_decode rest) as [t|] eqn:E; [| discriminate].
  intros [= <-]. specialize (IH rest ltac:(cbn [length]; lia) t E).
  cbn [length]. lia.
Qed.

(** ASCII bytes are the text they spell. *)
Lemma utf_8_decode_ascii (content : str) :
  forallb is_ascii content = true ->
  utf_8_decode content = Some (map N_of_ascii content).
Proof.
  induction content as [|c content IH]; [reflexivity |].
  cbn [forallb]. intros H. apply andb_prop in H. destruct H as [Hc H].
  cbn [utf_8_decode map]. cbv zeta. unfold is_ascii in Hc. now rewrite Hc, IH.
Qed.

(** C3 (as amended): when the password file is there and its bytes are
    UTF-8, [_get_cert_pw] returns the text they spell, read with
    universal newlines, without the characters that are not in
    [string.printable] and without every [@]: what stays are the
    characters from space to tilde but [@], and tab, newline, vertical
    tab and form feed, in their order. Bytes that are not UTF-8 make it
    raise [UnicodeDecodeError]. ASCII bytes are UTF-8 and spell
    themselves. *)
Theorem _get_cert_pw_sanitizes (constants : SSL_CONFIG) (w : world) (content : str) :
  fs w !! in_cwd w (CRYPTO_MATERIAL_PASSWORD constants) = Some (File content) ->
  (forall text : list N,
      utf_8_decode content = Some text ->
      fst (_get_cert_pw constants w) =
      inr (map ascii_of_N
             (List.filter
                (fun c => (is_graphic_or_space_code c || is_tab_to_form_feed c)
                          && negb (c =? N_of_ascii "@")%N)
                (universal_newlines text))))
  /\ (utf_8_decode content = None ->
      fst (_get_cert_pw constants w) = inl UnicodeDecodeError)
  /\ (forallb is_ascii content = true ->
      utf_8_decode content = Some (map N_of_ascii content)).
Proof.
  intros Hfile. rewrite _get_cert_pw_run. cbv zeta. rewrite Hfile. cbn [fst].
  unfold password_of. split; [| split].
  - intros text ->. do 2 f_equal. apply List.filter_ext_in. intros c Hc.
    rewrite kept_by_get_cert_pw_code. f_equal. f_equal.
    pose proof (universal_newlines_no_cr text) as Hcr.
    rewrite List.Forall_forall in Hcr. specialize (Hcr c Hc).
    unfold is_tab_to_form_feed.
    destruct (9 <=? c)%N; [cbn [andb] | reflexivity].
    destruct (N.leb_spec c 12) as [H12|H12], (N.leb_spec c 13) as [H13|H13];
      try reflexivity; lia.
  - now intros ->.
  - apply utf_8_decode_ascii.
Qed.

Lemma _get_cert_pw_sanitizes_example :
  fst (_get_cert_pw example_constants (example_world example_password_file))
  = inr ("pssword" : str).
Proof.
  refine (eq_trans
            (proj1 (_get_cert_pw_sanitizes example_constants
                      (example_world example_password_file) example_password_file _)
               (map N_of_ascii example_password_file) _) _);
    vm_compute; reflexivity.
Defined.

(** C3 as stated does not hold: a newline is no ASCII printable
    character, yet [_get_cert_pw] keeps the one that ends the password
    file. *)
Lemma _get_cert_pw_keeps_newline :
  fs (example_world ("secret" ++ [LF]))
    !! in_cwd (example_world ("secret" ++ [LF])) (CRYPTO_MATERIAL_PASSWORD example_constants)
  = Some (File ("secret" ++ [LF]))
  /\ fst (_get_cert_pw example_constants (example_world ("secret" ++ [LF])))
     = inr ("secret" ++ [LF])
  /\ sanitize_ascii_printable ("secret" ++ [LF]) = "secret"
  /\ fst (_get_cert_pw example_constants (example_world ("secret" ++ [LF])))
     <> inr (sanitize_ascii_printable ("secret" ++ [LF])).
Proof.
  repeat split; try (vm_compute; reflexivity).
  vm_compute. discriminate.
Qed.

(** C4: [_get_cert_pw] raises its error for a missing password file
    exactly when nothing is at the path of the password file in the
    working directory: with a file or a directory there, no error of
    that kind is raised. It returns a password exactly when a file is
    there whose bytes can be decoded. *)
Theorem _get_cert_pw_not_found (constants : SSL_CONFIG) (w : world) :
  let pwd_path := cwd w ++ "/" ++ CRYPTO_MATERIAL_PASSWORD constants in
  ((exists msg, fst (_get_cert_pw constants w) = inl (AssertionError msg))
   <-> fs w !! pwd_path = None)
  /\ (fst (_get_cert_pw constants w)
      = inl (AssertionError ("material_passwd is not present in directory: " ++ pwd_path))
      <-> fs w !! pwd_path = None)
  /\ ((exists content,
          fs w !! pwd_path = Some (File content) /\ is_Some (utf_8_decode content))
      <-> exists pw, fst (_get_cert_pw constants w) = inr pw).
Proof.
  cbv zeta. rewrite _get_cert_pw_run. cbv zeta. unfold in_cwd.
  destruct (fs w !! (cwd w ++ "/" ++ CRYPTO_MATERIAL_PASSWORD constants))
    as [[content|]|]; cbn [fst].
  - split; [| split].
    + split; [| discriminate].
      intros [msg H]. destruct (password_of content); discriminate.
    + split; [| discriminate].
      intros H. destruct (password_of content); discriminate.
    + unfold password_of. split.
      * intros (content' & [= <-] & [text Ht]). rewrite Ht. eauto.
      * intros [pw H]. exists content. split; [reflexivity |].
        destruct (utf_8_decode content); [eauto | discriminate].
  - split; [| split].
    + split; [intros [msg H] |]; discriminate.
    + split; discriminate.
    + split; [intros (content' & [=] & _) | intros [pw H]; discriminate].
  - split; [| split].
    + split; eauto.
    + split; reflexivity.
    + split; [intros (content' & [=] & _) | intros [pw H]; discriminate].
Qed.

(** C5: for a keystore that loads, [convert_jks_to_pem] returns the
    blocks in the order of the entries: for each private-key entry in
    the order of [private_keys] its key block and then the certificates
    of its chain in the order of the chain, and after them one
    certificate block per entry of [certs] in their order. The aliases
    play no part in it. *)
Theorem convert_jks_to_pem_order (loads : str -> str -> exn + KeyStore)
    (jks_path pw data : str) (w : world) (ks : KeyStore) :
  fs w !! jks_path = Some (File data) ->
  loads data pw = inr ks ->
  fst (convert_jks_to_pem loads jks_path pw w) =
    inr (blocks_to_pem
           (flat_map
              (fun item =>
                 key_block (snd item)
                 :: map (fun c => ("CERTIFICATE" : str, snd c)) (cert_chain (snd item)))
              (private_keys ks)
            ++ map (fun item => ("CERTIFICATE" : str, cert (snd item))) (certs ks)))
  /\ (forall ks' : KeyStore,
        map snd (private_keys ks') = map snd (private_keys ks) ->
        map snd (certs ks') = map snd (certs ks) ->
        keystore_to_pem ks' = keystore_to_pem ks).
Proof.
  intros Hfile Hload. split.
  - rewrite convert_jks_to_pem_run, Hfile, Hload. cbn [fst].
    now rewrite keystore_to_pem_blocks.
  - intros ks' Hk Hc. rewrite !keystore_to_pem_blocks. unfold keystore_blocks.
    rewrite !flat_map_concat_map.
    rewrite <- (map_map snd entry_blocks (private_keys ks')).
    rewrite <- (map_map snd entry_blocks (private_keys ks)).
    rewrite <- (map_map snd (fun e => ("CERTIFICATE" : str, cert e)) (certs ks')).
    rewrite <- (map_map snd (fun e => ("CERTIFICATE" : str, cert e)) (certs ks)).
    now rewrite Hk, Hc.
Qed.

Lemma convert_jks_to_pem_order_example :
  fst (convert_jks_to_pem example_loads "/srv/app/k_certificate" "pssword"
         (example_world example_password_file))
  = inr (bytes_to_pem_str example_key "RSA PRIVATE KEY"
         ++ bytes_to_pem_str example_leaf "CERTIFICATE"
         ++ bytes_to_pem_str example_root "CERTIFICATE"
         ++ bytes_to_pem_str example_ca "CERTIFICATE").
Proof.
  destruct (convert_jks_to_pem_order example_loads "/srv/app/k_certificate" "pssword"
              "keystore" (example_world example_password_file) example_keystore)
    as [H _]; [vm_compute; reflexivity | vm_compute; reflexivity |].
  rewrite H. vm_compute. reflexivity.
Defined.

Lemma key_labels_differ (d1 d2 : bytes) (t1 t2 : str) :
  bytes_to_pem_str d1 "RSA PRIVATE KEY" ++ t1 <> bytes_to_pem_str d2 "PRIVATE KEY" ++ t2.
Proof.
  rewrite !bytes_to_pem_str_layout. unfold begin_marker.
  cbn [list_ascii_of_string app]. discriminate.
Qed.

(** C6: the key block of a private-key entry is labelled
    [RSA PRIVATE KEY] and holds the raw key bytes when the algorithm
    identifier of the entry is the RSA encryption OID, and is labelled
    [PRIVATE KEY] and holds the PKCS#8 bytes in every other case; the
    two blocks are never the same text. *)
Theorem private_key_to_pem_label (pem_str alias : str) (pk : PrivateKeyEntry) :
  let chain :=
    blocks_to_pem (map (fun c => ("CERTIFICATE" : str, snd c)) (cert_chain pk)) in
  (algorithm_oid pk = RSA_ENCRYPTION_OID ->
   private_key_to_pem pem_str (alias, pk) =
     pem_str ++ bytes_to_pem_str (pkey pk) "RSA PRIVATE KEY" ++ chain)
  /\ (algorithm_oid pk <> RSA_ENCRYPTION_OID ->
      private_key_to_pem pem_str (alias, pk) =
        pem_str ++ bytes_to_pem_str (pkey_pkcs8 pk) "PRIVATE KEY" ++ chain)
  /\ (forall (d1 d2 : bytes) (t1 t2 : str),
        bytes_to_pem_str d1 "RSA PRIVATE KEY" ++ t1
        <> bytes_to_pem_str d2 "PRIVATE KEY" ++ t2).
Proof.
  cbv zeta. rewrite private_key_to_pem_blocks. cbn [snd].
  unfold entry_blocks, key_block.
  change (blocks_to_pem (?b :: ?l)) with
    (bytes_to_pem_str (snd b) (fst b) ++ blocks_to_pem l).
  split; [| split].
  - intros H. rewrite bool_decide_eq_true_2 by exact H. reflexivity.
  - intros H. rewrite bool_decide_eq_false_2 by exact H. reflexivity.
  - exact key_labels_differ.
Qed.

Lemma private_key_to_pem_label_example :
  private_key_to_pem [] ("k1" : str, example_k1) =
  bytes_to_pem_str example_key "RSA PRIVATE KEY"
  ++ bytes_to_pem_str example_leaf "CERTIFICATE"
  ++ bytes_to_pem_str example_root "CERTIFICATE".
Proof.
  destruct (private_key_to_pem_label [] "k1" example_k1) as [H _].
  rewrite H by reflexivity. vm_compute. reflexivity.
Defined.

(** ** The order and the failures of the file operations *)

Lemma store_step_log (constants : SSL_CONFIG) (loads : str -> str -> exn + KeyStore)
    (jks_name pem_name : str) (w : world) :
  exists events,
    log (snd (store_step constants loads jks_name pem_name w)) = log w ++ events.
Proof.
  destruct (store_step constants loads jks_name pem_name w) as [[e|[]] w1] eqn:E.
  - apply step_fail_inv in E. destruct E as (events & -> & _). now exists events.
  - apply step_ok_inv in E.
    destruct E as (content & pw & data & ks & _ & _ & _ & _ & _ & ->).
    eexists. reflexivity.
Qed.

Lemma in_cwd_inj (w : world) (a b : str) : in_cwd w a = in_cwd w b -> a = b.
Proof.
  unfold in_cwd. intros H. apply app_inv_head in H. now apply app_inv_head in H.
Qed.

Lemma events_of_run {A} (m : M A) (w : world) (events : list event) :
  log (snd (m w)) = log w ++ events -> events_of m w = events.
Proof.
  intros Hlog. unfold events_of. rewrite Hlog.
  rewrite skipn_app, skipn_all, Nat.sub_diag. reflexivity.
Qed.

(** C9: when the conversion inside [write_pem] fails, [write_pem] ends
    with that error in the very state the conversion left: no file has
    changed and the only event is the load of the keystore, so the
    output file was neither opened nor written. When the conversion
    gives a text, the output file is opened and written after the load,
    and it holds exactly that text afterwards, whatever it held
    before. *)
Theorem write_pem_all_or_nothing (loads : str -> str -> exn + KeyStore)
    (jks_path pw output_path : str) (w : world) :
  (forall (e : exn) (w1 : world),
      convert_jks_to_pem loads jks_path pw w = (inl e, w1) ->
      write_pem loads jks_path pw output_path w = (inl e, w1)
      /\ fs w1 = fs w
      /\ log w1 = log w ++ [EvLoad jks_path pw])
  /\ (forall (pem_str : str) (w1 : world),
        convert_jks_to_pem loads jks_path pw w = (inr pem_str, w1) ->
        fs w !! output_path <> Some Dir ->
        exists w2,
          write_pem loads jks_path pw output_path w = (inr tt, w2)
          /\ fs w2 = <[output_path := File pem_str]> (fs w)
          /\ fs w2 !! output_path = Some (File pem_str)
          /\ log w2 = log w ++ [EvLoad jks_path pw; EvOpen output_path ModeW;
                                EvWrite output_path pem_str]).
Proof.
  rewrite write_pem_run, convert_jks_to_pem_run. split.
  - intros e w1.
    destruct (fs w !! jks_path) as [[data|]|]; try (intros [= <- <-]; auto).
    destruct (loads data pw) as [e'|ks]; intros [= <- <-]; auto.
  - intros pem_str w1.
    destruct (fs w !! jks_path) as [[data|]|]; try discriminate.
    destruct (loads data pw) as [e'|ks]; intros [= <- <-] Hout.
    eexists. split; [| split; [| split]].
    + destruct (fs w !! output_path) as [[old|]|]; [reflexivity | congruence | reflexivity].
    + reflexivity.
    + cbn [fs written]. apply lookup_insert_eq.
    + reflexivity.
Qed.

Lemma write_pem_all_or_nothing_example :
  write_pem example_loads "/srv/app/k_certificate" "pssword" "/srv/app/k_certificate.pem"
    damaged_world
  = (inl (KeystoreException "keystore password was incorrect"),
     logged [EvLoad "/srv/app/k_certificate" "pssword"] damaged_world)
  /\ fs damaged_world !! ("/srv/app/k_certificate.pem" : str) = Some (File "earlier text").
Proof.
  split; [| vm_compute; reflexivity].
  apply (proj1 (write_pem_all_or_nothing example_loads "/srv/app/k_certificate" "pssword"
                  "/srv/app/k_certificate.pem" damaged_world)).
  vm_compute. reflexivity.
Defined.

(** C8: [write_pems] runs its identity step first. When that step
    fails, [write_pems] ends with the same error in the state that step
    left: no file has changed, nothing was written and the keystore
    library was asked at most once, so the trust store was not
    converted. When the identity step ends well, the trust step starts
    from the state it left, and every event of the trust step comes
    after the six events of the identity step. *)
Theorem write_pems_fail_fast (constants : SSL_CONFIG)
    (loads : str -> str -> exn + KeyStore) (w : world) :
  (forall (e : exn) (w1 : world),
      identity_step constants loads w = (inl e, w1) ->
      write_pems constants loads w = (inl e, w1)
      /\ fs w1 = fs w
      /\ exists events,
           log w1 = log w ++ events
           /\ count_loads events <= 1
           /\ Forall (fun ev => forall p t, ev <> EvWrite p t) events)
  /\ (forall w1 : world,
        identity_step constants loads w = (inr tt, w1) ->
        write_pems constants loads w = trust_step constants loads w1
        /\ (exists pw pem_str,
              log w1 = log w ++ step_events (in_cwd w (CRYPTO_MATERIAL_PASSWORD constants))
                                  (in_cwd w (K_CERTIFICATE_CONFIG constants))
                                  (in_cwd w (PEM_K_CERTIFICATE_CONFIG constants))
                                  pw pem_str)
        /\ exists events,
             log (snd (trust_step constants loads w1)) = log w1 ++ events).
Proof.
  split.
  - intros e w1 E. rewrite write_pems_steps, E. split; [reflexivity |].
    apply (step_fail_inv constants loads) in E.
    destruct E as (events & -> & Hl & _ & Hw). split; [reflexivity |].
    exists events. auto.
  - intros w1 E. rewrite write_pems_steps, E. split; [reflexivity |].
    apply (step_ok_inv constants loads) in E.
    destruct E as (content & pw & data & ks & _ & _ & _ & _ & _ & ->). split.
    + eexists _, _. reflexivity.
    + apply (store_step_log constants loads).
Qed.

Lemma write_pems_fail_fast_example :
  write_pems example_constants example_loads damaged_world
  = (inl (KeystoreException "keystore password was incorrect"),
     logged [EvExists "/srv/app/material_passwd"; EvOpen "/srv/app/material_passwd" ModeR;
             EvRead "/srv/app/material_passwd"; EvLoad "/srv/app/k_certificate" "pssword"]
       damaged_world)
  /\ fs damaged_world !! ("/srv/app/t_certificate.pem" : str) = None.
Proof.
  split; [| vm_compute; reflexivity].
  apply (proj1 (write_pems_fail_fast example_constants example_loads damaged_world)).
  vm_compute. reflexivity.
Defined.

Lemma count_reads_step_events (pwd_path jks_path pem_path pw pem_str : str) :
  count_reads pwd_path (step_events pwd_path jks_path pem_path pw pem_str) = 1.
Proof.
  unfold count_reads, step_events. cbn [List.filter].
  rewrite bool_decide_eq_true_2 by reflexivity. reflexivity.
Qed.

Lemma count_reads_app (path : str) (l1 l2 : list event) :
  count_reads path (l1 ++ l2) = count_reads path l1 + count_reads path l2.
Proof. unfold count_reads. now rewrite List.filter_app, length_app. Qed.

(** C7 (as amended): in a call of [write_pems] the password file is
    read once for each store, by [get_key_store_pwd] before the
    identity store is converted and again by [get_trust_store_pwd]
    before the trust store is: twice whenever the identity step ends
    well, at most once when it fails. When the identity PEM file is not
    the password file, both reads give the same password, and it is the
    one handed to both conversions. *)
Theorem write_pems_password_reads (constants : SSL_CONFIG)
    (loads : str -> str -> exn + KeyStore) (w : world) :
  let pwd_path := in_cwd w (CRYPTO_MATERIAL_PASSWORD constants) in
  let events := events_of (write_pems constants loads) w in
  (forall w1 : world,
      identity_step constants loads w = (inr tt, w1) ->
      count_reads pwd_path events = 2
      /\ (CRYPTO_MATERIAL_PASSWORD constants <> PEM_K_CERTIFICATE_CONFIG constants ->
          exists pw,
            fst (get_key_store_pwd constants w) = inr pw
            /\ fst (get_trust_store_pwd constants w1) = inr pw
            /\ loads_of events =
                 [EvLoad (in_cwd w (K_CERTIFICATE_CONFIG constants)) pw;
                  EvLoad (in_cwd w (T_CERTIFICATE_CONFIG constants)) pw]))
  /\ (forall (e : exn) (w1 : world),
        identity_step constants loads w = (inl e, w1) ->
        count_reads pwd_path events <= 1 /\ count_loads events <= 1).
Proof.
  intros pwd_path events. subst events. split.
  - intros w1 E1.
    assert (Hrun : write_pems constants loads w = trust_step constants loads w1)
      by (now rewrite write_pems_steps, E1).
    apply (step_ok_inv constants loads) in E1.
    destruct E1 as (content & pw & data1 & ks1 & Hpw & Hp & _ & _ & _ & ->).
    set (w1 := written _ _ _ w) in *.
    assert (Hfile1 : exists content1,
               fs w1 !! in_cwd w1 (CRYPTO_MATERIAL_PASSWORD constants)
               = Some (File content1)
               /\ (CRYPTO_MATERIAL_PASSWORD constants <> PEM_K_CERTIFICATE_CONFIG constants ->
                   content1 = content)).
    { subst w1. unfold in_cwd at 1. cbn [fs cwd written].
      destruct (decide (in_cwd w (PEM_K_CERTIFICATE_CONFIG constants)
                        = in_cwd w (CRYPTO_MATERIAL_PASSWORD constants))) as [Heq|Hne].
      - fold (in_cwd w (CRYPTO_MATERIAL_PASSWORD constants)).
        rewrite <- Heq, lookup_insert_eq. eexists. split; [reflexivity |].
        intros Hn. exfalso. apply Hn. symmetry. exact (in_cwd_inj _ _ _ Heq).
      - fold (in_cwd w (CRYPTO_MATERIAL_PASSWORD constants)).
        rewrite lookup_insert_ne by exact Hne.
        exists content. split; [exact Hpw | reflexivity]. }
    destruct Hfile1 as (content1 & Hpw1 & Hsame).
    destruct (step_reads_loads constants loads (T_CERTIFICATE_CONFIG constants)
                (PEM_T_CERTIFICATE_CONFIG constants) w1 content1 Hpw1)
      as (events2 & Hlog2 & Hreads2 & Hloads2).
    change (in_cwd w1 (CRYPTO_MATERIAL_PASSWORD constants)) with pwd_path in Hreads2.
    change (in_cwd w1 (T_CERTIFICATE_CONFIG constants))
      with (in_cwd w (T_CERTIFICATE_CONFIG constants)) in Hloads2.
    change (store_step constants loads (T_CERTIFICATE_CONFIG constants)
              (PEM_T_CERTIFICATE_CONFIG constants) w1)
      with (trust_step constants loads w1) in Hlog2.
    rewrite <- Hrun in Hlog2.
    assert (Hlog : log (snd (write_pems constants loads w)) =
      log w ++ step_events pwd_path (in_cwd w (K_CERTIFICATE_CONFIG constants))
                 (in_cwd w (PEM_K_CERTIFICATE_CONFIG constants))
                 pw (keystore_to_pem ks1)
            ++ events2).
    { rewrite Hlog2. subst w1. cbn [log written]. now rewrite <- app_assoc. }
    rewrite (events_of_run _ _ _ Hlog). split.
    + rewrite count_reads_app, count_reads_step_events. now rewrite Hreads2.
    + intros Hne. specialize (Hsame Hne). subst content1.
      exists pw. split; [exact (_get_cert_pw_ok constants w content pw Hpw Hp) |].
      split; [exact (_get_cert_pw_ok constants w1 content pw Hpw1 Hp) |].
      unfold loads_of in *. rewrite List.filter_app, (Hloads2 pw Hp). reflexivity.
  - intros e w1 E1.
    assert (Hrun : write_pems constants loads w = (inl e, w1))
      by (now rewrite write_pems_steps, E1).
    apply (step_fail_inv constants loads) in E1.
    destruct E1 as (events1 & -> & Hl & Hr & _).
    assert (Hlog : log (snd (write_pems constants loads w)) = log w ++ events1)
      by (now rewrite Hrun).
    rewrite (events_of_run _ _ _ Hlog). auto.
Qed.

Lemma write_pems_password_reads_example :
  count_reads "/srv/app/material_passwd"
    (events_of (write_pems example_constants example_loads)
       (example_world example_password_file)) = 2.
Proof.
  apply (proj1 (write_pems_password_reads example_constants example_loads
                  (example_world example_password_file))
           (snd (identity_step example_constants example_loads
                   (example_world example_password_file)))).
  vm_compute. reflexivity.
Defined.

(** C7 as stated does not hold: in a call that runs to its end the
    password file is read twice, not once. *)
Lemma write_pems_reads_password_twice :
  fst (write_pems example_constants example_loads (example_world example_password_file))
  = inr tt
  /\ count_reads "/srv/app/material_passwd"
       (events_of (write_pems example_constants example_loads)
          (example_world example_password_file)) = 2
  /\ count_reads "/srv/app/material_passwd"
       (events_of (write_pems example_constants example_loads)
          (example_world example_password_file)) <> 1.
Proof.
  repeat split; try (vm_compute; reflexivity). vm_compute. discriminate.
Qed.

(** * Further properties of [hops/tls.py] *)

(** ** [get_key_store_cert] *)

Lemma get_key_store_cert_run (constants : SSL_CONFIG) (w : world) :
  let cert_path := in_cwd w (K_CERTIFICATE_CONFIG constants) in
  get_key_store_cert constants w =
  match fs w !! cert_path with
  | None =>
      (inl (AssertionError ("k_certificate is not present in directory: " ++ cert_path)),
       logged [EvExists cert_path] w)
  | Some Dir =>
      (inl (IOError cert_path), logged [EvExists cert_path; EvOpen cert_path ModeR] w)
  | Some (File content) =>
      (inr (map byte_of_ascii (b64encode (map byte_of_ascii content))),
       logged [EvExists cert_path; EvOpen cert_path ModeR; EvRead cert_path] w)
  end.
Proof.
  cbv zeta.
  unfold get_key_store_cert, read_file_bytes, bind, getcwd, path_exists, read_file,
    raise, ret, in_cwd.
  cbn [fs emit cwd log].
  destruct (fs w !! (cwd w ++ "/" ++ K_CERTIFICATE_CONFIG constants)) as [[content|]|] eqn:E.
  - rewrite bool_decide_eq_true_2 by eauto. cbn [negb fs emit].
    rewrite E. unfold logged, emit. cbn [cwd fs log]. now rewrite <- !app_assoc.
  - rewrite bool_decide_eq_true_2 by eauto. cbn [negb fs emit].
    rewrite E. unfold logged, emit. cbn [cwd fs log]. now rewrite <- !app_assoc.
  - rewrite bool_decide_eq_false_2 by (intros [? ?]; discriminate). reflexivity.
Qed.

Lemma map_ascii_of_byte_of_ascii (s : str) : map ascii_of_byte (map byte_of_ascii s) = s.
Proof.
  rewrite map_map. rewrite <- (map_id s) at 2. apply map_ext.
  intros c. apply ascii_of_byte_of_ascii.
Qed.

(** X1: when the identity keystore is there, [get_key_store_cert]
    returns Base64 text that decodes to the bytes of the file, and the
    file can be rebuilt from it; no file is changed. *)
Theorem get_key_store_cert_round_trip (constants : SSL_CONFIG) (w : world) (content : str) :
  fs w !! in_cwd w (K_CERTIFICATE_CONFIG constants) = Some (File content) ->
  exists cert w',
    get_key_store_cert constants w = (inr cert, w')
    /\ fs w' = fs w
    /\ b64decode (map ascii_of_byte cert) = Some (map byte_of_ascii content)
    /\ option_map (map ascii_of_byte) (b64decode (map ascii_of_byte cert)) = Some content.
Proof.
  intros Hfile. rewrite get_key_store_cert_run. cbv zeta. rewrite Hfile.
  eexists _, _. split; [reflexivity |]. split; [reflexivity |].
  rewrite map_ascii_of_byte_of_ascii, b64decode_b64encode. split; [reflexivity |].
  cbn [option_map]. now rewrite map_ascii_of_byte_of_ascii.
Qed.

Lemma get_key_store_cert_round_trip_example :
  exists cert,
    fst (get_key_store_cert example_constants (example_world example_password_file))
    = inr cert
    /\ option_map (map ascii_of_byte) (b64decode (map ascii_of_byte cert))
       = Some ("keystore" : str).
Proof.
  destruct (get_key_store_cert_round_trip example_constants
              (example_world example_password_file) "keystore")
    as (cert & w' & Hrun & _ & _ & Hdec); [vm_compute; reflexivity |].
  exists cert. rewrite Hrun. split; [reflexivity | exact Hdec].
Defined.

(** X2: [get_key_store_cert] raises its error for a missing keystore
    exactly when nothing is at the path of the identity keystore, fails
    in [open] exactly when a directory is there, and changes no file in
    any case. *)
Theorem get_key_store_cert_errors (constants : SSL_CONFIG) (w : world) :
  let cert_path := cwd w ++ "/" ++ K_CERTIFICATE_CONFIG constants in
  (fst (get_key_store_cert constants w)
   = inl (AssertionError ("k_certificate is not present in directory: " ++ cert_path))
   <-> fs w !! cert_path = None)
  /\ (fst (get_key_store_cert constants w) = inl (IOError cert_path)
      <-> fs w !! cert_path = Some Dir)
  /\ fs (snd (get_key_store_cert constants w)) = fs w.
Proof.
  cbv zeta. rewrite get_key_store_cert_run. cbv zeta. unfold in_cwd.
  destruct (fs w !! (cwd w ++ "/" ++ K_CERTIFICATE_CONFIG constants))
    as [[content|]|]; cbn [fst snd]; repeat split; try discriminate; auto.
Qed.

(** ** [_get_cert_pw] *)

Lemma filter_length_le {A} (f : A -> bool) (l : list A) :
  length (List.filter f l) <= length l.
Proof.
  induction l as [|x l IH]; [reflexivity |].
  cbn [List.filter]. destruct (f x); cbn [length]; lia.
Qed.

Lemma password_of_kept (content pw : str) :
  password_of content = Some pw ->
  exists text,
    pw = map ascii_of_N text
    /\ Forall (fun c => kept_by_get_cert_pw c = true /\ c <> 13%N) text
    /\ length text <= length content.
Proof.
  unfold password_of. destruct (utf_8_decode content) as [text|] eqn:E; [| discriminate].
  intros [= <-]. eexists. split; [reflexivity |]. split.
  - apply List.Forall_forall. intros c Hc. apply filter_In in Hc. destruct Hc as [Hin Hk].
    split; [exact Hk |].
    pose proof (universal_newlines_no_cr text) as Hcr.
    rewrite List.Forall_forall in Hcr. exact (Hcr c Hin).
  - pose proof (filter_length_le kept_by_get_cert_pw (universal_newlines text)).
    pose proof (length_universal_newlines text).
    pose proof (length_utf_8_decode content text E). lia.
Qed.

(** The password of a password is the password. *)
Lemma password_of_fixed (content pw : str) :
  password_of content = Some pw -> password_of pw = Some pw.
Proof.
  intros H. apply password_of_kept in H. destruct H as (text & -> & Hk & _).
  assert (Hascii : forallb is_ascii (map ascii_of_N text) = true).
  { apply forallb_forall. intros a Ha. apply in_map_iff in Ha.
    destruct Ha as (c & <- & Hc). rewrite List.Forall_forall in Hk.
    destruct (Hk c Hc) as [Hkept _].
    apply kept_by_get_cert_pw_ascii in Hkept. destruct Hkept as (Hlt & _ & _ & _ & Hemb).
    unfold is_ascii. rewrite Hemb. now apply N.ltb_lt. }
  assert (Hemb : map N_of_ascii (map ascii_of_N text) = text).
  { rewrite map_map. rewrite <- (map_id text) at 2. apply map_ext_in.
    intros c Hc. rewrite List.Forall_forall in Hk. destruct (Hk c Hc) as [Hkept _].
    now apply kept_by_get_cert_pw_ascii in Hkept. }
  unfold password_of. rewrite (utf_8_decode_ascii _ Hascii), Hemb.
  rewrite universal_newlines_id
    by (eapply List.Forall_impl; [| exact Hk]; now intros c [_ Hc]).
  f_equal. f_equal. apply List.forallb_filter_id. apply forallb_forall.
  intros c Hc. rewrite List.Forall_forall in Hk. now destruct (Hk c Hc).
Qed.

(** X3: a password that [_get_cert_pw] returns holds no [@], no
    carriage return and no character outside [string.printable], has at
    most as many characters as the file has bytes, and is stable: a
    password file that holds a returned password gives that password
    again. *)
Theorem _get_cert_pw_result (constants : SSL_CONFIG) (w : world) (pw : str) :
  fst (_get_cert_pw constants w) = inr pw ->
  Forall (fun c => c <> "@"%char /\ c <> CR /\ char_in c printable = true) pw
  /\ (forall content : str,
        fs w !! in_cwd w (CRYPTO_MATERIAL_PASSWORD constants) = Some (File content) ->
        length pw <= length content)
  /\ (forall w2 : world,
        fs w2 !! in_cwd w2 (CRYPTO_MATERIAL_PASSWORD constants) = Some (File pw) ->
        fst (_get_cert_pw constants w2) = inr pw).
Proof.
  intros Hrun. apply _get_cert_pw_ok_inv in Hrun.
  destruct Hrun as (content & Hfile & Hpw). split; [| split].
  - apply password_of_kept in Hpw. destruct Hpw as (text & -> & Hk & _).
    apply List.Forall_forall. intros a Ha. apply in_map_iff in Ha.
    destruct Ha as (c & <- & Hc). rewrite List.Forall_forall in Hk.
    destruct (Hk c Hc) as [Hkept Hcr].
    apply kept_by_get_cert_pw_ascii in Hkept.
    destruct Hkept as (_ & _ & Hp & Hat & Hemb).
    split; [exact Hat |]. split; [| exact Hp].
    intros E. apply Hcr. now rewrite <- Hemb, E.
  - intros content' Hfile'. rewrite Hfile in Hfile'. injection Hfile' as <-.
    apply password_of_kept in Hpw. destruct Hpw as (text & -> & _ & Hlen).
    now rewrite length_map.
  - intros w2 H2. apply (_get_cert_pw_ok constants w2 pw pw H2).
    exact (password_of_fixed content pw Hpw).
Qed.

Lemma _get_cert_pw_result_example :
  Forall (fun c => c <> "@"%char /\ c <> CR /\ char_in c printable = true)
    ("pssword" : str).
Proof.
  apply (_get_cert_pw_result example_constants (example_world example_password_file)
           "pssword").
  vm_compute. reflexivity.
Defined.

(** X4: [_get_cert_pw] changes no file and not the working directory,
    whatever it finds; a directory at the path of the password file
    makes it fail in [open], not with its own error. *)
Theorem _get_cert_pw_read_only (constants : SSL_CONFIG) (w : world) :
  let pwd_path := cwd w ++ "/" ++ CRYPTO_MATERIAL_PASSWORD constants in
  fs (snd (_get_cert_pw constants w)) = fs w
  /\ cwd (snd (_get_cert_pw constants w)) = cwd w
  /\ (fst (_get_cert_pw constants w) = inl (IOError pwd_path)
      <-> fs w !! pwd_path = Some Dir).
Proof.
  cbv zeta. rewrite _get_cert_pw_run. cbv zeta. unfold in_cwd.
  destruct (fs w !! (cwd w ++ "/" ++ CRYPTO_MATERIAL_PASSWORD constants))
    as [[content|]|]; cbn [fst snd]; repeat split; try discriminate; auto.
  destruct (password_of content); discriminate.
Qed.

(** ** [convert_jks_to_pem] and [write_pem] *)

(** X6: [write_pem] touches no path but its output path, whatever its
    outcome, and removes no file. *)
Theorem write_pem_frame (loads : str -> str -> exn + KeyStore)
    (jks_path pw output_path : str) (w : world) :
  let w1 := snd (write_pem loads jks_path pw output_path w) in
  (forall p : str, p <> output_path -> fs w1 !! p = fs w !! p)
  /\ (forall p : str, is_Some (fs w !! p) -> is_Some (fs w1 !! p))
  /\ cwd w1 = cwd w.
Proof.
  cbv zeta. rewrite write_pem_run.
  destruct (fs w !! jks_path) as [[data|]|]; cbn [snd fs cwd logged]; auto.
  destruct (loads data pw) as [e|ks]; cbn [snd fs cwd logged]; auto.
  assert (H : forall text events,
    (forall p : str, p <> output_path ->
       fs (written output_path text events w) !! p = fs w !! p)
    /\ (forall p : str, is_Some (fs w !! p) ->
          is_Some (fs (written output_path text events w) !! p))
    /\ cwd (written output_path text events w) = cwd w).
  { intros text events. cbn [fs cwd written]. repeat split.
    - intros p Hp. now rewrite lookup_insert_ne.
    - intros p Hp. destruct (decide (output_path = p)) as [->|Hne].
      + rewrite lookup_insert_eq. eauto.
      + now rewrite lookup_insert_ne. }
  destruct (fs w !! output_path) as [[old|]|]; cbn [snd fs cwd logged]; auto.
Qed.

(** X7: [write_pem] is idempotent when the keystore is not its own
    output file: a second call ends as the first did and leaves the
    files as the first left them. *)
Theorem write_pem_idempotent (loads : str -> str -> exn + KeyStore)
    (jks_path pw output_path : str) (w : world) :
  jks_path <> output_path ->
  let w1 := snd (write_pem loads jks_path pw output_path w) in
  fst (write_pem loads jks_path pw output_path w1)
  = fst (write_pem loads jks_path pw output_path w)
  /\ fs (snd (write_pem loads jks_path pw output_path w1)) = fs w1.
Proof.
  intros Hne. cbv zeta.
  rewrite (write_pem_run loads jks_path pw output_path w).
  destruct (fs w !! jks_path) as [[data|]|] eqn:Ejks.
  - destruct (loads data pw) as [e|ks] eqn:El.
    + cbn [snd fst]. rewrite write_pem_run. cbn [fs logged]. now rewrite Ejks, El.
    + assert (Hw : forall events,
        fst (write_pem loads jks_path pw output_path
               (written output_path (keystore_to_pem ks) events w)) = inr tt
        /\ fs (snd (write_pem loads jks_path pw output_path
                      (written output_path (keystore_to_pem ks) events w)))
           = fs (written output_path (keystore_to_pem ks) events w)).
      { intros events. rewrite write_pem_run. cbn [fs written].
        rewrite lookup_insert_ne by congruence. rewrite Ejks, El, lookup_insert_eq.
        cbn [fst snd fs written]. split; [reflexivity |]. apply insert_insert_eq. }
      destruct (fs w !! output_path) as [[old|]|] eqn:Eout; cbn [snd fst].
      * apply Hw.
      * rewrite write_pem_run. cbn [fs logged]. now rewrite Ejks, El, Eout.
      * apply Hw.
  - cbn [snd fst]. rewrite write_pem_run. cbn [fs logged]. now rewrite Ejks.
  - cbn [snd fst]. rewrite write_pem_run. cbn [fs logged]. now rewrite Ejks.
Qed.

Lemma write_pem_idempotent_example :
  fs (snd (write_pem example_loads "/srv/app/k_certificate" "pssword"
             "/srv/app/k_certificate.pem"
             (snd (write_pem example_loads "/srv/app/k_certificate" "pssword"
                     "/srv/app/k_certificate.pem"
                     (example_world example_password_file)))))
  = fs (snd (write_pem example_loads "/srv/app/k_certificate" "pssword"
               "/srv/app/k_certificate.pem" (example_world example_password_file))).
Proof.
  apply (write_pem_idempotent example_loads "/srv/app/k_certificate" "pssword"
           "/srv/app/k_certificate.pem" (example_world example_password_file)).
  vm_compute. discriminate.
Defined.

(** ** [write_pems] *)

(** X8: [write_pems] is not undone by a failure of its second half:
    when the identity step ends well and the trust step fails, the call
    ends with the error of the trust step, the identity PEM file holds
    the text of the identity keystore, loaded with the password that
    [_get_cert_pw] returned, and no other file has changed. *)
Theorem write_pems_keeps_identity_pem (constants : SSL_CONFIG)
    (loads : str -> str -> exn + KeyStore) (w w1 w2 : world) (e : exn) :
  identity_step constants loads w = (inr tt, w1) ->
  trust_step constants loads w1 = (inl e, w2) ->
  write_pems constants loads w = (inl e, w2)
  /\ exists pw data ks,
       fst (_get_cert_pw constants w) = inr pw
       /\ fs w !! in_cwd w (K_CERTIFICATE_CONFIG constants) = Some (File data)
       /\ loads data pw = inr ks
       /\ fs w2 = <[in_cwd w (PEM_K_CERTIFICATE_CONFIG constants)
                    := File (keystore_to_pem ks)]> (fs w).
Proof.
  intros E1 E2. split; [now rewrite write_pems_steps, E1 |].
  apply (step_ok_inv constants loads) in E1.
  destruct E1 as (content & pw & data & ks & Hpw & Hp & Hjks & Hl & _ & ->).
  apply (step_fail_inv constants loads) in E2.
  destruct E2 as (events & -> & _).
  exists pw, data, ks.
  split; [exact (_get_cert_pw_ok constants w content pw Hpw Hp) |]. auto.
Qed.

Lemma write_pems_keeps_identity_pem_example :
  fst (write_pems example_constants example_loads damaged_trust_world)
  = inl (KeystoreException "keystore password was incorrect")
  /\ fs (snd (write_pems example_constants example_loads damaged_trust_world))
       !! ("/srv/app/k_certificate.pem" : str)
     = Some (File (keystore_to_pem example_keystore))
  /\ fs (snd (write_pems example_constants example_loads damaged_trust_world))
       !! ("/srv/app/t_certificate.pem" : str)
     = None.
Proof.
  split; [| split; vm_compute; reflexivity].
  refine (f_equal fst
            (proj1 (write_pems_keeps_identity_pem example_constants example_loads
                      damaged_trust_world
                      (snd (identity_step example_constants example_loads
                              damaged_trust_world))
                      (snd (trust_step example_constants example_loads
                              (snd (identity_step example_constants example_loads
                                      damaged_trust_world))))
                      (KeystoreException "keystore password was incorrect") _ _)));
    vm_compute; reflexivity.
Defined.

(** X9: when [_get_cert_pw] returns a password, the two keystores load
    with it and the output paths are no directories, [write_pems] ends
    well, and afterwards the two PEM files hold the texts of the two
    keystores while every other file is as before. The identity PEM
    file must be neither the password file nor the trust keystore, for
    it is written before those are read again. *)
Theorem write_pems_writes_both (constants : SSL_CONFIG)
    (loads : str -> str -> exn + KeyStore) (w : world)
    (pw data_k data_t : str) (ks_k ks_t : KeyStore) :
  PEM_K_CERTIFICATE_CONFIG constants <> CRYPTO_MATERIAL_PASSWORD constants ->
  PEM_K_CERTIFICATE_CONFIG constants <> T_CERTIFICATE_CONFIG constants ->
  fst (_get_cert_pw constants w) = inr pw ->
  fs w !! in_cwd w (K_CERTIFICATE_CONFIG constants) = Some (File data_k) ->
  fs w !! in_cwd w (T_CERTIFICATE_CONFIG constants) = Some (File data_t) ->
  loads data_k pw = inr ks_k ->
  loads data_t pw = inr ks_t ->
  fs w !! in_cwd w (PEM_K_CERTIFICATE_CONFIG constants) <> Some Dir ->
  fs w !! in_cwd w (PEM_T_CERTIFICATE_CONFIG constants) <> Some Dir ->
  exists w',
    write_pems constants loads w = (inr tt, w')
    /\ fs w' = <[in_cwd w (PEM_T_CERTIFICATE_CONFIG constants) := File (keystore_to_pem ks_t)]>
                 (<[in_cwd w (PEM_K_CERTIFICATE_CONFIG constants)
                    := File (keystore_to_pem ks_k)]> (fs w)).
Proof.
  intros Hn1 Hn2 Hrun Hk Ht Hlk Hlt Hok Hot.
  apply _get_cert_pw_ok_inv in Hrun. destruct Hrun as (content & Hpw & Hp).
  rewrite write_pems_steps.
  change (identity_step constants loads w)
    with (store_step constants loads (K_CERTIFICATE_CONFIG constants)
            (PEM_K_CERTIFICATE_CONFIG constants) w).
  rewrite (step_ok constants loads _ _ w content pw data_k ks_k Hpw Hp Hk Hlk Hok).
  set (w1 := written _ _ _ w).
  change (trust_step constants loads w1)
    with (store_step constants loads (T_CERTIFICATE_CONFIG constants)
            (PEM_T_CERTIFICATE_CONFIG constants) w1).
  assert (Hw1 : forall name : str,
    PEM_K_CERTIFICATE_CONFIG constants <> name ->
    fs w1 !! in_cwd w1 name = fs w !! in_cwd w name).
  { intros name Hne. subst w1. unfold in_cwd at 1. cbn [fs cwd written].
    apply lookup_insert_ne. intros H. apply in_cwd_inj in H. congruence. }
  rewrite (step_ok constants loads _ _ w1 content pw data_t ks_t).
  - eexists. split; reflexivity.
  - now rewrite Hw1.
  - exact Hp.
  - now rewrite Hw1.
  - exact Hlt.
  - destruct (decide (PEM_K_CERTIFICATE_CONFIG constants = PEM_T_CERTIFICATE_CONFIG constants))
      as [Heq|Hne].
    + rewrite <- Heq. subst w1. unfold in_cwd at 1. cbn [fs cwd written].
      rewrite lookup_insert_eq. discriminate.
    + now rewrite Hw1.
Qed.

Lemma write_pems_writes_both_example :
  exists w',
    write_pems example_constants example_loads (example_world example_password_file)
    = (inr tt, w')
    /\ fs w'
       = <[in_cwd (example_world example_password_file)
             (PEM_T_CERTIFICATE_CONFIG example_constants)
           := File (keystore_to_pem example_keystore)]>
           (<[in_cwd (example_world example_password_file)
                (PEM_K_CERTIFICATE_CONFIG example_constants)
              := File (keystore_to_pem example_keystore)]>
              (fs (example_world example_password_file))).
Proof.
  apply (write_pems_writes_both example_constants example_loads
           (example_world example_password_file)
           "pssword" "keystore" "keystore"
           example_keystore example_keystore);
    first [vm_compute; reflexivity | vm_compute; discriminate].
Defined.

(** ** More on the text of a block *)

Lemma a2b_base64_line_terminators (s : str) :
  forall (quad_pos : nat) (leftchar : N) (pads : nat) (bin_data : bytes),
    a2b_base64 (strip_line_terminators s) quad_pos leftchar pads bin_data
    = a2b_base64 s quad_pos leftchar pads bin_data.
Proof.
  induction s as [|c s IH]; intros q lc p out; [reflexivity |].
  unfold strip_line_terminators in *. cbn [List.filter].
  destruct (Ascii.eqb c CR) eqn:Ecr.
  { apply Ascii.eqb_eq in Ecr. subst c. cbn [orb negb]. rewrite IH. reflexivity. }
  destruct (Ascii.eqb c LF) eqn:Elf.
  { apply Ascii.eqb_eq in Elf. subst c. cbn [orb negb]. rewrite IH. reflexivity. }
  cbn [orb negb a2b_base64].
  destruct (Ascii.eqb c BASE64_PAD).
  - destruct (2 <=? q); [destruct (4 <=? q + S p) |]; now rewrite ?IH.
  - destruct (table_a2b_base64 c) as [v|]; [| now rewrite IH].
    destruct q as [|[|[|q]]]; now rewrite IH.
Qed.

(** X10: the body of a block can be handed to [b64decode] as it
    stands, with its carriage returns and newlines: the decoder passes
    over them and gives the bytes of the block. *)
Theorem bytes_to_pem_str_body_decodes (der_bytes : bytes) (pem_type : str) :
  let body := join [CR; LF] (wrap (b64encode der_bytes) 64) ++ [LF] in
  pem_body pem_type (bytes_to_pem_str der_bytes pem_type) = Some body
  /\ b64decode body = Some der_bytes.
Proof.
  cbv zeta. split; [apply pem_body_bytes_to_pem_str |].
  unfold b64decode. rewrite <- a2b_base64_line_terminators.
  pose proof (pem_base64_bytes_to_pem_str der_bytes pem_type) as H.
  unfold pem_base64 in H. rewrite pem_body_bytes_to_pem_str in H.
  injection H as ->. apply a2b_base64_b64encode.
Qed.

Lemma length_b64encode (s : bytes) : length (b64encode s) = 4 * ((length s + 2) / 3).
Proof.
  induction s as [|a|a b|a b c rest IH] using bytes_ind3; try reflexivity.
  rewrite b64encode_group. cbn [length]. rewrite IH.
  replace (S (S (S (length rest))) + 2) with (1 * 3 + (length rest + 2)) by lia.
  rewrite Nat.div_add_l by lia. lia.
Qed.

Lemma wrapped_shape_length (width : nat) (lines : list str) :
  1 <= width -> wrapped_shape width lines ->
  length lines = (length (concat lines) + (width - 1)) / width.
Proof.
  intros Hw. induction lines as [|l [|l' lines] IH]; intros Hs.
  - simpl. symmetry. apply Nat.div_small. lia.
  - cbn [wrapped_shape] in Hs. cbn [concat length]. rewrite app_nil_r.
    apply (Nat.div_unique _ _ 1 (length l - 1)); lia.
  - destruct Hs as [Hl Hs]. specialize (IH Hs).
    change (concat (l :: l' :: lines)) with (l ++ concat (l' :: lines)).
    rewrite length_app, Hl. cbn [length] in *. rewrite IH.
    replace (width + length (concat (l' :: lines)) + (width - 1))
      with (1 * width + (length (concat (l' :: lines)) + (width - 1))) by lia.
    rewrite Nat.div_add_l by lia. lia.
Qed.

(** X11: the size of a block follows from the number of bytes: [n]
    bytes give four Base64 characters for every three bytes begun, and
    the body has one line for every 64 characters begun. *)
Theorem bytes_to_pem_str_size (der_bytes : bytes) :
  let text := b64encode der_bytes in
  length text = 4 * ((length der_bytes + 2) / 3)
  /\ length (wrap text 64) = (length text + 63) / 64
  /\ length (join [CR; LF] (wrap text 64)) = length text + 2 * (length (wrap text 64) - 1).
Proof.
  cbv zeta. split; [apply length_b64encode |].
  destruct (wrap_plain (b64encode der_bytes) 64) as (_ & Hc & Hs);
    [lia | apply b64encode_plain |].
  split.
  - rewrite (wrapped_shape_length 64 _ ltac:(lia) Hs), Hc. reflexivity.
  - revert Hc. generalize (wrap (b64encode der_bytes) 64). intros lines <-. clear.
    induction lines as [|l [|l' lines] IH].
    + reflexivity.
    + cbn [join concat length]. rewrite app_nil_r. lia.
    + change (join [CR; LF] (l :: l' :: lines))
        with (l ++ [CR; LF] ++ join [CR; LF] (l' :: lines)).
      change (concat (l :: l' :: lines)) with (l ++ concat (l' :: lines)).
      rewrite !length_app, IH. cbn [length]. lia.
Qed.

(** ** More on the text of a keystore *)

(** X12: the text of a keystore is put together from the texts of its
    parts: the private-key entries first, in their order, then the
    trusted certificates; a keystore without entries gives the empty
    text. *)
Theorem keystore_to_pem_app (keys1 keys2 : list (str * PrivateKeyEntry))
    (certs1 certs2 : list (str * TrustedCertEntry)) :
  keystore_to_pem {| private_keys := keys1 ++ keys2; certs := certs1 ++ certs2 |}
  = keystore_to_pem {| private_keys := keys1; certs := [] |}
    ++ keystore_to_pem {| private_keys := keys2; certs := [] |}
    ++ keystore_to_pem {| private_keys := []; certs := certs1 |}
    ++ keystore_to_pem {| private_keys := []; certs := certs2 |}
  /\ keystore_to_pem {| private_keys := []; certs := [] |} = [].
Proof.
  split; [| reflexivity].
  rewrite !keystore_to_pem_blocks. unfold keystore_blocks. cbn [private_keys certs].
  rewrite flat_map_app, map_app. cbn [flat_map map app].
  rewrite !app_nil_r, !blocks_to_pem_app, <- !app_assoc. reflexivity.
Qed.

(** X13: for a keystore without entries [write_pem] ends well and
    leaves an empty output file. *)
Theorem write_pem_empty_keystore (loads : str -> str -> exn + KeyStore)
    (jks_path pw output_path data : str) (w : world) :
  fs w !! jks_path = Some (File data) ->
  loads data pw = inr {| private_keys := []; certs := [] |} ->
  fs w !! output_path <> Some Dir ->
  fst (write_pem loads jks_path pw output_path w) = inr tt
  /\ fs (snd (write_pem loads jks_path pw output_path w)) !! output_path = Some (File []).
Proof.
  intros Hfile Hload Hout. rewrite write_pem_run, Hfile, Hload.
  destruct (fs w !! output_path) as [[old|]|]; try congruence;
    cbn [fst snd fs written]; (split; [reflexivity | apply lookup_insert_eq]).
Qed.

Lemma write_pem_empty_keystore_example :
  fs (snd (write_pem empty_loads "/srv/app/k_certificate" "pssword"
             "/srv/app/k_certificate.pem" damaged_world))
    !! ("/srv/app/k_certificate.pem" : str)
  = Some (File []).
Proof.
  apply (write_pem_empty_keystore empty_loads "/srv/app/k_certificate" "pssword"
           "/srv/app/k_certificate.pem" "damaged" damaged_world);
    try (vm_compute; reflexivity).
  vm_compute. discriminate.
Defined.

(** * Properties of [hops/util.py] *)

(** ** [_find_in_path] and [find_tensorboard] *)

Lemma split_not_nil (c : ascii) (s : str) : split c s <> [].
Proof.
  destruct s as [|x s]; [discriminate |]. cbn [split].
  destruct (Ascii.eqb x c); [discriminate |].
  destruct (split c s); discriminate.
Qed.

(** Splitting what was joined by the separator gives the pieces of both
    parts. *)
Lemma split_app (c : ascii) (a b : str) :
  split c (a ++ [c] ++ b) = split c a ++ split c b.
Proof.
  induction a as [|x a IH].
  - cbn [app split]. now rewrite Ascii.eqb_refl.
  - cbn [app split] in *. rewrite IH.
    destruct (Ascii.eqb x c); [reflexivity |].
    pose proof (split_not_nil c a) as Hne.
    destruct (split c a) as [|piece pieces]; [congruence | reflexivity].
Qed.

Lemma split_join (c : ascii) (parts : list str) :
  parts <> [] -> split c (join [c] parts) = flat_map (split c) parts.
Proof.
  induction parts as [|p [|p' parts] IH]; intros Hne; [congruence | |].
  - cbn [join flat_map]. now rewrite app_nil_r.
  - change (join [c] (p :: p' :: parts)) with (p ++ [c] ++ join [c] (p' :: parts)).
    rewrite split_app, IH by discriminate. reflexivity.
Qed.

Lemma find_in_dirs_app (files : gmap str node) (dirs1 dirs2 : list str) (file : str) :
  find_in_dirs files (dirs1 ++ dirs2) file =
  match find_in_dirs files dirs1 file with
  | Some c => Some c
  | None => find_in_dirs files dirs2 file
  end.
Proof.
  induction dirs1 as [|p dirs1 IH]; [reflexivity |].
  cbn [app find_in_dirs]. destruct (exists_at files (path_join p file)); [reflexivity | exact IH].
Qed.

Lemma find_in_dirs_Some (files : gmap str node) (dirs : list str) (file c : str) :
  find_in_dirs files dirs file = Some c <->
  exists dirs1 p dirs2,
    dirs = dirs1 ++ p :: dirs2
    /\ c = path_join p file
    /\ exists_at files c = true
    /\ Forall (fun q => exists_at files (path_join q file) = false) dirs1.
Proof.
  split.
  - induction dirs as [|p dirs IH]; [discriminate |].
    cbn [find_in_dirs]. destruct (exists_at files (path_join p file)) eqn:E.
    + intros [= <-]. exists [], p, dirs. auto.
    + intros H. destruct (IH H) as (dirs1 & q & dirs2 & -> & -> & Hc & Hf).
      exists (p :: dirs1), q, dirs2. auto.
  - intros (dirs1 & p & dirs2 & -> & -> & Hc & Hf).
    induction Hf as [|q dirs1 Hq Hf IH].
    + cbn [app find_in_dirs]. now rewrite Hc.
    + cbn [app find_in_dirs]. now rewrite Hq.
Qed.

Lemma find_in_dirs_None (files : gmap str node) (dirs : list str) (file : str) :
  find_in_dirs files dirs file = None <->
  Forall (fun q => exists_at files (path_join q file) = false) dirs.
Proof.
  induction dirs as [|p dirs IH]; [split; [constructor | reflexivity] |].
  cbn [find_in_dirs]. destruct (exists_at files (path_join p file)) eqn:E.
  - split; [discriminate |]. intros H. inversion H; congruence.
  - rewrite IH. split; [intros H; now constructor | intros H; now inversion H].
Qed.

(** What [_find_in_path] finds exists, and it finds nothing exactly
    when no piece of the path has the file. *)
Lemma _find_in_path_first_aux (files : gmap str node) (path file : str) :
  (forall c : str, _find_in_path files path file = Some c -> is_Some (files !! c))
  /\ (_find_in_path files path file = None <->
      Forall (fun q => files !! path_join q file = None) (split pathsep path)).
Proof.
  unfold _find_in_path. split.
  - intros c H. apply find_in_dirs_Some in H.
    destruct H as (_ & p & _ & _ & -> & He & _). now apply bool_decide_eq_true in He.
  - rewrite find_in_dirs_None, !List.Forall_forall.
    split; intros H q Hq; specialize (H q Hq); unfold exists_at in *.
    + apply bool_decide_eq_false in H. now apply eq_None_not_Some.
    + apply bool_decide_eq_false. now apply eq_None_not_Some.
Qed.

(** X14: [_find_in_path] gives the candidate of the first piece of the
    path under which the file exists: the candidate exists and no piece
    before it has the file. It gives [False] exactly when no piece of
    the path has the file. *)
Theorem _find_in_path_first (files : gmap str node) (path file : str) :
  (forall c : str,
      _find_in_path files path file = Some c <->
      exists dirs1 p dirs2,
        split pathsep path = dirs1 ++ p :: dirs2
        /\ c = path_join p file
        /\ is_Some (files !! c)
        /\ Forall (fun q => files !! path_join q file = None) dirs1)
  /\ (_find_in_path files path file = None <->
      Forall (fun q => files !! path_join q file = None) (split pathsep path)).
Proof.
  assert (Hex : forall p, exists_at files p = true <-> is_Some (files !! p))
    by (intros p; apply bool_decide_eq_true).
  assert (Hnx : forall p, exists_at files p = false <-> files !! p = None).
  { intros p. unfold exists_at. rewrite bool_decide_eq_false.
    rewrite <- eq_None_not_Some. reflexivity. }
  assert (Hall : forall dirs,
    Forall (fun q => exists_at files (path_join q file) = false) dirs
    <-> Forall (fun q => files !! path_join q file = None) dirs).
  { intros dirs. rewrite !List.Forall_forall.
    split; intros H q Hq; apply Hnx, H, Hq. }
  unfold _find_in_path. split.
  - intros c. rewrite find_in_dirs_Some. split.
    + intros (d1 & p & d2 & Hs & Hc & He & Hf). exists d1, p, d2.
      rewrite <- Hex, <- Hall. auto.
    + intros (d1 & p & d2 & Hs & Hc & He & Hf). exists d1, p, d2.
      rewrite Hex, Hall. auto.
  - now rewrite find_in_dirs_None, Hall.
Qed.

(** X15: a search path that is joined from two paths is searched in
    that order: the second path is looked at only when the first one
    gives nothing. *)
Theorem _find_in_path_join (files : gmap str node) (path1 path2 file : str) :
  _find_in_path files (join [pathsep] [path1; path2]) file =
  match _find_in_path files path1 file with
  | Some c => Some c
  | None => _find_in_path files path2 file
  end.
Proof.
  unfold _find_in_path. rewrite split_join by discriminate.
  cbn [flat_map]. rewrite app_nil_r. apply find_in_dirs_app.
Qed.

(** X16: for a file name that begins with a slash the pieces of the
    path do not matter: the file itself is the only candidate. *)
Theorem _find_in_path_absolute (files : gmap str node) (path file : str) :
  _find_in_path files path (sep :: file) =
  if bool_decide (is_Some (files !! (sep :: file))) then Some (sep :: file) else None.
Proof.
  unfold _find_in_path. pose proof (split_not_nil pathsep path) as Hne.
  assert (Hj : forall p, path_join p (sep :: file) = sep :: file).
  { intros p. unfold path_join. now rewrite Ascii.eqb_refl. }
  induction (split pathsep path) as [|p dirs IH]; [congruence |].
  cbn [find_in_dirs]. rewrite Hj. unfold exists_at.
  destruct (bool_decide (is_Some (files !! (sep :: file)))) eqn:E; [reflexivity |].
  destruct dirs as [|q dirs]; [reflexivity |].
  rewrite IH by discriminate. reflexivity.
Qed.

Lemma path_join_not_nil (p file : str) : file <> [] -> path_join p file <> [].
Proof.
  intros Hne. unfold path_join.
  destruct file as [|x file]; [congruence |].
  destruct (Ascii.eqb x sep); [discriminate |].
  destruct (is_nil p || _); destruct p; discriminate.
Qed.

Lemma find_in_dirs_not_nil (files : gmap str node) (dirs : list str) (file c : str) :
  file <> [] -> find_in_dirs files dirs file = Some c -> c <> [].
Proof.
  intros Hne H. apply find_in_dirs_Some in H.
  destruct H as (_ & p & _ & _ & -> & _). now apply path_join_not_nil.
Qed.

(** The search of [find_tensorboard] once its three variables are
    read. *)
Lemma find_tensorboard_search (environ : gmap str str) (files : gmap str node)
    (pypath path pythonpath : str) :
  environ !! ("PYSPARK_PYTHON" : str) = Some pypath ->
  environ !! ("PATH" : str) = Some path ->
  environ !! ("PYTHONPATH" : str) = Some pythonpath ->
  find_tensorboard environ files =
  match _find_in_path files (dirname pypath) "tensorboard" with
  | Some c => inr c
  | None =>
      match _find_in_path files path "tensorboard" with
      | Some c => inr c
      | None =>
          match _find_in_path files pythonpath "tensorboard" with
          | Some c => inr c
          | None =>
              inl (UtilException ("Unable to find 'tensorboard' in: "
                                  ++ join [pathsep] [dirname pypath; path; pythonpath]))
          end
      end
  end.
Proof.
  intros H1 H2 H3. unfold find_tensorboard. rewrite H1, H2, H3.
  assert (Hs : _find_in_path files (join [pathsep] [dirname pypath; path; pythonpath])
                 "tensorboard"
               = match _find_in_path files (dirname pypath) "tensorboard" with
                 | Some c => Some c
                 | None =>
                     match _find_in_path files path "tensorboard" with
                     | Some c => Some c
                     | None => _find_in_path files pythonpath "tensorboard"
                     end
                 end).
  { unfold _find_in_path. rewrite split_join by discriminate.
    cbn [flat_map]. rewrite app_nil_r, !find_in_dirs_app. reflexivity. }
  rewrite Hs.
  assert (Hn : forall p c, _find_in_path files p "tensorboard" = Some c ->
                           exists x c', c = x :: c').
  { intros p c Hc. apply find_in_dirs_not_nil in Hc; [| discriminate].
    destruct c as [|x c']; [congruence | eauto]. }
  destruct (_find_in_path files (dirname pypath) "tensorboard") as [c|] eqn:E1.
  { destruct (Hn _ _ E1) as (x & c' & ->). reflexivity. }
  destruct (_find_in_path files path "tensorboard") as [c|] eqn:E2.
  { destruct (Hn _ _ E2) as (x & c' & ->). reflexivity. }
  destruct (_find_in_path files pythonpath "tensorboard") as [c|] eqn:E3.
  { destruct (Hn _ _ E3) as (x & c' & ->). reflexivity. }
  reflexivity.
Qed.

(** X17: [find_tensorboard] returns a path exactly when its three
    environment variables are set and a [tensorboard] is found; the
    directory of the Python interpreter is searched first, then [PATH],
    then [PYTHONPATH], and what is returned exists. *)
Theorem find_tensorboard_found (environ : gmap str str) (files : gmap str node) (tb : str) :
  find_tensorboard environ files = inr tb <->
  exists pypath path pythonpath,
    environ !! ("PYSPARK_PYTHON" : str) = Some pypath
    /\ environ !! ("PATH" : str) = Some path
    /\ environ !! ("PYTHONPATH" : str) = Some pythonpath
    /\ is_Some (files !! tb)
    /\ (_find_in_path files (dirname pypath) "tensorboard" = Some tb
        \/ (_find_in_path files (dirname pypath) "tensorboard" = None
            /\ _find_in_path files path "tensorboard" = Some tb)
        \/ (_find_in_path files (dirname pypath) "tensorboard" = None
            /\ _find_in_path files path "tensorboard" = None
            /\ _find_in_path files pythonpath "tensorboard" = Some tb)).
Proof.
  assert (Hex : forall p c, _find_in_path files p "tensorboard" = Some c ->
                            is_Some (files !! c)).
  { intros p c Hc. apply (proj1 (_find_in_path_first_aux files p "tensorboard")) in Hc.
    exact Hc. }
  split.
  - intros H.
    destruct (environ !! ("PYSPARK_PYTHON" : str)) as [pypath|] eqn:E1;
      [| unfold find_tensorboard in H; rewrite E1 in H; discriminate].
    destruct (environ !! ("PATH" : str)) as [path|] eqn:E2;
      [| unfold find_tensorboard in H; rewrite E1, E2 in H; discriminate].
    destruct (environ !! ("PYTHONPATH" : str)) as [pythonpath|] eqn:E3;
      [| unfold find_tensorboard in H; rewrite E1, E2, E3 in H; discriminate].
    rewrite (find_tensorboard_search environ files pypath path pythonpath E1 E2 E3) in H.
    exists pypath, path, pythonpath. repeat (split; [reflexivity |]).
    destruct (_find_in_path files (dirname pypath) "tensorboard") as [c|] eqn:F1.
    { injection H as ->. split; [eapply Hex; eauto | auto]. }
    destruct (_find_in_path files path "tensorboard") as [c|] eqn:F2.
    { injection H as ->. split; [eapply Hex; eauto | auto]. }
    destruct (_find_in_path files pythonpath "tensorboard") as [c|] eqn:F3.
    { injection H as ->. split; [eapply Hex; eauto | auto 6]. }
    discriminate.
  - intros (pypath & path & pythonpath & E1 & E2 & E3 & _ & H).
    rewrite (find_tensorboard_search environ files pypath path pythonpath E1 E2 E3).
    destruct H as [F1 | [[F1 F2] | (F1 & F2 & F3)]].
    + now rewrite F1.
    + now rewrite F1, F2.
    + now rewrite F1, F2, F3.
Qed.

(** X18: the failures of [find_tensorboard]: it fails on the unset
    interpreter variable before anything else, on an unset [PATH] or
    [PYTHONPATH] before it searches, [PATH] first, and with its own
    exception exactly when all three are set and no directory of the
    three has a [tensorboard]. *)
Theorem find_tensorboard_failures (environ : gmap str str) (files : gmap str node) :
  (find_tensorboard environ files = inl TypeError
   <-> environ !! ("PYSPARK_PYTHON" : str) = None)
  /\ (forall key : str,
        find_tensorboard environ files = inl (KeyError key)
        <-> is_Some (environ !! ("PYSPARK_PYTHON" : str))
            /\ ((key = "PATH" /\ environ !! ("PATH" : str) = None)
                \/ (key = "PYTHONPATH" /\ is_Some (environ !! ("PATH" : str))
                    /\ environ !! ("PYTHONPATH" : str) = None)))
  /\ (forall msg : str,
        find_tensorboard environ files = inl (UtilException msg)
        <-> exists pypath path pythonpath,
              environ !! ("PYSPARK_PYTHON" : str) = Some pypath
              /\ environ !! ("PATH" : str) = Some path
              /\ environ !! ("PYTHONPATH" : str) = Some pythonpath
              /\ msg = "Unable to find 'tensorboard' in: "
                       ++ dirname pypath ++ [pathsep] ++ path ++ [pathsep] ++ pythonpath
              /\ Forall (fun q => files !! path_join q "tensorboard" = None)
                   (split pathsep (dirname pypath) ++ split pathsep path
                    ++ split pathsep pythonpath)).
Proof.
  destruct (environ !! ("PYSPARK_PYTHON" : str)) as [pypath|] eqn:E1.
  2: { unfold find_tensorboard. rewrite E1. split; [| split].
       - split; reflexivity || auto.
       - intros key. split; [discriminate |]. intros [[? ?] _]. discriminate.
       - intros msg. split; [discriminate |].
         intros (? & ? & ? & ? & _). discriminate. }
  destruct (environ !! ("PATH" : str)) as [path|] eqn:E2.
  2: { unfold find_tensorboard. rewrite E1, E2. split; [| split].
       - split; discriminate.
       - intros key. split.
         + intros [= <-]. split; [eauto | auto].
         + intros [_ [[-> _] | [_ [[? ?] _]]]]; [reflexivity | discriminate].
       - intros msg. split; [discriminate |].
         intros (? & ? & ? & _ & ? & _). discriminate. }
  destruct (environ !! ("PYTHONPATH" : str)) as [pythonpath|] eqn:E3.
  2: { unfold find_tensorboard. rewrite E1, E2, E3. split; [| split].
       - split; discriminate.
       - intros key. split.
         + intros [= <-]. split; [eauto | right; eauto].
         + intros [_ [[_ ?] | [-> _]]]; [discriminate | reflexivity].
       - intros msg. split; [discriminate |].
         intros (? & ? & ? & _ & _ & ? & _). discriminate. }
  rewrite (find_tensorboard_search environ files pypath path pythonpath E1 E2 E3).
  assert (Hnone : forall p,
    _find_in_path files p "tensorboard" = None
    <-> Forall (fun q => files !! path_join q "tensorboard" = None) (split pathsep p))
    by (intros p; apply _find_in_path_first_aux).
  assert (Hkey : forall (r : util_exn + str) (key : str),
    (forall k, r <> inl (KeyError k)) ->
    (r = inl (KeyError key)
     <-> is_Some (Some pypath)
         /\ ((key = "PATH" /\ Some path = None)
             \/ (key = "PYTHONPATH" /\ is_Some (Some path) /\ Some pythonpath = None)))).
  { intros r key Hr. split; [intros H; now apply Hr in H |].
    intros [_ [[_ ?] | [_ [_ ?]]]]; discriminate. }
  assert (Hall : forall p1 p2 p3 : str,
    Forall (fun q => files !! path_join q "tensorboard" = None)
      (split pathsep p1 ++ split pathsep p2 ++ split pathsep p3)
    <-> _find_in_path files p1 "tensorboard" = None
        /\ _find_in_path files p2 "tensorboard" = None
        /\ _find_in_path files p3 "tensorboard" = None).
  { intros p1 p2 p3. rewrite !List.Forall_app, !Hnone. reflexivity. }
  assert (Hfound : forall c : str,
    (_find_in_path files (dirname pypath) "tensorboard" = None
     /\ _find_in_path files path "tensorboard" = None
     /\ _find_in_path files pythonpath "tensorboard" = None -> False) ->
    (inr c = inl TypeError <-> Some pypath = None)
    /\ (forall key : str,
          @inr util_exn str c = inl (KeyError key)
          <-> is_Some (Some pypath)
              /\ ((key = "PATH" /\ Some path = None)
                  \/ (key = "PYTHONPATH" /\ is_Some (Some path) /\ Some pythonpath = None)))
    /\ (forall msg : str,
          @inr util_exn str c = inl (UtilException msg)
          <-> exists pypath0 path0 pythonpath0,
                Some pypath = Some pypath0
                /\ Some path = Some path0
                /\ Some pythonpath = Some pythonpath0
                /\ msg = "Unable to find 'tensorboard' in: "
                         ++ dirname pypath0 ++ [pathsep] ++ path0 ++ [pathsep] ++ pythonpath0
                /\ Forall (fun q => files !! path_join q "tensorboard" = None)
                     (split pathsep (dirname pypath0) ++ split pathsep path0
                      ++ split pathsep pythonpath0))).
  { intros c Hc. split; [split; discriminate |]. split.
    - intros key. apply Hkey. discriminate.
    - intros msg. split; [discriminate |].
      intros (p1 & p2 & p3 & [= <-] & [= <-] & [= <-] & _ & Hf).
      apply Hall in Hf. contradiction. }
  destruct (_find_in_path files (dirname pypath) "tensorboard") as [c|] eqn:F1.
  { apply Hfound. intros (? & _). discriminate. }
  destruct (_find_in_path files path "tensorboard") as [c|] eqn:F2.
  { apply Hfound. intros (_ & ? & _). discriminate. }
  destruct (_find_in_path files pythonpath "tensorboard") as [c|] eqn:F3.
  { apply Hfound. intros (_ & _ & ?). discriminate. }
  split; [split; discriminate |]. split.
  - intros key. apply Hkey. discriminate.
  - intros msg. split.
    + intros [= <-]. exists pypath, path, pythonpath.
      do 3 (split; [reflexivity |]). split.
      * reflexivity.
      * apply Hall. rewrite F1, F2, F3. auto.
    + intros (p1 & p2 & p3 & [= <-] & [= <-] & [= <-] & -> & _).
      reflexivity.
Qed.

(** ** [grid_params] *)

Section GridFacts.

Context {V : Type}.

Lemma fold_left_snoc (column0 acc : list V) :
  fold_left (fun args_arr val => args_arr ++ [val]) column0 acc = acc ++ column0.
Proof.
  revert acc. induction column0 as [|x l IH]; intros acc.
  - now rewrite app_nil_r.
  - cbn [fold_left]. rewrite IH, <- app_assoc. reflexivity.
Qed.

Lemma dict_get_in {W : Type} (d : list (str * W)) (k : str) (v : W) :
  List.NoDup (map fst d) -> In (k, v) d -> dict_get d k = Some v.
Proof.
  induction d as [|[k' v'] d IH]; intros Hnd Hin; [destruct Hin |].
  cbn [map fst] in Hnd. apply List.NoDup_cons_iff in Hnd. destruct Hnd as [Hk Hnd].
  cbn [dict_get]. destruct Hin as [[= -> ->] | Hin].
  - now rewrite bool_decide_eq_true_2.
  - rewrite bool_decide_eq_false_2; [now apply IH |].
    intros ->. apply Hk. now apply (in_map fst) in Hin.
Qed.

Lemma grid_values_items (d : list (str * list V)) :
  List.NoDup (map fst d) ->
  forall (d' : list (str * list V)) (val_arr : list (list V)),
    incl d' d ->
    grid_values d (map fst d') val_arr = inr (val_arr ++ map snd d').
Proof.
  intros Hnd. induction d' as [|[k v] d' IH]; intros val_arr Hincl.
  - cbn. now rewrite app_nil_r.
  - cbn [map fst snd grid_values].
    rewrite (dict_get_in d k v Hnd) by (apply Hincl; now left).
    rewrite IH by (intros x Hx; apply Hincl; now right).
    now rewrite <- app_assoc.
Qed.

Lemma dict_set_fresh {W : Type} (d : list (str * W)) (key : str) (v : W) :
  ~ In key (map fst d) -> dict_set d key v = d ++ [(key, v)].
Proof.
  induction d as [|[k v'] d IH]; intros Hk; [reflexivity |].
  cbn [dict_set map fst] in *.
  rewrite bool_decide_eq_false_2 by (intros ->; apply Hk; now left).
  rewrite IH by (intros H; apply Hk; now right). reflexivity.
Qed.

(** *** The cartesian product *)

Lemma in_product (pools : list (list V)) (p : list V) :
  In p (product pools) <-> Forall2 (fun x pool => In x pool) p pools.
Proof.
  revert p. induction pools as [|pool pools IH]; intros p.
  - cbn. split.
    + intros [<- | []]. constructor.
    + intros H. inversion H. now left.
  - cbn [product]. rewrite in_flat_map. split.
    + intros (x & Hx & Hp). apply in_map_iff in Hp. destruct Hp as (q & <- & Hq).
      constructor; [exact Hx | now apply IH].
    + intros H. inversion H as [|x pool' q pools' Hx Hq]; subst.
      exists x. split; [exact Hx |]. apply in_map_iff. exists q.
      split; [reflexivity | now apply IH].
Qed.

Lemma length_product (pools : list (list V)) :
  length (product pools) = product_size pools.
Proof.
  induction pools as [|pool pools IH]; [reflexivity |].
  cbn [product product_size fold_right]. fold (product_size pools). rewrite <- IH.
  induction pool as [|x pool IHp]; [reflexivity |].
  cbn [flat_map length]. rewrite length_app, length_map, IHp. lia.
Qed.

Lemma product_rows (pools : list (list V)) :
  Forall (fun p => length p = length pools) (product pools).
Proof.
  apply List.Forall_forall. intros p Hp. apply in_product in Hp.
  now apply List.Forall2_length in Hp.
Qed.

Lemma product_nil (pools : list (list V)) :
  product pools = [] <-> Exists (fun pool => pool = []) pools.
Proof.
  rewrite <- length_zero_iff_nil, length_product.
  induction pools as [|pool pools IH].
  - cbn. split; [discriminate | intros H; inversion H].
  - cbn [product_size fold_right]. fold (product_size pools).
    rewrite List.Exists_cons, <- IH, <- length_zero_iff_nil. nia.
Qed.

Lemma NoDup_map_cons (x : V) (l : list (list V)) :
  List.NoDup l -> List.NoDup (map (cons x) l).
Proof.
  induction 1 as [|p l Hp Hl IH]; [constructor |].
  cbn [map]. constructor; [| exact IH].
  intros H. apply in_map_iff in H. destruct H as (q & [= ->] & Hq). contradiction.
Qed.

Lemma NoDup_product (pools : list (list V)) :
  Forall (fun pool => List.NoDup pool) pools -> List.NoDup (product pools).
Proof.
  induction 1 as [|pool pools Hpool Hpools IH].
  - cbn. constructor; [intros [] | constructor].
  - cbn [product]. induction Hpool as [|x pool Hx Hpool IHp].
    + constructor.
    + cbn [flat_map]. apply List.NoDup_app.
      * now apply NoDup_map_cons.
      * exact IHp.
      * intros p Hp1 Hp2.
        apply in_map_iff in Hp1. destruct Hp1 as (q & <- & _).
        apply in_flat_map in Hp2. destruct Hp2 as (y & Hy & Hq).
        apply in_map_iff in Hq. destruct Hq as (q' & [= -> _] & _).
        contradiction.
Qed.

(** *** Columns *)

Lemma heads_column (rows : list (list V)) :
  Forall (fun r => 1 <= length r) rows -> heads rows = Some (column 0 rows).
Proof.
  induction 1 as [|r rows Hr Hrows IH]; [reflexivity |].
  destruct r as [|x r]; [simpl in Hr; lia |].
  cbn [heads]. rewrite IH. reflexivity.
Qed.

Lemma column_tl (j : nat) (rows : list (list V)) :
  column j (map (@tl V) rows) = column (S j) rows.
Proof.
  unfold column. induction rows as [|r rows IH]; [reflexivity |].
  cbn [map flat_map]. rewrite IH. destruct r; [destruct j |]; reflexivity.
Qed.

Lemma zip_rows_columns (n : nat) :
  forall rows : list (list V),
    Forall (fun r => n <= length r) rows ->
    zip_rows n rows = map (fun j => column j rows) (seq 0 n).
Proof.
  induction n as [|n IH]; intros rows Hrows; [reflexivity |].
  cbn [zip_rows]. rewrite heads_column.
  - cbn [seq map]. f_equal. rewrite IH.
    + rewrite <- seq_shift, map_map. apply map_ext. intros j. apply column_tl.
    + apply List.Forall_map. eapply List.Forall_impl; [| exact Hrows].
      intros r Hr. destruct r; cbn [tl length] in *; lia.
  - eapply List.Forall_impl; [| exact Hrows]. cbn beta. intros; lia.
Qed.

Lemma zip_star_product (pools : list (list V)) :
  Forall (fun pool => pool <> []) pools ->
  zip_star (product pools) = map (fun j => column j (product pools)) (seq 0 (length pools)).
Proof.
  intros Hne. pose proof (product_rows pools) as Hrows.
  destruct (product pools) as [|p rows] eqn:E.
  - apply product_nil in E. apply List.Exists_exists in E. destruct E as (pool & Hin & ->).
    rewrite List.Forall_forall in Hne. now destruct (Hne _ Hin).
  - cbn [zip_star]. inversion Hrows as [|? ? Hp _]; subst. rewrite Hp.
    apply zip_rows_columns. eapply List.Forall_impl; [| exact Hrows].
    cbn beta. intros; lia.
Qed.

Lemma nth_error_column (j : nat) (rows : list (list V)) :
  Forall (fun r => j < length r) rows ->
  forall i, nth_error (column j rows) i =
            match nth_error rows i with
            | Some r => nth_error r j
            | None => None
            end.
Proof.
  unfold column. induction 1 as [|r rows Hr Hrows IH]; intros i.
  - destruct i; reflexivity.
  - cbn [flat_map]. destruct (nth_error r j) as [x|] eqn:E.
    + destruct i as [|i]; cbn [app nth_error]; [now rewrite E | apply IH].
    + apply nth_error_None in E. lia.
Qed.

Lemma length_column (j : nat) (rows : list (list V)) :
  Forall (fun r => j < length r) rows -> length (column j rows) = length rows.
Proof.
  unfold column. induction 1 as [|r rows Hr Hrows IH]; [reflexivity |].
  cbn [flat_map]. destruct (nth_error r j) eqn:E.
  - cbn [app length]. now rewrite IH.
  - apply nth_error_None in E. lia.
Qed.

(** *** The second loop *)

Lemma grid_columns_ok (permutations : list (list V)) :
  forall (keys : list str) (slice_index : nat) (args_dict : list (str * list V)),
    List.NoDup keys ->
    (forall k, In k keys -> ~ In k (map fst args_dict)) ->
    slice_index + length keys <= length (zip_star permutations) ->
    grid_columns permutations keys slice_index args_dict =
    inr (args_dict
         ++ combine keys (firstn (length keys) (skipn slice_index (zip_star permutations)))).
Proof.
  induction keys as [|key keys IH]; intros idx acc Hnd Hfresh Hlen.
  - cbn. now rewrite app_nil_r.
  - apply List.NoDup_cons_iff in Hnd. destruct Hnd as [Hkey Hnd].
    cbn [grid_columns length] in *.
    destruct (nth_error (zip_star permutations) idx) as [col|] eqn:E;
      [| apply nth_error_None in E; lia].
    rewrite fold_left_snoc, app_nil_l.
    rewrite dict_set_fresh by (apply Hfresh; now left).
    rewrite IH.
    + rewrite <- app_assoc. do 2 f_equal.
      assert (Hs : skipn idx (zip_star permutations)
                   = col :: skipn (idx + 1) (zip_star permutations)).
      { clear - E. revert idx E. induction (zip_star permutations) as [|c l IHl];
          intros idx E; [destruct idx; discriminate |].
        destruct idx as [|idx]; [injection E as ->; reflexivity |].
        cbn [skipn Nat.add]. apply IHl. exact E. }
      rewrite Hs. reflexivity.
    + exact Hnd.
    + intros k Hk. rewrite map_app, in_app_iff. cbn [map fst In].
      intros [H | [<- | []]]; [| contradiction].
      apply (Hfresh k); [now right | exact H].
    + lia.
Qed.

End GridFacts.

Lemma grid_params_run {V : Type} (dict : list (str * list V)) :
  List.NoDup (map fst dict) ->
  grid_params dict = grid_columns (product (map snd dict)) (map fst dict) 0 [].
Proof.
  intros Hnd. unfold grid_params.
  rewrite (grid_values_items dict Hnd dict []) by (intros x Hx; exact Hx).
  reflexivity.
Qed.

Lemma grid_params_columns {V : Type} (dict : list (str * list V)) :
  List.NoDup (map fst dict) ->
  Forall (fun item => snd item <> []) dict ->
  grid_params dict =
  inr (combine (map fst dict)
         (map (fun j => column j (product (map snd dict))) (seq 0 (length dict)))).
Proof.
  intros Hnd Hne. rewrite grid_params_run by exact Hnd.
  assert (Hz : zip_star (product (map snd dict))
               = map (fun j => column j (product (map snd dict))) (seq 0 (length dict))).
  { rewrite zip_star_product, length_map; [reflexivity |].
    apply List.Forall_map. exact Hne. }
  rewrite grid_columns_ok.
  - rewrite Hz, skipn_O, app_nil_l, !length_map.
    rewrite firstn_all2 by (rewrite length_map, length_seq; lia). reflexivity.
  - exact Hnd.
  - intros k _ [].
  - rewrite Hz, !length_map, length_seq. lia.
Qed.

Lemma map_fst_combine_same {A B : Type} (l : list A) (l' : list B) :
  length l = length l' -> map fst (combine l l') = l.
Proof.
  revert l'. induction l as [|x l IH]; intros l' Hlen; [reflexivity |].
  destruct l' as [|y l']; [discriminate |].
  cbn [combine map fst]. f_equal. apply IH. now injection Hlen.
Qed.

Lemma map_snd_combine_same {A B : Type} (l : list A) (l' : list B) :
  length l = length l' -> map snd (combine l l') = l'.
Proof.
  revert l'. induction l as [|x l IH]; intros l' Hlen.
  - destruct l'; [reflexivity | discriminate].
  - destruct l' as [|y l']; [discriminate |].
    cbn [combine map snd]. f_equal. apply IH. now injection Hlen.
Qed.

Lemma nth_error_map_seq {A : Type} (f : nat -> A) (n : nat) :
  forall (start j : nat) (c : A),
    nth_error (map f (seq start n)) j = Some c -> c = f (start + j).
Proof.
  induction n as [|n IH]; intros start j c H.
  - destruct j; discriminate.
  - cbn [seq map] in H. destruct j as [|j].
    + cbn in H. injection H as <-. now rewrite Nat.add_0_r.
    + cbn [nth_error] in H. apply IH in H. rewrite H. f_equal. lia.
Qed.

Lemma nth_error_columns {V : Type} (rows : list (list V)) (n j : nat) (c : list V) :
  nth_error (map (fun j => column j rows) (seq 0 n)) j = Some c -> c = column j rows.
Proof. intros H. now apply nth_error_map_seq in H. Qed.

(** X19: for a dictionary whose lists are all non-empty, [grid_params]
    gives a dictionary with the same keys in the same order, and the
    list under the [j]-th key holds the [j]-th value of every
    combination of [itertools.product], combination by combination. *)
Theorem grid_params_grid {V : Type} (dict : list (str * list V)) :
  List.NoDup (map fst dict) ->
  Forall (fun item => snd item <> []) dict ->
  exists args_dict,
    grid_params dict = inr args_dict
    /\ map fst args_dict = map fst dict
    /\ forall (j : nat) (key : str) (args_arr : list V),
         nth_error args_dict j = Some (key, args_arr) ->
         args_arr = column j (product (map snd dict)).
Proof.
  intros Hnd Hne. eexists. split; [apply grid_params_columns; assumption |].
  assert (Hlen : length (map fst dict)
                 = length (map (fun j => column j (product (map snd dict)))
                             (seq 0 (length dict))))
    by (now rewrite !length_map, length_seq).
  split; [now apply map_fst_combine_same |].
  intros j key args_arr Hj.
  apply (f_equal (option_map snd)) in Hj.
  rewrite <- nth_error_map, (map_snd_combine_same _ _ Hlen) in Hj.
  cbn [option_map snd] in Hj. now apply nth_error_columns in Hj.
Qed.

Lemma grid_params_grid_example :
  exists args_dict,
    grid_params example_grid = inr args_dict
    /\ map fst args_dict = ["learning_rate" : str; "dropout" : str].
Proof.
  destruct (grid_params_grid example_grid) as (args_dict & Hrun & Hkeys & _).
  - repeat constructor; cbn; intros H; repeat (destruct H as [H | H]; try discriminate);
      exact H.
  - repeat constructor; discriminate.
  - exists args_dict. split; [exact Hrun | exact Hkeys].
Defined.

Lemma map_nth_error_seq {A : Type} (p : list A) :
  map (nth_error p) (seq 0 (length p)) = map Some p.
Proof.
  induction p as [|x p IH]; [reflexivity |].
  cbn [length seq map nth_error]. f_equal.
  rewrite <- seq_shift, map_map. exact IH.
Qed.

(** X20: in the result of [grid_params] all lists have the same
    length, the number of combinations; read across at one index they
    give one combination, the one [itertools.product] has at that
    index; and every choice of one value per key is found at some
    index. *)
Theorem grid_params_combinations {V : Type} (dict : list (str * list V)) :
  List.NoDup (map fst dict) ->
  Forall (fun item => snd item <> []) dict ->
  exists args_dict,
    grid_params dict = inr args_dict
    /\ Forall (fun item => length (snd item) = product_size (map snd dict)) args_dict
    /\ (forall (i : nat) (p : list V),
          nth_error (product (map snd dict)) i = Some p ->
          map (fun item => nth_error (snd item) i) args_dict = map Some p)
    /\ (forall p : list V,
          Forall2 (fun x item => In x (snd item)) p dict ->
          exists i, i < product_size (map snd dict)
                    /\ map (fun item => nth_error (snd item) i) args_dict = map Some p).
Proof.
  intros Hnd Hne. eexists. split; [apply grid_params_columns; assumption |].
  set (rows := product (map snd dict)).
  set (cols := map (fun j => column j rows) (seq 0 (length dict))).
  assert (Hlen : length (map fst dict) = length cols)
    by (subst cols; now rewrite !length_map, length_seq).
  assert (Hrows : Forall (fun p => length p = length dict) rows).
  { subst rows. pose proof (product_rows (map snd dict)) as H.
    now rewrite length_map in H. }
  assert (Hlt : forall j, j < length dict -> Forall (fun r => j < length r) rows).
  { intros j Hj. eapply List.Forall_impl; [| exact Hrows]. cbn beta. intros; lia. }
  assert (Hrow : forall i p, nth_error rows i = Some p ->
    map (fun item => nth_error (snd item) i) (combine (map fst dict) cols) = map Some p).
  { intros i p Hp.
    rewrite <- (map_map snd (fun col => nth_error col i)).
    rewrite (map_snd_combine_same _ _ Hlen). subst cols. rewrite map_map.
    assert (Hpl : length p = length dict).
    { rewrite List.Forall_forall in Hrows. apply Hrows. eapply nth_error_In, Hp. }
    rewrite <- map_nth_error_seq, Hpl. apply map_ext_in. intros j Hj.
    apply in_seq in Hj. rewrite nth_error_column by (apply Hlt; lia).
    now rewrite Hp. }
  split; [| split].
  - apply List.Forall_forall. intros [k col] Hin.
    apply in_combine_r in Hin. subst cols. apply in_map_iff in Hin.
    destruct Hin as (j & <- & Hj). apply in_seq in Hj. cbn [snd].
    rewrite length_column by (apply Hlt; lia).
    subst rows. apply length_product.
  - exact Hrow.
  - intros p Hp.
    assert (Hin : In p rows).
    { subst rows. apply in_product. clear - Hp.
      induction Hp; cbn [map]; constructor; auto. }
    apply In_nth_error in Hin. destruct Hin as [i Hi]. exists i. split.
    + rewrite <- (length_product (map snd dict)). apply nth_error_Some. fold rows. congruence.
    + now apply Hrow.
Qed.

Lemma grid_params_combinations_example :
  exists args_dict,
    grid_params example_grid = inr args_dict
    /\ Forall (fun item => length (snd item) = 6) args_dict.
Proof.
  destruct (grid_params_combinations example_grid) as (args_dict & Hrun & Hlen & _).
  - repeat constructor; cbn; intros H; repeat (destruct H as [H | H]; try discriminate);
      exact H.
  - repeat constructor; discriminate.
  - exists args_dict. split; [exact Hrun | exact Hlen].
Defined.

Lemma nonempty_or_empty {V : Type} (dict : list (str * list V)) :
  Forall (fun item => snd item <> []) dict \/ Exists (fun item => snd item = []) dict.
Proof.
  induction dict as [|[k v] dict [IH | IH]].
  - left. constructor.
  - destruct v as [|x v].
    + right. now left.
    + left. constructor; [discriminate | exact IH].
  - right. now right.
Qed.

(** X21: [grid_params] fails, and then with [IndexError], exactly
    when the dictionary has a key and the list of some key is empty: an
    empty list leaves no combination, and the first column is asked of
    an empty list of columns. An empty dictionary gives an empty
    dictionary. *)
Theorem grid_params_index_error {V : Type} (dict : list (str * list V)) :
  List.NoDup (map fst dict) ->
  (forall e : util_exn,
      grid_params dict = inl e <->
      e = IndexError /\ Exists (fun item => snd item = []) dict)
  /\ (dict = [] -> grid_params dict = inr []).
Proof.
  intros Hnd. split; [| intros ->; reflexivity].
  intros e. destruct (nonempty_or_empty dict) as [Hne | Hex].
  - rewrite grid_params_columns by assumption. split; [discriminate |].
    intros [_ Hex]. apply List.Exists_exists in Hex. destruct Hex as (item & Hin & Hitem).
    rewrite List.Forall_forall in Hne. now destruct (Hne item Hin).
  - rewrite grid_params_run by exact Hnd.
    assert (Hp : product (map snd dict) = []).
    { apply product_nil. apply List.Exists_exists in Hex.
      destruct Hex as (item & Hin & Hitem). apply List.Exists_exists.
      exists (snd item). split; [now apply in_map | exact Hitem]. }
    rewrite Hp. destruct dict as [|[k v] dict]; [inversion Hex |].
    cbn. split; [intros [= <-]; auto | intros [-> _]; reflexivity].
Qed.

Lemma grid_params_index_error_example :
  grid_params [("learning_rate" : str, [1; 10]); ("dropout" : str, @nil nat)]
  = inl IndexError.
Proof.
  apply (grid_params_index_error [("learning_rate" : str, [1; 10]); ("dropout" : str, @nil nat)]).
  - repeat constructor; cbn; intros H; repeat (destruct H as [H | H]; try discriminate);
      exact H.
  - split; [reflexivity |]. right. now left.
Defined.

(** ** [hops/experiment.py]: rules for statements *)

(** [str] of an integer tells the integer. *)
Lemma str_of_Z_inj (n m : Z) : str_of_Z n = str_of_Z m -> n = m.
Proof.
  unfold str_of_Z. intros H.
  apply (f_equal string_of_list_ascii) in H.
  rewrite !string_of_list_ascii_of_string in H.
  assert (Hnorm : forall z : Z,
             NilZero.int_of_string (NilZero.string_of_int (Z.to_int z)) = Some (Z.to_int z)).
  { intros z. apply NilZero.isi; destruct z as [|p|p]; cbn [Z.to_int]; try discriminate;
      intros E; injection E as E; exact (Unsigned.to_uint_nonnil p E). }
  apply (f_equal NilZero.int_of_string) in H. rewrite !Hnorm in H.
  injection H as H. now apply to_int_inj.
Qed.

Section ExperimentRules.

Context {obj ext ext_exn : Type}.

Variable perform : forall A : Type, extcall obj A -> ext -> (ext_exn + A) * ext.

Local Abbreviation X := (stmt obj ext ext_exn).
Local Abbreviation post A := (py_exn ext_exn + A -> globals obj * ext -> Prop).

Lemma wp_mono {A} (m : X A) (Q Q' : post A) (s : globals obj * ext) :
  wp m Q s -> (forall r s', Q r s' -> Q' r s') -> wp m Q' s.
Proof. unfold wp. auto. Qed.

Lemma wp_xret {A} (a : A) (Q : post A) (s : globals obj * ext) :
  Q (inr a) s -> wp (xret a) Q s.
Proof. exact (fun H => H). Qed.

Lemma wp_xraise {A} (e : py_exn ext_exn) (Q : post A) (s : globals obj * ext) :
  Q (inl e) s -> wp (xraise e) Q s.
Proof. exact (fun H => H). Qed.

Lemma wp_xget (Q : post (globals obj)) (s : globals obj * ext) :
  Q (inr (fst s)) s -> wp xget Q s.
Proof. exact (fun H => H). Qed.

Lemma wp_xset (f : globals obj -> globals obj) (Q : post unit) (s : globals obj * ext) :
  Q (inr tt) (f (fst s), snd s) -> wp (xset f) Q s.
Proof. exact (fun H => H). Qed.

Lemma wp_xbind {A B} (m : X A) (k : A -> X B) (Q : post B) (s : globals obj * ext) :
  wp m (fun r s1 =>
          match r with
          | inl e => Q (inl e) s1
          | inr a => wp (k a) Q s1
          end) s ->
  wp (xbind m k) Q s.
Proof.
  unfold wp, xbind. destruct (m s) as [[e|a] s1]; cbn [fst snd]; auto.
Qed.

Lemma wp_call {A} (c : extcall obj A) (Q : post A) (s : globals obj * ext) :
  (forall (e : ext_exn) (x : ext), Q (inl (Raised e)) (fst s, x)) ->
  (forall (a : A) (x : ext), Q (inr a) (fst s, x)) ->
  wp (call perform c) Q s.
Proof.
  intros He Ha. unfold wp, call.
  destruct (perform A c (snd s)) as [[e|a] x]; cbn [fst snd]; auto.
Qed.

Lemma wp_try_except {A} (body : X A) (handler : X unit) (Q : post A)
    (s : globals obj * ext) :
  wp body (fun r s1 =>
             match r with
             | inr a => Q (inr a) s1
             | inl e =>
                 wp handler (fun r2 s2 =>
                               match r2 with
                               | inr _ => Q (inl e) s2
                               | inl e' => Q (inl e') s2
                               end) s1
             end) s ->
  wp (try_except body handler) Q s.
Proof.
  unfold wp, try_except. destruct (body s) as [[e|a] s1]; cbn [fst snd]; auto.
  destruct (handler s1) as [[e'|[]] s2]; cbn [fst snd]; auto.
Qed.

Lemma wp_try_finally {A} (body : X A) (finalizer : X unit) (Q : post A)
    (s : globals obj * ext) :
  wp body (fun r s1 =>
             wp finalizer (fun r2 s2 =>
                             match r2 with
                             | inr _ => Q r s2
                             | inl e' => Q (inl e') s2
                             end) s1) s ->
  wp (try_finally body finalizer) Q s.
Proof.
  unfold wp, try_finally. destruct (body s) as [r s1]; cbn [fst snd].
  destruct (finalizer s1) as [[e'|[]] s2]; cbn [fst snd]; auto.
Qed.

End ExperimentRules.

(** One step of a statement. *)
Ltac wp_step :=
  lazymatch goal with
  | |- wp (xbind _ _) _ _ => apply wp_xbind
  | |- wp (xret _) _ _ => apply wp_xret
  | |- wp (xraise _) _ _ => apply wp_xraise
  | |- wp xget _ _ => apply wp_xget
  | |- wp (xset _) _ _ => apply wp_xset
  | |- wp (call _ _) _ _ => apply wp_call; intros
  | |- wp (try_except _ _) _ _ => apply wp_try_except
  | |- wp (try_finally _ _) _ _ => apply wp_try_finally
  | |- wp (if ?b then _ else _) _ _ => destruct b eqn:?
  | |- wp (match ?v with Some _ => _ | None => _ end) _ _ => destruct v eqn:?
  end;
  cbn [fst snd elastic_id app_id experiment_json running driver_tensorboard_hdfs_path
       run_id set_elastic_id set_app_id set_experiment_json set_running
       set_driver_tensorboard_hdfs_path set_run_id].


Section ExperimentFacts.

Context {obj ext ext_exn : Type}.

Variable perform : forall A : Type, extcall obj A -> ext -> (ext_exn + A) * ext.

Local Abbreviation X := (stmt obj ext ext_exn).

(** The handlers keep the globals other than [experiment_json], and an
    exception that leaves them is one of a collaborator. *)
Lemma set_status_spec (status : str) (s : globals obj * ext) :
  wp (set_status perform status)
     (fun r s' =>
        session (fst s') = session (fst s)
        /\ forall msg, r <> inl (RuntimeError msg)) s.
Proof.
  unfold set_status, put_elastic, session. destruct s as [g x].
  repeat wp_step; (split; [congruence | discriminate]).
Qed.

Lemma set_status_idle (status : str) (s : globals obj * ext) :
  running (fst s) = false \/ experiment_json (fst s) = None ->
  set_status perform status s = (inr tt, s).
Proof.
  unfold set_status, xbind, xget. cbn [fst snd].
  intros [H|H]; rewrite H; [reflexivity |]. now destruct (running (fst s)).
Qed.

(** The [try] block of [begin]. *)
Lemma begin_body_spec (name local_logdir versioned_resources description : option obj)
    (s : globals obj * ext) :
  wp (begin_body perform name local_logdir versioned_resources description)
     (fun r s' =>
        running (fst s') = true
        /\ elastic_id (fst s') = elastic_id (fst s)
        /\ (forall msg, r <> inl (RuntimeError msg))
        /\ match r with
           | inr _ => run_id (fst s') = (run_id (fst s) + 1)%Z /\ is_Some (app_id (fst s'))
           | inl _ =>
               run_id (fst s') = run_id (fst s)
               \/ run_id (fst s') = (run_id (fst s) + 1)%Z
           end) s.
Proof.
  unfold begin_body, get_logdir, put_elastic. destruct s as [g x].
  repeat wp_step;
    (split; [reflexivity |]; split; [reflexivity |]; split; [discriminate |]);
    eauto.
Qed.

(** The [try] and [except] blocks of [end]. *)
Lemma end_body_spec (metric : option obj) (s : globals obj * ext) :
  wp (try_except (end_body perform metric) (exception_handler perform))
     (fun r s' =>
        session (fst s') = session (fst s)
        /\ forall msg, r <> inl (RuntimeError msg)) s.
Proof.
  apply wp_try_except.
  assert (Hbody : wp (end_body perform metric)
                     (fun r s' =>
                        session (fst s') = session (fst s)
                        /\ forall msg, r <> inl (RuntimeError msg)) s).
  { unfold end_body, truth, py_str, put_elastic, session. destruct s as [g x].
    destruct metric; repeat wp_step; (split; [reflexivity | discriminate]). }
  eapply wp_mono; [exact Hbody |]. cbn beta.
  intros [e|a] s1 [Hs He]; [| now split].
  eapply wp_mono; [apply set_status_spec |]. cbn beta.
  intros [e'|[]] s2 [Hs2 He2]; (split; [congruence | assumption || apply He]).
Qed.

(** The [finally] block of [end]. *)
Lemma end_finally_spec (s : globals obj * ext) :
  wp (end_finally perform)
     (fun r s' =>
        session (fst s')
        = ((elastic_id (fst s) + 1)%Z, app_id (fst s), false,
           driver_tensorboard_hdfs_path (fst s), run_id (fst s))
        /\ experiment_json (fst s') = experiment_json (fst s)
        /\ forall msg, r <> inl (RuntimeError msg)) s.
Proof.
  unfold end_finally, session. destruct s as [g x].
  repeat wp_step; (split; [reflexivity |]; split; [reflexivity | discriminate]).
Qed.

(** [end] past its guard. *)
Lemma end_run (metric : option obj) (s : globals obj * ext) :
  running (fst s) = true ->
  wp (end_ perform metric)
     (fun r s' =>
        session (fst s')
        = ((elastic_id (fst s) + 1)%Z, app_id (fst s), false,
           driver_tensorboard_hdfs_path (fst s), run_id (fst s))
        /\ forall msg, r <> inl (RuntimeError msg)) s.
Proof.
  intros Hrun. unfold end_. apply wp_xbind, wp_xget. rewrite Hrun. cbn [negb].
  apply wp_try_finally.
  eapply wp_mono; [apply end_body_spec |]. cbn beta. intros r s1 [Hs He].
  eapply wp_mono; [apply end_finally_spec |]. cbn beta. intros r2 s2 (Hs2 & _ & He2).
  unfold session in Hs. injection Hs as H1 H2 H3 H4 H5.
  rewrite Hs2, H1, H2, H4, H5.
  destruct r2 as [e'|[]]; (split; [reflexivity | assumption]).
Qed.

(** [begin] past its guard. *)
Lemma begin_run (name local_logdir versioned_resources description : option obj)
    (s : globals obj * ext) :
  running (fst s) = false ->
  wp (begin perform name local_logdir versioned_resources description)
     (fun r s' =>
        running (fst s') = true
        /\ elastic_id (fst s') = elastic_id (fst s)
        /\ (forall msg, r <> inl (RuntimeError msg))
        /\ (run_id (fst s') = run_id (fst s)
            \/ run_id (fst s') = (run_id (fst s) + 1)%Z)
        /\ (r = inr tt ->
            run_id (fst s') = (run_id (fst s) + 1)%Z /\ is_Some (app_id (fst s')))) s.
Proof.
  intros Hrun. unfold begin. apply wp_xbind, wp_xget. rewrite Hrun.
  apply wp_try_except.
  eapply wp_mono; [apply begin_body_spec |]. cbn beta.
  intros [e|[]] s1 (Hr & Hel & He & Hid).
  - eapply wp_mono; [apply set_status_spec |]. cbn beta.
    intros r2 s2 [Hs He2]. unfold session in Hs. injection Hs as H1 H2 H3 H4 H5.
    assert (H : running (fst s2) = true
                /\ elastic_id (fst s2) = elastic_id (fst s)
                /\ (run_id (fst s2) = run_id (fst s)
                    \/ run_id (fst s2) = (run_id (fst s) + 1)%Z)).
    { rewrite H1, H3, H5. auto. }
    destruct H as (Ha & Hb & Hc).
    destruct r2 as [e'|[]]; repeat (split; [assumption |]); discriminate.
  - destruct Hid as [Hid Happ].
    repeat (split; [assumption || (right; assumption) |]). auto.
Qed.

(** The guard of [begin]. *)
Lemma begin_guard (name local_logdir versioned_resources description : option obj)
    (s : globals obj * ext) :
  running (fst s) = true ->
  begin perform name local_logdir versioned_resources description s
  = (inl (RuntimeError
       "An experiment is currently running. Please call experiment.stop() to stop it."), s).
Proof.
  intros Hrun. unfold begin, xbind, xget. cbn [fst snd]. now rewrite Hrun.
Qed.

End ExperimentFacts.

(** ** [hops/experiment.py]: the life of an experiment *)

Section ExperimentProperties.

Context {obj ext ext_exn : Type}.

Variable perform : forall A : Type, extcall obj A -> ext -> (ext_exn + A) * ext.

(** X23: a call of [begin] that gets past the guard leaves the module
    running whether it returns or raises, and does not touch
    [elastic_id]. It adds one to [run_id] at most once, and when it
    returns it has done so and [app_id] is set. *)
Theorem begin_starts (name local_logdir versioned_resources description : option obj)
    (s : globals obj * ext) :
  running (fst s) = false ->
  let r := begin perform name local_logdir versioned_resources description s in
  running (fst (snd r)) = true
  /\ elastic_id (fst (snd r)) = elastic_id (fst s)
  /\ (run_id (fst (snd r)) = run_id (fst s)
      \/ run_id (fst (snd r)) = (run_id (fst s) + 1)%Z)
  /\ (fst r = inr tt ->
      run_id (fst (snd r)) = (run_id (fst s) + 1)%Z /\ is_Some (app_id (fst (snd r)))).
Proof.
  intros Hrun. cbv zeta.
  pose proof (begin_run perform name local_logdir versioned_resources description s Hrun)
    as W.
  unfold wp in W. destruct W as (Hr & Hel & _ & Hid & Hok).
  repeat (split; [assumption |]). exact Hok.
Qed.

(** X24: after a call of [begin] that got past the guard, also one that
    raised, the experiment has to be ended before another can begin:
    every further [begin] is refused without effect, while [end] is not
    refused, stops the experiment and adds one to [elastic_id]. *)
Theorem begin_needs_end (name local_logdir versioned_resources description : option obj)
    (s : globals obj * ext) :
  running (fst s) = false ->
  let s1 := snd (begin perform name local_logdir versioned_resources description s) in
  (forall name' local_logdir' versioned_resources' description',
      begin perform name' local_logdir' versioned_resources' description' s1
      = (inl (RuntimeError
           "An experiment is currently running. Please call experiment.stop() to stop it."),
         s1))
  /\ (forall metric,
        let r2 := end_ perform metric s1 in
        (forall msg, fst r2 <> inl (RuntimeError msg))
        /\ running (fst (snd r2)) = false
        /\ elastic_id (fst (snd r2)) = (elastic_id (fst s) + 1)%Z).
Proof.
  intros Hrun. cbv zeta.
  pose proof (begin_run perform name local_logdir versioned_resources description s Hrun)
    as W.
  unfold wp in W. destruct W as (Hr & Hel & _).
  split.
  - intros. now apply begin_guard.
  - intros metric. pose proof (end_run perform metric _ Hr) as W2.
    unfold wp, session in W2. destruct W2 as [Hs He].
    injection Hs as H1 H2 H3 H4 H5.
    split; [exact He |]. split; [exact H3 |]. now rewrite H1, Hel.
Qed.

(** X26: [end] of a running experiment stops it and adds one to
    [elastic_id] in every case: when it returns, when the report of the
    result fails, when the handler fails and when the cleanup fails.
    [app_id], [run_id] and [driver_tensorboard_hdfs_path] stay. *)
Theorem end_resets (metric : option obj) (s : globals obj * ext) :
  running (fst s) = true ->
  let s' := snd (end_ perform metric s) in
  running (fst s') = false
  /\ elastic_id (fst s') = (elastic_id (fst s) + 1)%Z
  /\ app_id (fst s') = app_id (fst s)
  /\ run_id (fst s') = run_id (fst s)
  /\ driver_tensorboard_hdfs_path (fst s') = driver_tensorboard_hdfs_path (fst s).
Proof.
  intros Hrun. cbv zeta.
  pose proof (end_run perform metric s Hrun) as W.
  unfold wp, session in W. destruct W as [Hs _].
  injection Hs as H1 H2 H3 H4 H5. auto.
Qed.

(** X27: [exception_handler] and [exit_handler] assign no global but
    [experiment_json], whatever happens in them, and raise no error of
    their own. When no experiment is running or [experiment_json] is
    [None] they return at once: nothing is asked of a collaborator and
    [experiment_json] stays too. *)
Theorem handlers_frame (s : globals obj * ext) :
  session (fst (snd (exception_handler perform s))) = session (fst s)
  /\ session (fst (snd (exit_handler perform s))) = session (fst s)
  /\ (forall msg,
        fst (exception_handler perform s) <> inl (RuntimeError msg)
        /\ fst (exit_handler perform s) <> inl (RuntimeError msg))
  /\ (running (fst s) = false \/ experiment_json (fst s) = None ->
      exception_handler perform s = (inr tt, s)
      /\ exit_handler perform s = (inr tt, s)).
Proof.
  pose proof (set_status_spec perform "FAILED" s) as [H1 H2].
  pose proof (set_status_spec perform "KILLED" s) as [H3 H4].
  split; [exact H1 |]. split; [exact H3 |]. split.
  - intros msg. split; [apply H2 | apply H4].
  - intros Hidle. split; now apply set_status_idle.
Qed.

(** X28: an experiment that was ended is not reported as killed when
    the interpreter exits: after [end] of a running experiment, however
    it went, [exit_handler] returns at once, and so does
    [exception_handler]. *)
Theorem exit_handler_after_end (metric : option obj) (s : globals obj * ext) :
  running (fst s) = true ->
  let s' := snd (end_ perform metric s) in
  exit_handler perform s' = (inr tt, s')
  /\ exception_handler perform s' = (inr tt, s').
Proof.
  intros Hrun. cbv zeta.
  pose proof (end_run perform metric s Hrun) as W.
  unfold wp, session in W. destruct W as [Hs _].
  injection Hs as _ _ H3 _ _.
  split; apply set_status_idle; now left.
Qed.

(** X29: the directory of the logs tells the run: for one application
    and one directory of experiments, [get_logdir] gives the same path
    only for the same [run_id], so that the runs that [begin] numbers
    do not share a directory. *)
Theorem get_logdir_run_id (app d p : str) (s1 s2 : globals obj * ext) :
  fst (perform str hopshdfs_get_experiments_dir (snd s1)) = inr d ->
  fst (perform str hopshdfs_get_experiments_dir (snd s2)) = inr d ->
  fst (get_logdir perform app s1) = inr p ->
  fst (get_logdir perform app s2) = inr p ->
  run_id (fst s1) = run_id (fst s2).
Proof.
  unfold get_logdir, xbind, call, xget, xret.
  destruct (perform str hopshdfs_get_experiments_dir (snd s1)) as [[e1|d1] x1];
    cbn [fst snd]; [discriminate |].
  destruct (perform str hopshdfs_get_experiments_dir (snd s2)) as [[e2|d2] x2];
    cbn [fst snd]; [discriminate |].
  intros [= ->] [= ->] [= <-] [= H].
  apply str_of_Z_inj.
  apply app_inv_head in H. injection H as H.
  apply app_inv_head in H. injection H as H. now symmetry.
Qed.

End ExperimentProperties.

Lemma begin_starts_example :
  running (fst (snd (begin example_perform None None None None (initial_globals, 0))))
  = true.
Proof.
  apply (begin_starts example_perform None None None None (initial_globals, 0)).
  reflexivity.
Defined.

Lemma begin_needs_end_example :
  running
    (fst (snd (end_ offline_perform None
                 (snd (begin offline_perform None None None None (initial_globals, 0))))))
  = false.
Proof.
  apply (begin_needs_end offline_perform None None None None (initial_globals, 0)).
  reflexivity.
Defined.

Lemma end_resets_example :
  elastic_id (fst (snd (end_ offline_perform (Some ("0.93" : str)) (example_running, 0))))
  = 2%Z.
Proof.
  apply (end_resets offline_perform (Some ("0.93" : str)) (example_running, 0)).
  reflexivity.
Defined.

Lemma exit_handler_after_end_example :
  exit_handler example_perform (snd (end_ example_perform None (example_running, 0)))
  = (inr tt, snd (end_ example_perform None (example_running, 0))).
Proof.
  apply (exit_handler_after_end example_perform None (example_running, 0)).
  reflexivity.
Defined.

Lemma get_logdir_run_id_example :
  run_id (fst (example_running, 0)) = run_id (fst (example_running, 7)).
Proof.
  apply (get_logdir_run_id example_perform "application_1_0001"
           "/Projects/demo/Experiments"
           "/Projects/demo/Experiments/application_1_0001/begin/run.1"
           (example_running, 0) (example_running, 7));
    reflexivity.
Defined.
